(** * VR180 / anaglyph conversion pipeline: a shallow embedding

    The development follows the Python sources module by module:
    - [PyStr]       : the string helpers the sources rely on (f-string integer
                      formatting, [os.path.join], [str.lower], [str.endswith]);
    - [VideoReader] : [src/video_reader.py];
    - [Streaming]   : [src/streaming.py];
    - [Anaglyph]    : [src/anaglyph_processor.py];
    - [Stereo]      : [src/stereo.py];
    - [Projection]  : [src/projection.py], on [Float64];
    - [Pipeline]    : [src/main.py].

    Python integers are [Z]; file names and paths are [string]; a directory is
    a finite map from file names to contents. *)

From Stdlib Require Import ZArith List String Ascii Lia Decimal DecimalString.
From Stdlib Require Import DecimalN DecimalPos QArith Qround Qpower Bool.
From Stdlib.Strings Require Import Byte.
From Stdlib Require Import Lqa.
From stdpp Require Import gmap strings list sorting.

#[local] Open Scope string_scope.
#[local] Open Scope list_scope.
#[local] Open Scope Z_scope.

(* ===================================================================== *)
(** * Python string helpers *)
(* ===================================================================== *)

Module PyStr.

(** [str(n)] for a natural number. *)
Definition digits_of_N (n : N) : string :=
  NilEmpty.string_of_uint (N.to_uint n).

(** [s.zfill(w)] for a string without sign. *)
Fixpoint zeros (k : nat) : string :=
  match k with
  | O => EmptyString
  | S k' => String "0" (zeros k')
  end.

Definition zfill (w : nat) (s : string) : string :=
  (zeros (w - String.length s) +:+ s)%string.

(** [f"{z:0wd}"] (and C's [%0wd]): decimal, zero-padded to at least [w]
    characters, the sign counted in the width. *)
Definition format_0wd (w : nat) (z : Z) : string :=
  match z with
  | Zneg p => String "-" (zfill (w - 1) (digits_of_N (Npos p)))
  | _ => zfill w (digits_of_N (Z.to_N z))
  end.

(** Reading a run of decimal digits back ([int(s)] on ASCII digits). *)
Definition parse_digits (s : string) : option N :=
  option_map N.of_uint (NilEmpty.uint_of_string s).

(** [os.path.join(a, b)] on POSIX paths. *)
Definition ends_with_slash (a : string) : bool :=
  match String.length a with
  | O => false
  | S k => match String.get k a with
           | Some c => Ascii.eqb c "/"
           | None => false
           end
  end.

Definition os_path_join (a b : string) : string :=
  match b with
  | String "/" _ => b
  | _ => if (String.eqb a "" || ends_with_slash a)%bool then a +:+ b
         else a +:+ "/" +:+ b
  end.

(** [str.lower] on ASCII letters. *)
Definition lower_ascii (c : ascii) : ascii :=
  let n := nat_of_ascii c in
  if ((65 <=? n)%nat && (n <=? 90)%nat)%bool then ascii_of_nat (n + 32) else c.

Fixpoint lower (s : string) : string :=
  match s with
  | EmptyString => EmptyString
  | String c s' => String (lower_ascii c) (lower s')
  end.

(** [s.endswith(suffix)]. *)
Definition endswith (s suffix : string) : bool :=
  let n := String.length s in
  let k := String.length suffix in
  if (k <=? n)%nat then String.eqb (String.substring (n - k) k s) suffix
  else false.

(** The frame file name [f"frame_{i:06d}.png"]. *)
Definition frame_name (i : Z) : string :=
  "frame_" +:+ format_0wd 6 i +:+ ".png".

(** The inverse reading of a frame file name. *)
Definition frame_index (name : string) : option N :=
  let n := String.length name in
  parse_digits (String.substring 6 (n - 10) name).

End PyStr.

(* ===================================================================== *)
(** * Python and NumPy numbers *)
(* ===================================================================== *)

Module PyNum.

(** [int(x)] on a float, and the C cast behind [astype] on an in-range
    value: truncation toward zero. *)
Definition trunc (q : Q) : Z :=
  if Qle_bool 0 q then Qfloor q else Qceiling q.

(** NumPy's resolution of an index [i] on an axis of [n] entries: negative
    indices count from the end, anything else out of range is an
    [IndexError] ([None]). *)
Definition np_index (n : nat) (i : Z) : option nat :=
  if ((0 <=? i) && (i <? Z.of_nat n))%bool then Some (Z.to_nat i)
  else if ((- Z.of_nat n <=? i) && (i <? 0))%bool
       then Some (Z.to_nat (Z.of_nat n + i))
       else None.

End PyNum.

(** Finite [float32] values, each represented by the rational it denotes.
    Every operation is the exact operation followed by rounding to the nearest
    binary32 value, ties to even (24-bit significand, gradual underflow at
    [2^-149]). Overflow to infinity (magnitudes from [2^128] on) is outside
    the model. *)
Module Float32.

#[local] Open Scope Q_scope.

(** Rounding to the nearest integer, ties to even. *)
Definition rne (q : Q) : Z :=
  let f := Qfloor q in
  match Qcompare (q - inject_Z f) (1 # 2) with
  | Lt => f
  | Gt => (f + 1)%Z
  | Eq => if Z.even f then f else (f + 1)%Z
  end.

Definition pow2 (e : Z) : Q := Qpower 2 e.

(** [floor (log2 q)] for a positive rational. *)
Definition ilog2 (q : Q) : Z :=
  let k := (Z.log2 (Qnum q) - Z.log2 (Zpos (Qden q)))%Z in
  if Qle_bool (pow2 k) q then k else (k - 1)%Z.

Definition round_pos (q : Q) : Q :=
  let e := Z.max (ilog2 q - 23) (-149) in
  Qred (inject_Z (rne (q / pow2 e)) * pow2 e).

Definition round (q : Q) : Q :=
  match Qcompare q 0 with
  | Eq => 0
  | Gt => round_pos q
  | Lt => - round_pos (- q)
  end.

Definition of_Z (z : Z) : Q := round (inject_Z z).
Definition of_uint8 (b : Byte.byte) : Q := inject_Z (Z.of_N (Byte.to_N b)).

Definition add (x y : Q) : Q := round (x + y).
Definition sub (x y : Q) : Q := round (x - y).
Definition mul (x y : Q) : Q := round (x * y).
Definition div (x y : Q) : Q := round (x / y).

(** [astype(np.int32)]: truncation toward zero; a value outside the int32
    range gives [-2^31] (the x86-64 conversion NumPy compiles to). *)
Definition to_int32 (x : Q) : Z :=
  let t := PyNum.trunc x in
  if ((- 2 ^ 31 <=? t) && (t <? 2 ^ 31))%Z%bool then t else (- 2 ^ 31)%Z.

End Float32.

(* ===================================================================== *)
(** * NumPy's [float64] *)
(* ===================================================================== *)

Module Float64.

#[local] Open Scope Q_scope.

(** A binary64 value: a finite number, an infinity or a NaN. A finite value
    is the rational it denotes. Zero carries no sign here: the sign of a
    zero shows in the sign of the infinity that a division by it gives and
    nowhere else in this arithmetic. *)
Inductive f64 : Type :=
  | Fin (q : Q)
  | PInf
  | NInf
  | NaN.

(** Rounding a positive rational to the nearest binary64, ties to even: 53
    significant bits, the smallest step [2^-1074], overflow to infinity
    from [2^1024] on. *)
Definition round_pos (q : Q) : f64 :=
  let e := Z.max (Float32.ilog2 q - 52) (-1074) in
  let r := inject_Z (Float32.rne (q / Float32.pow2 e)) * Float32.pow2 e in
  if Qle_bool (Float32.pow2 1024) r then PInf else Fin (Qred r).

Definition neg (x : f64) : f64 :=
  match x with
  | Fin q => Fin (- q)
  | PInf => NInf
  | NInf => PInf
  | NaN => NaN
  end.

Definition round (q : Q) : f64 :=
  let q := Qred q in
  match Qcompare q 0 with
  | Eq => Fin 0
  | Gt => round_pos q
  | Lt => neg (round_pos (- q))
  end.

(** The infinity [inf] or its opposite, after the sign of [q]; a NaN for
    zero. *)
Definition signed (q : Q) (inf : f64) : f64 :=
  match Qcompare q 0 with
  | Eq => NaN
  | Gt => inf
  | Lt => neg inf
  end.

Definition add (x y : f64) : f64 :=
  match x, y with
  | Fin a, Fin b => round (a + b)
  | NaN, _ | _, NaN => NaN
  | PInf, NInf | NInf, PInf => NaN
  | PInf, _ | _, PInf => PInf
  | NInf, _ | _, NInf => NInf
  end.

Definition sub (x y : f64) : f64 := add x (neg y).

Definition mul (x y : f64) : f64 :=
  match x, y with
  | Fin a, Fin b => round (a * b)
  | NaN, _ | _, NaN => NaN
  | Fin a, PInf | PInf, Fin a => signed a PInf
  | Fin a, NInf | NInf, Fin a => signed a NInf
  | PInf, PInf | NInf, NInf => PInf
  | PInf, NInf | NInf, PInf => NInf
  end.

Definition div (x y : f64) : f64 :=
  match x, y with
  | Fin a, Fin b =>
      match Qcompare b 0 with
      | Eq => signed a PInf
      | _ => round (a / b)
      end
  | NaN, _ | _, NaN => NaN
  | Fin _, PInf | Fin _, NInf => Fin 0
  | PInf, Fin b => match Qcompare b 0 with Lt => NInf | _ => PInf end
  | NInf, Fin b => match Qcompare b 0 with Lt => PInf | _ => NInf end
  | _, _ => NaN
  end.

(** [x < y] and [x <= y]: false as soon as one side is a NaN. *)
Definition lt (x y : f64) : bool :=
  match x, y with
  | NaN, _ | _, NaN => false
  | Fin a, Fin b => negb (Qle_bool b a)
  | _, NInf => false
  | NInf, _ => true
  | PInf, _ => false
  | Fin _, PInf => true
  end.

Definition le (x y : f64) : bool :=
  match x, y with
  | NaN, _ | _, NaN => false
  | Fin a, Fin b => Qle_bool a b
  | NInf, _ => true
  | _, PInf => true
  | _, NInf => false
  | PInf, Fin _ => false
  end.

(** An integer taken as a [float64]. *)
Definition of_Z (z : Z) : f64 := round (inject_Z z).

Definition of_nat (n : nat) : f64 := of_Z (Z.of_nat n).

(** [np.pi], the binary64 nearest to pi. *)
Definition pi : Q := 884279719003555 # 281474976710656.

(** The [float32] a finite value is stored as in a [float32] array. *)
Definition to_float32 (x : f64) : Q :=
  match x with
  | Fin q => Float32.round q
  | _ => 0
  end.

End Float64.

(* ===================================================================== *)
(** * [src/video_reader.py] *)
(* ===================================================================== *)

Module VideoReader.

(** A batch descriptor is the tuple
    [(batch_idx, start_frame, end_frame, frames_paths_list)]. *)
Definition batch : Type := Z * Z * Z * list string.

Definition batch_index (b : batch) : Z := b.1.1.1.
Definition start_frame (b : batch) : Z := b.1.1.2.
Definition end_frame (b : batch) : Z := b.1.2.
Definition frame_paths (b : batch) : list string := b.2.

Section Reader.
(** A decoded image; its pixels play no role in the batching. *)
Context {Frame : Type}.

(** [cv2.VideoCapture]: the container properties returned by [cap.get]
    (OpenCV returns them as doubles; 0 when unknown or when the file
    could not be opened) and the frames that [cap.read()] delivers before
    it first answers [ret = False]. *)
Record capture := {
  prop_fps : Q;
  prop_frame_count : Q;
  prop_frame_width : Q;
  prop_frame_height : Q;
  decoded : list Frame
}.

(** The mutable locals of the reading loop, and the frame store. *)
Record loop_state := {
  batches : list batch;
  frame_idx : Z;
  batch_idx : Z;
  current_batch : list string;
  frame_store : gmap string Frame
}.

Definition initial_state : loop_state :=
  {| batches := []; frame_idx := 0; batch_idx := 0;
     current_batch := []; frame_store := ∅ |}.

(** One iteration of [while True] for a frame that was read. *)
Definition loop_body (frames_out_dir : string) (batch_size : Z)
    (st : loop_state) (frame : Frame) : loop_state :=
  let fname := PyStr.frame_name (frame_idx st) in
  let outpath := PyStr.os_path_join frames_out_dir fname in
  let store' := <[outpath := frame]> (frame_store st) in
  let cur := current_batch st ++ [outpath] in
  let fi := frame_idx st + 1 in
  if Z.of_nat (length cur) >=? batch_size then
    {| batches := batches st ++
                  [(batch_idx st, fi - Z.of_nat (length cur), fi - 1, cur)];
       frame_idx := fi;
       batch_idx := batch_idx st + 1;
       current_batch := [];
       frame_store := store' |}
  else
    {| batches := batches st;
       frame_idx := fi;
       batch_idx := batch_idx st;
       current_batch := cur;
       frame_store := store' |}.

(** The statement after the loop: [if current_batch: batches.append(...)]. *)
Definition flush (st : loop_state) : list batch :=
  match current_batch st with
  | [] => batches st
  | cur => batches st ++
           [(batch_idx st, frame_idx st - Z.of_nat (length cur),
             frame_idx st - 1, cur)]
  end.

(** [read_and_write_batches]: returns [(batches, fps, total, w, h)]; the
    frame store it filled is returned next to it. *)
Definition read_and_write_batches (cap : capture) (frames_out_dir : string)
    (batch_size : Z) : (list batch * Q * Z * Z * Z) * gmap string Frame :=
  let fps := if Qeq_bool (prop_fps cap) 0 then 30%Q else prop_fps cap in
  let total := PyNum.trunc (prop_frame_count cap) in
  let w := PyNum.trunc (prop_frame_width cap) in
  let h := PyNum.trunc (prop_frame_height cap) in
  let st := fold_left (loop_body frames_out_dir batch_size)
                      (decoded cap) initial_state in
  ((flush st, fps, total, w, h), frame_store st).

Definition batches_of (cap : capture) (dir : string) (batch_size : Z)
    : list batch :=
  (read_and_write_batches cap dir batch_size).1.1.1.1.1.

End Reader.

Arguments capture : clear implicits.
Arguments loop_state : clear implicits.

(** The path the [i]-th decoded frame is written to. *)
Definition frame_path (dir : string) (i : Z) : string :=
  PyStr.os_path_join dir (PyStr.frame_name i).

(** The [k]-th batch when it is complete, and the short batch that closes a
    sequence of [N] frames. *)
Definition full_batch (dir : string) (B k : Z) : batch :=
  (k, k * B, k * B + B - 1, frame_path dir <$> seqZ (k * B) B).

Definition tail_batch (dir : string) (B N : Z) : batch :=
  (N / B, B * (N / B), N - 1, frame_path dir <$> seqZ (B * (N / B)) (N mod B)).

End VideoReader.


(* ===================================================================== *)
(** * Python exceptions *)
(* ===================================================================== *)

(** The exceptions the modelled code can meet; all are instances of
    [Exception], so an [except Exception] clause catches each of them. *)
Inductive py_exception : Type :=
  | ValueError
  | IndexError
  | CalledProcessError
  | OSError
  | Cv2Error.

Inductive result (A : Type) : Type :=
  | Ok (a : A)
  | Raise (e : py_exception).
Arguments Ok {A} a.
Arguments Raise {A} e.

#[global] Instance result_ret : MRet result := fun A a => Ok a.

#[global] Instance result_bind : MBind result := fun A B k r =>
  match r with
  | Ok a => k a
  | Raise e => Raise e
  end.

Definition raises {A : Type} (r : result A) : Prop :=
  match r with
  | Ok _ => False
  | Raise _ => True
  end.

(* ===================================================================== *)
(** * [src/streaming.py] *)
(* ===================================================================== *)

Module Streaming.

Definition is_digit (c : ascii) : bool :=
  let n := nat_of_ascii c in ((48 <=? n)%nat && (n <=? 57)%nat)%bool.

Definition newline : string := String (ascii_of_nat 10) EmptyString.

(** [re.compile(r"segment_(\d{5})\.ts$").match(name)], giving [group(1)].
    [match] anchors at the start of [name]; [\d{5}] takes exactly five
    digits; [$] accepts the end of the string or a final newline. A name is
    the string of its UTF-8 bytes. On a name of ASCII characters [\d] is
    [0-9] and this is the match Python makes. Python's [\d] also takes the
    decimal digits of other scripts, which [int] reads as well; which
    characters those are is a table of the interpreter's Unicode database
    and is not modelled: the statements about the scan are for directories
    of ASCII names. *)
Definition pattern_match (name : string) : option string :=
  if String.prefix "segment_" name then
    let rest := String.substring 8 (String.length name - 8) name in
    let group1 := String.substring 0 5 rest in
    let tail := String.substring 5 (String.length rest - 5) rest in
    if ((String.length group1 =? 5)%nat
        && forallb is_digit (list_ascii_of_string group1)
        && (String.eqb tail ".ts" || String.eqb tail (".ts" +:+ newline)))%bool
    then Some group1
    else None
  else None.

(** The body of [for name in os.listdir(stream_dir)]. [int(m.group(1))]
    cannot fail on five digits; the [except ValueError: continue] arm is the
    [None] case. *)
Definition scan_name (max_idx : Z) (name : string) : Z :=
  match pattern_match name with
  | Some g =>
      match PyStr.parse_digits g with
      | Some idx => if Z.of_N idx >? max_idx then Z.of_N idx else max_idx
      | None => max_idx
      end
  | None => max_idx
  end.

(** A stream directory: [None] when the path is not a directory, else the
    names of its entries. *)
Definition directory : Type := option (gset string).

Definition listdir (names : gset string) : list string := elements names.

Definition _next_segment_start_number (stream_dir : directory) : Z :=
  let max_idx :=
    match stream_dir with
    | Some names => fold_left scan_name (listdir names) (-1)
    | None => -1
    end in
  if max_idx >=? 0 then max_idx + 1 else 0.

(** The file name ffmpeg derives from the template [segment_%05d.ts]. *)
Definition segment_name (n : Z) : string :=
  "segment_" +:+ PyStr.format_0wd 5 n +:+ ".ts".

(** The stream a player follows: the directory and the segment numbers
    listed, in order, in [output.m3u8]. *)
Record stream := {
  stream_dir : directory;
  playlist : list Z
}.

Definition makedirs (d : directory) : gset string :=
  match d with
  | Some names => names
  | None => ∅
  end.

(** The number ffmpeg gives its first new segment. Without a playlist to
    append to, it is [-start_number]. With [append_list] the HLS muxer
    reads [output.m3u8] back before it writes: it takes the larger of
    [-start_number] and the sequence number the playlist declares, and
    counts one more for every segment listed. A playlist these runs wrote
    (never trimmed: [-hls_list_size 0]) declares the number of its last
    segment, plus one, minus the number of segments it lists. *)
Definition first_segment_number (start_number : Z) (pl : list Z) : Z :=
  match last pl with
  | None => start_number
  | Some last_listed =>
      let listed := Z.of_nat (length pl) in
      Z.max start_number (last_listed + 1 - listed) + listed
  end.

(** [add_batch_to_hls]. The ffmpeg run is the external transcoder: it either
    exits non-zero ([subprocess.run(..., check=True)] then raises
    [CalledProcessError]) or cuts the input into [k] segments, numbers them
    from [first_segment_number] on, writes them through the template and
    appends them to the playlist ([append_list]). *)
Definition ffmpeg_hls (start_number : Z) (k : nat) (names : gset string)
    (pl : list Z) : gset string * list Z :=
  let numbers := seqZ (first_segment_number start_number pl) (Z.of_nat k) in
  (list_to_set (segment_name <$> numbers) ∪ {["output.m3u8"]} ∪ names,
   pl ++ numbers).

Definition add_batch_to_hls (ffmpeg : result nat) (s : stream)
    : result unit * stream :=
  let names := makedirs (stream_dir s) in
  let start_number := _next_segment_start_number (Some names) in
  match ffmpeg with
  | Ok k =>
      let '(names', pl') := ffmpeg_hls start_number k names (playlist s) in
      (Ok tt, {| stream_dir := Some names'; playlist := pl' |})
  | Raise e =>
      (Raise e, {| stream_dir := Some names; playlist := playlist s |})
  end.

(** [n] successive appends, the [i]-th cutting [ks !! i] segments. *)
Definition append_all (ks : list nat) (s : stream) : stream :=
  fold_left (fun s k => (add_batch_to_hls (Ok k) s).2) ks s.

End Streaming.

(* ===================================================================== *)
(** * Images as NumPy arrays *)
(* ===================================================================== *)

Module Image.

(** A [uint8] channel value. *)
Definition uint8 : Type := Byte.byte.

(** A pixel of an [H x W x 3] array: the values at channel index 0, 1, 2. *)
Definition pixel : Type := uint8 * uint8 * uint8.

Inductive channel : Type := Ch0 | Ch1 | Ch2.

Definition get_channel (k : channel) (p : pixel) : uint8 :=
  match k with
  | Ch0 => p.1.1
  | Ch1 => p.1.2
  | Ch2 => p.2
  end.

Definition set_channel (k : channel) (v : uint8) (p : pixel) : pixel :=
  match k with
  | Ch0 => (v, p.1.2, p.2)
  | Ch1 => (p.1.1, v, p.2)
  | Ch2 => (p.1.1, p.1.2, v)
  end.

(** OpenCV stores colour images in B, G, R order: [cv2.imread] returns and
    [cv2.imwrite] expects blue at index 0, green at 1, red at 2. *)
Definition cv_blue : channel := Ch0.
Definition cv_green : channel := Ch1.
Definition cv_red : channel := Ch2.

Definition black : pixel := (Byte.x00, Byte.x00, Byte.x00).

(** A two-dimensional array with its [shape[:2]]. *)
Record array2 (A : Type) := {
  nrows : nat;
  ncols : nat;
  cells : list (list A)
}.
Arguments nrows {A} _.
Arguments ncols {A} _.
Arguments cells {A} _.

Definition wf {A : Type} (a : array2 A) : bool :=
  ((length (cells a) =? nrows a)%nat
   && forallb (fun r => (length r =? ncols a)%nat) (cells a))%bool.

Definition image : Type := array2 pixel.

(** [np.zeros_like], [np.zeros], [np.ones]. *)
Definition full {A : Type} (h w : nat) (v : A) : array2 A :=
  {| nrows := h; ncols := w; cells := replicate h (replicate w v) |}.

Definition zeros_like (img : image) : image :=
  full (nrows img) (ncols img) black.

Definition at2 {A : Type} (a : array2 A) (y x : nat) : option A :=
  r ← cells a !! y; r !! x.

End Image.

(** A loop whose body may raise: the first exception ends it. *)
Fixpoint fold_result {A S : Type} (body : S -> A -> result S) (l : list A)
    (s : S) : result S :=
  match l with
  | [] => Ok s
  | a :: l' => s' ← body s a; fold_result body l' s'
  end.

Definition or_raise {A : Type} (e : py_exception) (o : option A) : result A :=
  match o with
  | Some a => Ok a
  | None => Raise e
  end.

(* ===================================================================== *)
(** * [src/anaglyph_processor.py] *)
(* ===================================================================== *)

Module Anaglyph.
Import Image.

(** NumPy's rule for [dst[:, :, k] = src[:, :, j]]: the [(Hs, Ws)] plane of
    [src] must broadcast to the [(H, W)] plane of [dst]. *)
Definition broadcastable (src dst : image) : bool :=
  (((nrows src =? nrows dst)%nat || (nrows src =? 1)%nat)
   && ((ncols src =? ncols dst)%nat || (ncols src =? 1)%nat))%bool.

Definition broadcast_at (src dst : image) (y x : nat) : option pixel :=
  at2 src (if (nrows src =? nrows dst)%nat then y else 0%nat)
          (if (ncols src =? ncols dst)%nat then x else 0%nat).

(** [dst[:, :, k] = src[:, :, j]]. *)
Definition assign_channel (dst : image) (k : channel) (src : image)
    (j : channel) : result image :=
  if broadcastable src dst then
    Ok {| nrows := nrows dst; ncols := ncols dst;
          cells := imap (fun y row =>
                     imap (fun x p =>
                       match broadcast_at src dst y x with
                       | Some q => set_channel k (get_channel j q) p
                       | None => p
                       end) row) (cells dst) |}
  else Raise ValueError.

(** Lines 33-36 of [create_anaglyph_from_stereo]. *)
Definition anaglyph_array (left right : image) : result image :=
  let anaglyph := zeros_like left in
  a0 ← assign_channel anaglyph Ch0 left Ch2;
  a1 ← assign_channel a0 Ch1 right Ch1;
  assign_channel a1 Ch2 right Ch0.

(** [create_anaglyph_from_stereo] on a file system holding decodable
    images; [imwrite_ok] is the flag [cv2.imwrite] answers. Every exception
    of the body is caught and turned into [False]. *)
Definition create_anaglyph_from_stereo (imwrite_ok : bool)
    (fs : gmap string image) (left_path right_path output_path : string)
    : bool * gmap string image :=
  match fs !! left_path, fs !! right_path with
  | Some l, Some r =>
      match anaglyph_array l r with
      | Ok anaglyph =>
          if imwrite_ok then (true, <[output_path := anaglyph]> fs)
          else (false, fs)
      | Raise _ => (false, fs)
      end
  | _, _ => (false, fs)
  end.

End Anaglyph.

(* ===================================================================== *)
(** * [src/stereo.py] *)
(* ===================================================================== *)

Module Stereo.
Import Image.

(** [depth.astype(np.float32) / 255.0], or [np.ones((H, W))] when the depth
    map is absent. The depth map is the single-channel 8-bit image that
    [batch_generate_stereo] reads with [IMREAD_GRAYSCALE]. *)
Definition normalise_depth (H W : nat) (depth : option (array2 uint8))
    : array2 Q :=
  match depth with
  | None => full H W 1%Q
  | Some d =>
      {| nrows := nrows d; ncols := ncols d;
         cells := map (map (fun b => Float32.div (Float32.of_uint8 b) 255%Q))
                      (cells d) |}
  end.

(** [shift = (1 - depth) * max_shift], element-wise in float32. *)
Definition shift_of (max_shift : Z) (dpt : Q) : Q :=
  Float32.mul (Float32.sub 1%Q dpt) (Float32.of_Z max_shift).

Definition shift_array (max_shift : Z) (depth : array2 Q) : array2 Q :=
  {| nrows := nrows depth; ncols := ncols depth;
     cells := map (map (shift_of max_shift)) (cells depth) |}.

(** [img[y, c] = v], for a row [y] in range and any integer [c]. *)
Definition setitem2 (img : image) (y : nat) (c : Z) (v : pixel)
    : result image :=
  match PyNum.np_index (ncols img) c with
  | Some c' =>
      Ok {| nrows := nrows img; ncols := ncols img;
            cells := alter (fun row => <[c' := v]> row) y (cells img) |}
  | None => Raise IndexError
  end.

(** The body of [for x in range(W)]. *)
Definition scatter_pixel (frame : image) (W : nat) (y : nat)
    (dx_row : list Z) (eyes : image * image) (x : nat)
    : result (image * image) :=
  dx ← or_raise IndexError (dx_row !! x);
  let nl := Z.min (Z.of_nat W - 1) (Z.of_nat x + dx) in
  let nr := Z.max 0 (Z.of_nat x - dx) in
  px ← or_raise IndexError (at2 frame y x);
  left_eye ← setitem2 eyes.1 y nl px;
  right_eye ← setitem2 eyes.2 y nr px;
  Ok (left_eye, right_eye).

(** The body of [for y in range(H)]. *)
Definition scatter_row (frame : image) (W : nat) (shift : array2 Q)
    (eyes : image * image) (y : nat) : result (image * image) :=
  row ← or_raise IndexError (cells shift !! y);
  let dx_row := Float32.to_int32 <$> row in
  fold_result (scatter_pixel frame W y dx_row) (seq 0 W) eyes.

(** Lines 6-27: the two eye images before hole detection. *)
Definition scatter (frame : image) (depth : option (array2 uint8))
    (max_shift : Z) : result (image * image) :=
  let H := nrows frame in
  let W := ncols frame in
  let shift := shift_array max_shift (normalise_depth H W depth) in
  let left_eye := zeros_like frame in
  let right_eye := zeros_like frame in
  fold_result (scatter_row frame W shift) (seq 0 H) (left_eye, right_eye).

(** [(img.sum(axis=2) == 0).astype(np.uint8)]; the sum of three [uint8]
    values is taken in a wider unsigned type and cannot wrap. *)
Definition channel_sum (p : pixel) : N :=
  (Byte.to_N p.1.1 + Byte.to_N p.1.2 + Byte.to_N p.2)%N.

Definition hole_mask (img : image) : array2 uint8 :=
  {| nrows := nrows img; ncols := ncols img;
     cells := map (map (fun p => if (channel_sum p =? 0)%N
                                 then Byte.x01 else Byte.x00))
                  (cells img) |}.

(** The reading of the scatter loop, pixel by pixel. [depth_px] is the
    normalised depth the loop meets at [(y, x)], [pixel_shift] the integer
    [dx] it derives from it, [dest_left] and [dest_right] the columns [nl] and
    [nr] it writes. *)
Definition depth_px (depth : option (array2 uint8)) (y x : nat) : Q :=
  match depth with
  | None => 1%Q
  | Some d =>
      match at2 d y x with
      | Some b => Float32.div (Float32.of_uint8 b) 255%Q
      | None => 1%Q
      end
  end.

Definition pixel_shift (max_shift : Z) (depth : option (array2 uint8))
    (y x : nat) : Z :=
  Float32.to_int32 (shift_of max_shift (depth_px depth y x)).

Definition dest_left (W : nat) (dx : nat -> Z) (x : nat) : Z :=
  Z.min (Z.of_nat W - 1) (Z.of_nat x + dx x).

Definition dest_right (dx : nat -> Z) (x : nat) : Z :=
  Z.max 0 (Z.of_nat x - dx x).

(** The last of the columns [0 .. k-1] that the loop sends to column [c]. *)
Fixpoint last_writer (dest : nat -> Z) (k : nat) (c : Z) : option nat :=
  match k with
  | O => None
  | S k' => if dest k' =? c then Some k' else last_writer dest k' c
  end.

(** What a destination pixel holds once the columns [0 .. k-1] of its row
    were scattered: the source pixel of its last writer, else the initial
    zero. *)
Definition scattered (frame : image) (dest : nat -> Z) (k : nat) (y c : nat)
    : pixel :=
  match last_writer dest k (Z.of_nat c) with
  | Some x => default black (at2 frame y x)
  | None => black
  end.

Section Synthesizer.
(** [cv2.inpaint(src, mask, radius, cv2.INPAINT_TELEA)], the external
    hole-filling routine. *)
Variable inpaint : image -> array2 uint8 -> Z -> image.

Definition generate_stereo_from_depth_frame (frame : image)
    (depth : option (array2 uint8)) (max_shift : Z)
    : result (image * image) :=
  eyes ← scatter frame depth max_shift;
  let left_eye := eyes.1 in
  let right_eye := eyes.2 in
  let mask_left := hole_mask left_eye in
  let left_eye := inpaint left_eye mask_left 3 in
  let mask_right := hole_mask right_eye in
  let right_eye := inpaint right_eye mask_right 3 in
  Ok (left_eye, right_eye).

End Synthesizer.

End Stereo.

(* ===================================================================== *)
(** * [src/projection.py] *)
(* ===================================================================== *)

(** The tables are computed in [float64], as Numba compiles the loops, and
    stored in [float32] arrays. *)
Module Projection.
Import Image Float64.

#[local] Open Scope Q_scope.

(** The double-precision [sin], [cos] and [tan] of the C library that NumPy
    and Numba call, on finite arguments, and NumPy's conversion of degrees
    to radians. Their values are those of the library at hand. *)
Record libm := {
  sin64 : Q -> Q;
  cos64 : Q -> Q;
  tan64 : Q -> Q;
  radians64 : Q -> Q
}.

Section Tables.
Variable m : libm.

(** A library function on a [float64]: a NaN off the finite values. *)
Definition apply64 (f : Q -> Q) (x : f64) : f64 :=
  match x with
  | Fin q => Fin (f q)
  | _ => NaN
  end.

Definition longitude (output_width x_out : nat) : f64 :=
  mul (sub (div (of_nat x_out) (of_nat output_width)) (Fin (1 # 2))) (Fin pi).

Definition latitude (output_height y_out : nat) : f64 :=
  mul (sub (div (of_nat y_out) (of_nat output_height)) (Fin (1 # 2)))
      (div (Fin pi) (Fin 2)).

Definition x_dir (lat lon : f64) : f64 :=
  mul (apply64 (cos64 m) lat) (apply64 (sin64 m) lon).

Definition y_dir (lat : f64) : f64 := apply64 (sin64 m) lat.

Definition z_dir (lat lon : f64) : f64 :=
  mul (apply64 (cos64 m) lat) (apply64 (cos64 m) lon).

(** The body of the two [prange] loops of [create_mapping_arrays]: the
    entries written at [[y_out, x_out]] of [x_coords], [y_coords] (both
    [float32]) and [valid_mask], all three initialised to zero. *)
Definition mapping_entry (output_width output_height : nat) (focal : f64)
    (w h : nat) (y_out x_out : nat) : Q * Q * bool :=
  let lon := longitude output_width x_out in
  let lat := latitude output_height y_out in
  if lt (Fin 0) (z_dir lat lon) then
    let x_flat :=
      add (div (mul (x_dir lat lon) focal) (z_dir lat lon))
          (div (of_nat w) (Fin 2)) in
    let y_flat :=
      add (div (mul (neg (y_dir lat)) focal) (z_dir lat lon))
          (div (of_nat h) (Fin 2)) in
    if (le (Fin 0) x_flat && lt x_flat (of_Z (Z.of_nat w - 1))
        && le (Fin 0) y_flat && lt y_flat (of_Z (Z.of_nat h - 1)))%bool
    then (to_float32 x_flat, to_float32 y_flat, true)
    else (0, 0, false)
  else (0, 0, false).

Definition tabulate {A : Type} (h w : nat) (f : nat -> nat -> A) : array2 A :=
  {| nrows := h; ncols := w;
     cells := map (fun y => map (fun x => f y x) (seq 0 w)) (seq 0 h) |}.

Definition create_mapping_arrays (output_width output_height : nat)
    (focal : f64) (w h : nat) : array2 Q * array2 Q * array2 bool :=
  let entry := mapping_entry output_width output_height focal w h in
  (tabulate output_height output_width (fun y x => (entry y x).1.1),
   tabulate output_height output_width (fun y x => (entry y x).1.2),
   tabulate output_height output_width (fun y x => (entry y x).2)).

(** Lines 31-32: [fov_rad = np.radians(field_of_view)] and the pinhole
    focal length [(w / 2) / np.tan(fov_rad / 2)]. A division by zero is
    no exception in NumPy: it gives an infinity (here the positive one: a
    tangent that is zero is taken as [+0]). *)
Definition focal_of (w : nat) (field_of_view : Q) : f64 :=
  div (div (of_nat w) (Fin 2))
      (apply64 (tan64 m) (div (Fin (radians64 m field_of_view)) (Fin 2))).

End Tables.

Section Remap.
Variable m : libm.
(** [cv2.remap] with [INTER_LINEAR] and a constant black border computes
    each destination pixel from the source image and the pair of source
    coordinates the two maps hold there; [sample] is that external
    per-pixel interpolation. It checks its arguments first and raises
    [cv2.error] on maps or images it does not take (empty maps, sizes too
    large): [accepts] is that check, on the rows and columns of the maps
    and of the source. *)
Variable sample : image -> Q -> Q -> pixel.
Variable accepts : nat -> nat -> nat -> nat -> bool.

Definition zip_rows {A B C : Type} (f : A -> B -> C)
    (a : list (list A)) (b : list (list B)) : list (list C) :=
  zip_with (zip_with f) a b.

Definition remap (img : image) (x_coords y_coords : array2 Q)
    : result image :=
  if accepts (nrows x_coords) (ncols x_coords) (nrows img) (ncols img) then
    Ok {| nrows := nrows x_coords; ncols := ncols x_coords;
          cells := zip_rows (sample img) (cells x_coords) (cells y_coords) |}
  else Raise Cv2Error.

Definition same_shape {A B : Type} (a : array2 A) (b : array2 B) : bool :=
  ((nrows a =? nrows b)%nat && (ncols a =? ncols b)%nat)%bool.

(** [result[~valid_mask] = 0]: a boolean mask of another shape is an
    [IndexError]. *)
Definition mask_invalid (result_img : image) (valid_mask : array2 bool)
    : result image :=
  if same_shape result_img valid_mask then
    Ok {| nrows := nrows result_img; ncols := ncols result_img;
          cells := zip_rows (fun p (v : bool) => if v then p else black)
                            (cells result_img) (cells valid_mask) |}
  else Raise IndexError.

Definition flat_to_vr180_spherical_optimized (img : image)
    (output_width : nat) (field_of_view : Q)
    (luts : option (array2 Q * array2 Q * array2 bool)) : result image :=
  let h := nrows img in
  let w := ncols img in
  let output_height := (output_width / 2)%nat in
  let '(x_coords, y_coords, valid_mask) :=
    match luts with
    | Some l => l
    | None =>
        let focal := focal_of m w field_of_view in
        create_mapping_arrays m output_width output_height focal w h
    end in
  remapped ← remap img x_coords y_coords;
  mask_invalid remapped valid_mask.

End Remap.

End Projection.

(* ===================================================================== *)
(** * [src/main.py] *)
(* ===================================================================== *)

Module Pipeline.

(** Python compares strings by code point; [sorted] is stable and its
    result is the ascending arrangement. *)
Definition str_le (a b : string) : Prop := String.leb a b = true.

#[global] Instance str_le_dec (a b : string) : Decision (str_le a b).
Proof. unfold str_le. apply _. Defined.

Definition sorted (l : list string) : list string := merge_sort str_le l.

Definition is_png (f : string) : bool := PyStr.endswith (PyStr.lower f) ".png".

Section Run.
(** The content of an image file. *)
Context {File : Type}.

Definition listdir (d : gmap string File) : list string :=
  (map_to_list d).*1.

(** [sorted([f for f in os.listdir(d) if f.lower().endswith(".png")])]. *)
Definition png_files (d : gmap string File) : list string :=
  sorted (filter (fun f => is_png f = true) (listdir d)).

(** The subprocess runs and model loads of one run. *)
Inductive job : Type :=
  | LoadMidas
  | ExtractAudio
  | EncodeBatch (i : nat)
  | HlsBatch (i : nat)
  | EncodeFinal
  | MuxAudio
  | HlsStream
  | InjectMetadata
  | HlsFinal.

(** What the external collaborators do in a run:
    - [process_batch i b] is the outcome of [process_batch(batch, midas,
      cfg)] on the [i]-th batch: the content of the [frames_combined]
      directory it returns, or the exception it raises;
    - [tool j] is the outcome of the external run [j];
    - [segments j] is the number of segments ffmpeg cuts in HLS run [j]. *)
Record world := {
  process_batch : nat -> VideoReader.batch -> result (gmap string File);
  tool : job -> result unit;
  segments : job -> nat
}.

Inductive event : Type :=
  | Ran (j : job)
  | Processed (i : nat).

Inductive log_line : Type :=
  | TotalFrames (total : Z) (n_batches : nat)
  | BatchAppended (sframe eframe : Z) (total_so_far : Z)
  | WarnHlsAppendFailed (i : nat) (e : py_exception)
  | Finished
  | FinalHlsGenerated
  | WarnFinalHlsFailed (e : py_exception).

(** The mutable state of a run: the [all_frames] directory with the
    counter [next_index], the two HLS directories, what was printed, and
    the external steps attempted so far. *)
Record run_state := {
  all_frames : gmap string File;
  next_index : Z;
  stream : Streaming.stream;
  final_hls : Streaming.stream;
  printed : list log_line;
  events : list event
}.

Definition M (A : Type) : Type := run_state -> result A * run_state.

Definition ret {A : Type} (a : A) : M A := fun s => (Ok a, s).

Definition raise {A : Type} (e : py_exception) : M A := fun s => (Raise e, s).

Definition bindM {A B : Type} (m : M A) (k : A -> M B) : M B := fun s =>
  match m s with
  | (Ok a, s') => k a s'
  | (Raise e, s') => (Raise e, s')
  end.

(** [try: body except Exception as e: handler e]. *)
Definition try_except {A : Type} (body : M A) (handler : py_exception -> M A)
    : M A := fun s =>
  match body s with
  | (Ok a, s') => (Ok a, s')
  | (Raise e, s') => handler e s'
  end.

Definition lift {A : Type} (r : result A) : M A := fun s => (r, s).

Definition modify (f : run_state -> run_state) : M unit :=
  fun s => (Ok tt, f s).

Definition get {A : Type} (f : run_state -> A) : M A := fun s => (Ok (f s), s).

End Run.

Arguments world : clear implicits.
Arguments run_state : clear implicits.
Arguments M : clear implicits.

(** The external steps whose failure the run guards with a [try]: the
    incremental encode and append of a batch, and the final HLS playlist. *)
Definition guarded (j : job) : bool :=
  match j with
  | EncodeBatch _ | HlsBatch _ | HlsFinal => true
  | _ => false
  end.

Declare Scope run_scope.
Delimit Scope run_scope with run.
Notation "'do' x <~ m ; k" := (bindM m (fun x => k))
  (at level 10, x name, m at level 100, k at level 200) : run_scope.
Notation "m ;; k" := (bindM m (fun _ => k))
  (at level 100, k at level 200, right associativity) : run_scope.

Section Main.
Context {File : Type}.
(** [cfg]: the batch size and the directory the frames are extracted to. *)
Variable BATCH_SIZE : Z.
Variable frames_dir : string.
Variable W : world File.

#[local] Open Scope run_scope.

Definition print (l : log_line) : M File unit :=
  modify (fun s => {| all_frames := all_frames s; next_index := next_index s;
                      stream := stream s; final_hls := final_hls s;
                      printed := printed s ++ [l]; events := events s |}).

Definition record (ev : event) : M File unit :=
  modify (fun s => {| all_frames := all_frames s; next_index := next_index s;
                      stream := stream s; final_hls := final_hls s;
                      printed := printed s; events := events s ++ [ev] |}).

(** [subprocess.run(cmd, check=True)] and the model load. *)
Definition run_tool (j : job) : M File unit :=
  record (Ran j) ;; lift (tool W j).

(** [frames_to_segment(frames_dir, out, ...)]: [ValueError] when the
    directory holds no PNG file, else the ffmpeg run. *)
Definition frames_to_segment (j : job) (dir : gmap string File)
    : M File unit :=
  match png_files dir with
  | [] => raise ValueError
  | _ => run_tool j
  end.

(** [add_batch_to_hls] on the incremental ([output/stream]) or on the
    final ([output/final_hls]) directory. *)
Definition hls_outcome (j : job) : result nat :=
  match tool W j with
  | Ok _ => Ok (segments W j)
  | Raise e => Raise e
  end.

Definition add_to_stream (j : job) : M File unit :=
  record (Ran j) ;;
  fun s =>
    let '(r, st) := Streaming.add_batch_to_hls (hls_outcome j) (stream s) in
    (r, {| all_frames := all_frames s; next_index := next_index s;
           stream := st; final_hls := final_hls s;
           printed := printed s; events := events s |}).

Definition add_to_final_hls (j : job) : M File unit :=
  record (Ran j) ;;
  fun s =>
    let '(r, st) := Streaming.add_batch_to_hls (hls_outcome j) (final_hls s) in
    (r, {| all_frames := all_frames s; next_index := next_index s;
           stream := stream s; final_hls := st;
           printed := printed s; events := events s |}).

(** Lines 105-109: [shutil.copy(src, dst)] then [next_index += 1]. *)
Definition copy_frame (frames_dir_batch : gmap string File) (f : string)
    : M File unit :=
  do content <~ lift (or_raise OSError (frames_dir_batch !! f));
  modify (fun s =>
    {| all_frames := <[PyStr.frame_name (next_index s) := content]>
                       (all_frames s);
       next_index := next_index s + 1;
       stream := stream s; final_hls := final_hls s;
       printed := printed s; events := events s |}).

Fixpoint for_each {A : Type} (body : A -> M File unit) (l : list A)
    : M File unit :=
  match l with
  | [] => ret tt
  | a :: l' => body a ;; for_each body l'
  end.

(** Lines 103-119: the body of [for i, batch in enumerate(batches)]. *)
Definition assemble_batch (ib : nat * VideoReader.batch) : M File unit :=
  let '(i, batch) := ib in
  record (Processed i) ;;
  do frames_dir_batch <~ lift (process_batch W i batch);
  let sframe := VideoReader.start_frame batch in
  let eframe := VideoReader.end_frame batch in
  let batch_files := png_files frames_dir_batch in
  for_each (copy_frame frames_dir_batch) batch_files ;;
  do n <~ get next_index;
  print (BatchAppended sframe eframe n) ;;
  try_except
    (frames_to_segment (EncodeBatch i) frames_dir_batch ;;
     add_to_stream (HlsBatch i))
    (fun e => print (WarnHlsAppendFailed i e)).

Definition enumerate {A : Type} (l : list A) : list (nat * A) :=
  zip (seq 0 (length l)) l.

(** Lines 96-119: the fresh [all_frames] directory and the loop. *)
Definition assemble (batches : list VideoReader.batch) : M File unit :=
  modify (fun s => {| all_frames := ∅; next_index := 0;
                      stream := stream s; final_hls := final_hls s;
                      printed := printed s; events := events s |}) ;;
  for_each assemble_batch (enumerate batches).

(** The number of frames each batch contributes: the PNG files of the
    directory its [process_batch] call returns. *)
Definition batch_frame_counts (batches : list VideoReader.batch) : list nat :=
  (fun ib : nat * VideoReader.batch =>
     match process_batch W ib.1 ib.2 with
     | Ok dir => length (png_files dir)
     | Raise _ => 0%nat
     end) <$> enumerate batches.

Definition total_frames (batches : list VideoReader.batch) : Z :=
  Z.of_nat (sum_list (batch_frame_counts batches)).

(** The exception, if any, that the guarded incremental append of batch [i]
    meets on the directory [dir] (lines 113-117). *)
Definition hls_append_error (i : nat) (dir : gmap string File)
    : option py_exception :=
  match png_files dir with
  | [] => Some ValueError
  | _ =>
      match tool W (EncodeBatch i) with
      | Raise e => Some e
      | Ok _ =>
          match tool W (HlsBatch i) with
          | Raise e => Some e
          | Ok _ => None
          end
      end
  end.

(** Lines 121-146. *)
Definition finalize (add_audio : bool) : M File unit :=
  do frames <~ get all_frames;
  frames_to_segment EncodeFinal frames ;;
  (if add_audio then run_tool MuxAudio else ret tt) ;;
  add_to_stream HlsStream ;;
  run_tool InjectMetadata ;;
  print Finished ;;
  try_except
    (add_to_final_hls HlsFinal ;; print FinalHlsGenerated)
    (fun e => print (WarnFinalHlsFailed e)).

(** [main(input_video, add_audio)] from line 81 on. The cleanup of lines
    63-80 sits in a [try] whose handler only prints a warning, so it
    never ends the run; the run starts from whatever directory state it
    leaves. *)
Definition main (input_video : VideoReader.capture File) (add_audio : bool)
    : M File unit :=
  let '(batches, fps, total_frames, w, h) :=
    (VideoReader.read_and_write_batches input_video frames_dir BATCH_SIZE).1 in
  print (TotalFrames total_frames (length batches)) ;;
  run_tool LoadMidas ;;
  (if add_audio then run_tool ExtractAudio else ret tt) ;;
  assemble batches ;;
  finalize add_audio.

End Main.

End Pipeline.

(* ===================================================================== *)
(** * The rest of the sources *)
(* ===================================================================== *)

(** Outside the conversion run one more exception is met:
    [cv2.imread] answers [None] for a file it cannot read, and the
    attribute access [None.shape] that follows raises [AttributeError]. *)
Inductive py_error : Type :=
  | Std (e : py_exception)
  | AttributeError.

Inductive outcome (A : Type) : Type :=
  | Return (a : A)
  | Throw (e : py_error).
Arguments Return {A} a.
Arguments Throw {A} e.

#[global] Instance outcome_ret : MRet outcome := fun A a => Return a.

#[global] Instance outcome_bind : MBind outcome := fun A B k r =>
  match r with
  | Return a => k a
  | Throw e => Throw e
  end.

(** A [for] loop over [l] whose body may raise: the state reached, and the
    exception that ended the loop early, if any. *)
Fixpoint run_loop {A S : Type} (body : S -> A -> outcome S) (l : list A)
    (s : S) : option py_error * S :=
  match l with
  | [] => (None, s)
  | a :: l' =>
      match body s a with
      | Return s' => run_loop body l' s'
      | Throw e => (Some e, s)
      end
  end.

(* ===================================================================== *)
(** * [src/stitch.py] *)
(* ===================================================================== *)

Module Stitch.
Import Image.

(** A folder of image files: file name to decoded image. A folder that
    does not exist is [None]. *)
Abbreviation folder := (gmap string image) (only parsing).

(** [l.shape != r.shape] on two colour images. *)
Definition shape_eqb (l r : image) : bool :=
  ((nrows l =? nrows r)%nat && (ncols l =? ncols r)%nat)%bool.

(** [np.hstack((l, r))] and [np.vstack((l, r))] on images of one shape. *)
Definition hstack (l r : image) : image :=
  {| nrows := nrows l; ncols := ncols l + ncols r;
     cells := zip_with app (cells l) (cells r) |}.

Definition vstack (l r : image) : image :=
  {| nrows := nrows l + nrows r; ncols := ncols l;
     cells := cells l ++ cells r |}.

(** Lines 6-13 of [stack_lr]: [l] and [r] are the answers of [cv2.imread]. *)
Definition stacked (l r : option image) (side_by_side : bool)
    : outcome image :=
  match l, r with
  | Some l, Some r =>
      if shape_eqb l r
      then Return (if side_by_side then hstack l r else vstack l r)
      else Throw (Std ValueError)
  | _, _ => Throw AttributeError
  end.

(** [stack_lr(left_path, right_path, out_path, side_by_side)], the three
    paths being files [lf], [rf], [out_name] of three folders. *)
Definition stack_lr (left_dir right_dir : folder) (side_by_side : bool)
    (out_dir : folder) (lf rf out_name : string) : outcome folder :=
  out ← stacked (left_dir !! lf) (right_dir !! rf) side_by_side;
  Return (<[out_name := out]> out_dir).

(** [sorted([f for f in os.listdir(d) if f.endswith(".png")])]: the test is
    case-sensitive here. *)
Definition png_names (d : folder) : list string :=
  Pipeline.sorted (filter (fun f => PyStr.endswith f ".png" = true)
                          (Pipeline.listdir d)).

(** [batch_stack]: the output folder is created if missing; listing a
    folder that does not exist raises [FileNotFoundError], an [OSError]. The
    result is the exception that ended the call, if any, and the output
    folder it leaves. *)
Definition batch_stack (left_dir right_dir out_dir : option folder)
    (side_by_side : bool) : option py_error * folder :=
  let out := default ∅ out_dir in
  match left_dir, right_dir with
  | Some l, Some r =>
      let left_files := png_names l in
      let right_files := png_names r in
      run_loop (fun out lr => stack_lr l r side_by_side out lr.1 lr.2 lr.1)
               (zip left_files right_files) out
  | _, _ => (Some (Std OSError), out)
  end.

End Stitch.

(* ===================================================================== *)
(** * [src/main.py], [process_batch]: the renumbering of step 5 *)
(* ===================================================================== *)

Module ProcessBatch.
Import Pipeline.

Section Renumber.
Context {File : Type}.

(** The body of [for i, f in enumerate(stereo_files)]:
    [shutil.copy(src, dst)] with [dst] named [frame_{i:06d}.png]. *)
Definition copy_numbered (stereo_out : gmap string File)
    (frames_combined : gmap string File) (i_f : nat * string)
    : result (gmap string File) :=
  content ← or_raise OSError (stereo_out !! i_f.2);
  Ok (<[PyStr.frame_name (Z.of_nat i_f.1) := content]> frames_combined).

(** Lines 52-56 of [src/main.py] (and lines 123-129 of
    [src/anaglyph_processor.py], the same loop over the anaglyph folder):
    [frames_combined] is what the folder held when [os.makedirs(...,
    exist_ok=True)] found or made it. *)
Definition renumber (stereo_out frames_combined : gmap string File)
    : result (gmap string File) :=
  fold_result (copy_numbered stereo_out)
              (enumerate (png_files stereo_out)) frames_combined.

End Renumber.

End ProcessBatch.

(* ===================================================================== *)
(** * [src/projection.py], [batch_project] *)
(* ===================================================================== *)

Module BatchProject.
Import Image Projection.

(** [f.lower().endswith((".png", ".jpg", ".jpeg"))]. *)
Definition is_image_file (f : string) : bool :=
  let l := PyStr.lower f in
  (PyStr.endswith l ".png" || PyStr.endswith l ".jpg"
   || PyStr.endswith l ".jpeg")%bool.

(** [cv2.flip(img, 0)]: the rows in reverse order. *)
Definition flip0 (img : image) : image :=
  {| nrows := nrows img; ncols := ncols img; cells := reverse (cells img) |}.

Section Batch.
Variable m : libm.
Variable sample : image -> Q -> Q -> pixel.
Variable accepts : nat -> nat -> nat -> nat -> bool.

(** The body of [for f in files] (lines 50-53). *)
Definition project_file (folder_in : gmap string image)
    (luts : array2 Q * array2 Q * array2 bool) (output_width : nat)
    (field_of_view : Q) (out : gmap string image) (f : string)
    : outcome (gmap string image) :=
  match folder_in !! f with
  | None => Throw AttributeError
  | Some img =>
      match flat_to_vr180_spherical_optimized m sample accepts img
              output_width field_of_view (Some luts) with
      | Ok vr => Return (<[f := flip0 vr]> out)
      | Raise e => Throw (Std e)
      end
  end.

(** [batch_project(folder_in, folder_out, output_width, field_of_view)]:
    the exception that ended the call, if any, and the output folder. *)
Definition batch_project (folder_in folder_out : option (gmap string image))
    (output_width : nat) (field_of_view : Q)
    : option py_error * gmap string image :=
  let out := default ∅ folder_out in
  match folder_in with
  | None => (Some (Std OSError), out)
  | Some d =>
      let files :=
        Pipeline.sorted (filter (fun f => is_image_file f = true)
                                (Pipeline.listdir d)) in
      match files with
      | [] => (None, out)
      | f0 :: _ =>
          match d !! f0 with
          | None => (Some AttributeError, out)
          | Some first =>
              let h := nrows first in
              let w := ncols first in
              let focal := focal_of m w field_of_view in
              let luts :=
                create_mapping_arrays m output_width (output_width / 2)
                                      focal w h in
              run_loop (project_file d luts output_width field_of_view)
                       files out
          end
      end
  end.

End Batch.

End BatchProject.

(* ===================================================================== *)
(** * [src/utils.py] *)
(* ===================================================================== *)

Module Utils.

(** The pattern of [substitute_env_vars] reads: a dollar sign, an opening
    brace, group 1 (one or more characters other than a colon and a closing
    brace), an optional colon, group 2 (any number of characters other than
    a closing brace), a closing brace. These are its two character
    classes. *)
Definition is_name_char (c : ascii) : bool :=
  (negb (Ascii.eqb c ":") && negb (Ascii.eqb c "}"))%bool.

Definition is_default_char (c : ascii) : bool := negb (Ascii.eqb c "}").

(** The longest prefix of [s] whose characters satisfy [p], and the rest:
    what a greedy [[...]*] takes. *)
Fixpoint span (p : ascii -> bool) (s : string) : string * string :=
  match s with
  | EmptyString => (EmptyString, EmptyString)
  | String c s' =>
      if p c then let '(a, b) := span p s' in (String c a, b)
      else (EmptyString, s)
  end.

(** A match of the pattern at the start of [s]: group 1, group 2 and what
    follows the match. The greedy reading is the match the engine returns:
    the name stops at the first colon or closing brace, the optional colon
    is taken when it is there, the default runs to the first closing brace;
    when that reading finds no closing brace no other reading does. *)
Definition match_reference (s : string) : option (string * string * string) :=
  match s with
  | String "$" (String "{" s1) =>
      let '(name, s2) := span is_name_char s1 in
      match name with
      | EmptyString => None
      | String _ _ =>
          let s3 := match s2 with
                    | String ":" t => t
                    | _ => s2
                    end in
          let '(dflt, s4) := span is_default_char s3 in
          match s4 with
          | String "}" rest => Some (name, dflt, rest)
          | _ => None
          end
      end
  | _ => None
  end.

(** [os.getenv(var_name, default_value)]. *)
Definition getenv (env : gmap string string) (var_name default_value : string)
    : string :=
  default default_value (env !! var_name).

(** [re.sub(pattern, replace_var, text)]: the text is scanned from the left;
    a match is replaced by the value of [replace_var] and the scan goes on
    after it; a character where no match starts is copied. [fuel] bounds the
    number of steps. *)
Fixpoint sub_from (fuel : nat) (env : gmap string string) (s : string)
    : string :=
  match fuel with
  | O => s
  | S fuel' =>
      match s with
      | EmptyString => EmptyString
      | String c s' =>
          match match_reference s with
          | Some (var_name, default_value, rest) =>
              getenv env var_name default_value +:+ sub_from fuel' env rest
          | None => String c (sub_from fuel' env s')
          end
      end
  end.

(** [substitute_env_vars(text)] on a string; every step consumes at least
    one character, so the length of the text is fuel enough. *)
Definition substitute_env_vars (env : gmap string string) (text : string)
    : string :=
  sub_from (String.length text) env text.

Section Config.
(** The keys of the mappings and the values that are not strings, lists or
    mappings (numbers, booleans, [None], dates). *)
Context {Key Scalar : Type}.

#[local] Set Warnings "-register-all".

(** What [yaml.safe_load] returns. *)
Inductive yaml : Type :=
  | YStr (s : string)
  | YScalar (v : Scalar)
  | YList (items : list yaml)
  | YDict (entries : list (Key * yaml)).

(** [process_config] of [load_config]. *)
Fixpoint process_config (env : gmap string string) (obj : yaml) : yaml :=
  match obj with
  | YDict entries =>
      YDict (map (fun kv => let '(k, v) := kv in (k, process_config env v))
                 entries)
  | YList items => YList (map (process_config env) items)
  | YStr s => YStr (substitute_env_vars env s)
  | YScalar v => YScalar v
  end.

End Config.

Arguments yaml : clear implicits.

End Utils.

(* ===================================================================== *)
(** * [main.py]: the byte ranges of the file server *)
(* ===================================================================== *)

Module Server.

(** The content of a file, and [None] for a path that cannot be opened. *)
Abbreviation bytes := (list Byte.byte) (only parsing).

(** [f.read(n)] on a binary file of content [data] read at offset [pos]:
    [n] bytes, or what is left of the file when that is less; all that is
    left for [-1]; a [ValueError] below [-1]. An offset past the end reads
    nothing. *)
Definition read (data : bytes) (pos : nat) (n : Z) : result bytes :=
  if n <? -1 then Raise ValueError
  else if n =? -1 then Ok (drop pos data)
  else Ok (take (Z.to_nat n) (drop pos data)).

(** The [while remaining > 0] loop of [iter_file_range] with the file at
    offset [pos]: the chunks it yields, in order, and the exception that
    ends the generator, if one does. Every round that goes on takes at
    least one byte off [remaining], so [remaining] rounds are enough. *)
Fixpoint range_loop (fuel : nat) (data : bytes) (chunk_size : Z) (pos : nat)
    (remaining : Z) : list bytes * option py_exception :=
  match fuel with
  | O => ([], None)
  | S fuel' =>
      if 0 <? remaining then
        let read_size := Z.min chunk_size remaining in
        match read data pos read_size with
        | Raise e => ([], Some e)
        | Ok [] => ([], None)
        | Ok chunk =>
            let rest :=
              range_loop fuel' data chunk_size (pos + length chunk)
                         (remaining - Z.of_nat (length chunk)) in
            (chunk :: rest.1, rest.2)
        end
      else ([], None)
  end.

(** [iter_file_range(path, start, end, chunk_size)], lines 202-230:
    [open] raises for a missing file and [seek] for a negative offset (both
    [OSError]); the [except] clause logs and raises again. *)
Definition iter_file_range (file : option bytes) (start end_ : Z)
    (chunk_size : Z) : list bytes * option py_exception :=
  match file with
  | None => ([], Some OSError)
  | Some data =>
      if start <? 0 then ([], Some OSError)
      else
        let remaining := end_ - start + 1 in
        range_loop (Z.to_nat remaining) data chunk_size (Z.to_nat start)
                   remaining
  end.

End Server.

(* ===================================================================== *)
(** * Invariants, sample inputs and tactics used by the statements *)
(* ===================================================================== *)

(** ** Frame extraction *)

Module VideoReaderDefs.
Import VideoReader.

Section Batching.
Context {Frame : Type}.
Variable dir : string.
Variable B : Z.

(** The loop invariant of [read_and_write_batches] after [n] frames. *)
Record inv (st : loop_state Frame) (n : Z) : Prop := {
  inv_n : 0 <= n;
  inv_batches : batches st = full_batch dir B <$> seqZ 0 (n / B);
  inv_frame_idx : frame_idx st = n;
  inv_batch_idx : batch_idx st = n / B;
  inv_current : current_batch st = frame_path dir <$> seqZ (B * (n / B)) (n mod B)
}.

End Batching.

(** A source of seven frames, read three at a time. *)
Definition seven_frames : capture unit :=
  {| prop_fps := 30; prop_frame_count := 7;
     prop_frame_width := 4; prop_frame_height := 2;
     decoded := repeat tt 7 |}.

End VideoReaderDefs.

(** ** Segment numbering *)

Module StreamingDefs.
Import Streaming.

(** The number the scan reads off a file name, if it reads one. *)
Definition scanned_number (name : string) : option Z :=
  match pattern_match name with
  | Some g => Z.of_N <$> PyStr.parse_digits g
  | None => None
  end.

(** The check that the scan reads [n], [n+1], ... back from the names the
    template gives them. *)
Definition reads_back (n : Z) : bool :=
  match scanned_number (segment_name n) with
  | Some m => m =? n
  | None => false
  end.

Fixpoint all_read_back (fuel : nat) (n : Z) : bool :=
  match fuel with
  | O => true
  | S fuel' => reads_back n && all_read_back fuel' (n + 1)
  end.

(** Names of ASCII characters, the names on which the scan is modelled. *)
Definition is_ascii_char (c : ascii) : bool := (nat_of_ascii c <? 128)%nat.

Definition ascii_name (name : string) : Prop :=
  forallb is_ascii_char (list_ascii_of_string name) = true.

Definition ascii_names (names : gset string) : Prop :=
  forall name, name ∈ names -> ascii_name name.

(** A long-running stream: segments 99999 and 100000 are on disk. *)
Definition long_stream : gset string :=
  {[ segment_name 99999; segment_name 100000 ]}.

End StreamingDefs.

(** ** Stereo synthesis *)

Module StereoDefs.
Import Image Stereo.

(** The bound under which [max_shift] and every shift derived from it stay
    exactly convertible to [int32]. *)
Definition max_shift_ok (max_shift : Z) : Prop := 0 <= max_shift <= 2 ^ 24.

(** [img] is an [H x W] array whose cell [(y, c)] holds [f y c]. *)
Record img_has {A : Type} (img : array2 A) (H W : nat) (f : nat -> nat -> A)
    : Prop := {
  has_nrows : nrows img = H;
  has_ncols : ncols img = W;
  has_len : length (cells img) = H;
  has_rows : forall y row, cells img !! y = Some row -> length row = W;
  has_at : forall y c, (y < H)%nat -> (c < W)%nat -> at2 img y c = Some (f y c)
}.

Section ScatterLoops.
Variable frame : image.
Variable W : nat.
Variable sh : nat -> nat -> Q.

(** The integer shift read at [(y, x)] from a shift array of content [sh],
    and the columns written from column [x] of row [y]. *)
Definition dx (y x : nat) : Z := Float32.to_int32 (sh y x).

Definition destL (y x : nat) : Z := dest_left W (dx y) x.

Definition destR (y x : nat) : Z := dest_right (dx y) x.

(** The content of an eye image when the rows before [y] are done and row
    [y] is done up to column [k]. *)
Definition stage (dest : nat -> nat -> Z) (y k : nat) (y' c : nat) : pixel :=
  if decide (y' < y)%nat then scattered frame (dest y') W y' c
  else if decide (y' = y) then scattered frame (dest y) k y' c
  else black.

End ScatterLoops.

(** The content of an eye image before the loops. *)
Definition stage0 : nat -> nat -> pixel := fun _ _ => black.

(** The shape of the shift array: that of the depth map, or of the frame
    when the depth map is absent. *)
Definition shift_rows (H : nat) (depth : option (array2 uint8)) : nat :=
  match depth with Some d => nrows d | None => H end.

Definition shift_cols (W : nat) (depth : option (array2 uint8)) : nat :=
  match depth with Some d => ncols d | None => W end.

Definition depth_wf (depth : option (array2 uint8)) : Prop :=
  match depth with Some d => wf d = true | None => True end.

(** The depth map has the shape of the frame (or is absent). *)
Definition depth_matches (frame : image) (depth : option (array2 uint8)) : Prop :=
  match depth with
  | Some d => wf d = true /\ nrows d = nrows frame /\ ncols d = ncols frame
  | None => True
  end.

(** A row of four distinct pixels, and uniform depth maps. *)
Definition four_pixels : image :=
  {| nrows := 1; ncols := 4;
     cells := [[(Byte.x01, Byte.x02, Byte.x03); (Byte.x04, Byte.x05, Byte.x06);
                (Byte.x07, Byte.x08, Byte.x09); (Byte.x0a, Byte.x0b, Byte.x0c)]] |}.

Definition two_pixels : image :=
  {| nrows := 1; ncols := 2;
     cells := [[(Byte.x01, Byte.x02, Byte.x03); (Byte.x04, Byte.x05, Byte.x06)]] |}.

Definition uniform_depth (h w : nat) (v : uint8) : option (array2 uint8) :=
  Some (full h w v).

(** An inpainting routine for the examples: it returns its input. *)
Definition keep_image (img : image) (mask : array2 uint8) (radius : Z) : image :=
  img.

Definition one_pixel : image :=
  {| nrows := 1; ncols := 1; cells := [[(Byte.x01, Byte.x02, Byte.x03)]] |}.

(** A row whose second pixel is pure black. *)
Definition black_second_pixel : image :=
  {| nrows := 1; ncols := 2;
     cells := [[(Byte.x01, Byte.x02, Byte.x03); black]] |}.

(** What the synthesizer can count on from [cv2.inpaint], called on an
    image and a mask of its shape: a pixel the mask does not mark (mask
    value 0) comes back as it is; and when the mask marks every pixel there
    is nothing to fill from, and the image comes back as it is. What a
    marked pixel becomes otherwise is the routine's choice. *)
Record inpaint_contract (inpaint : image -> array2 uint8 -> Z -> image)
    : Prop := {
  keeps_unmarked : forall img mask radius y c,
    nrows mask = nrows img -> ncols mask = ncols img ->
    at2 mask y c = Some Byte.x00 ->
    at2 (inpaint img mask radius) y c = at2 img y c;
  nothing_to_fill_from : forall img mask radius,
    nrows mask = nrows img -> ncols mask = ncols img ->
    (forall y c v, at2 mask y c = Some v -> v <> Byte.x00) ->
    inpaint img mask radius = img
}.

(** Every pixel of [img] is pure black. *)
Definition all_black (img : image) : Prop :=
  forall y c p, at2 img y c = Some p -> p = black.

(** Every cell of the mask is marked. *)
Definition all_marked (mask : array2 uint8) : bool :=
  forallb (forallb (fun v => negb (Byte.eqb v Byte.x00))) (cells mask).

(** The pixels the mask leaves unmarked, in raster order. *)
Definition unmarked_pixels (img : image) (mask : array2 uint8)
    : list pixel :=
  concat (zip_with
            (fun row mask_row =>
               omap (fun pv : pixel * uint8 =>
                       if Byte.eqb pv.2 Byte.x00 then Some pv.1 else None)
                    (zip row mask_row))
            (cells img) (cells mask)).

(** A hole filling for the examples: every marked pixel is painted with the
    first unmarked pixel of the image, and an image whose pixels are all
    marked is returned as it is. *)
Definition fill_holes (img : image) (mask : array2 uint8) (radius : Z)
    : image :=
  if all_marked mask then img
  else
    let p := default black (head (unmarked_pixels img mask)) in
    {| nrows := nrows img; ncols := ncols img;
       cells := zip_with
                  (zip_with (fun px v =>
                               if Byte.eqb v Byte.x00 then px else p))
                  (cells img) (cells mask) |}.

(** A frame that is black throughout. *)
Definition black_frame : image := full 2 2 black.

End StereoDefs.

(** ** Anaglyph *)

Module AnaglyphDefs.
Import Image.

(** A pure red left pixel and a black right pixel, in OpenCV's B, G, R
    order, and the pure blue pixel the code makes of them. *)
Definition red_left : image :=
  {| nrows := 1; ncols := 1; cells := [[(Byte.x00, Byte.x00, Byte.xff)]] |}.

Definition black_right : image :=
  {| nrows := 1; ncols := 1; cells := [[black]] |}.

Definition blue_out : image :=
  {| nrows := 1; ncols := 1; cells := [[(Byte.xff, Byte.x00, Byte.x00)]] |}.

End AnaglyphDefs.

(** ** Projection *)

Module ProjectionDefs.
Import Image Float64 Projection.

#[local] Open Scope Q_scope.


Definition is_finite (x : f64) : bool :=
  match x with
  | Fin _ => true
  | _ => false
  end.



(** A 4 x 4 source and the interpolation that ignores the coordinates. *)
Definition grey_image : image := full 4 4 (Byte.x80, Byte.x80, Byte.x80).

Definition sample_first (img : image) (x y : Q) : pixel :=
  default black (at2 img 0 0).

(** A remapping that takes every size. *)
Definition accept_all (map_rows map_cols rows cols : nat) : bool := true.

(** The finite [float64] nearest to [q]. *)
Definition to_double (q : Q) : Q :=
  match Float64.round q with
  | Fin r => r
  | _ => 0
  end.

Definition sin_poly (x : Q) : Q :=
  x - x ^ 3 / 6 + x ^ 5 / 120 - x ^ 7 / 5040 + x ^ 9 / 362880.

Definition cos_poly (x : Q) : Q :=
  1 - x ^ 2 / 2 + x ^ 4 / 24 - x ^ 6 / 720 + x ^ 8 / 40320.

(** A library for the examples. It has the values of the C library at the
    arguments the statements of the examples depend on: [sin 0 = 0],
    [cos 0 = 1], [tan 0 = 0], and the tangent of the [float64] nearest to
    [pi / 2] is [16331239353195370]. Elsewhere the sine and the cosine are
    their Taylor polynomials of degree 9 and 8, rounded. The conversion to
    radians is NumPy's: the product by the [float64] quotient
    [np.pi / 180], for which 180 degrees are [np.pi]. *)
Definition example_libm : libm :=
  {| sin64 := fun x => to_double (sin_poly x);
     cos64 := fun x => to_double (cos_poly x);
     tan64 := fun x =>
       if Qeq_bool x (pi / 2) then 16331239353195370
       else to_double (sin_poly x / cos_poly x);
     radians64 := fun d => to_double (d * to_double (pi / 180)) |}.

End ProjectionDefs.

(** ** The run *)

Module PipelineDefs.
Import Pipeline.

(** Closes [l ⊆ (l ++ a) ++ b ...]. *)
Ltac grown := repeat apply list_subseteq_app_l; reflexivity.

(** Membership in a log or trace that was extended a few times. *)
Ltac logged :=
  repeat rewrite elem_of_app; repeat rewrite elem_of_cons;
  repeat rewrite list_elem_of_singleton; tauto.

Section Assembly.
Context {File : Type}.
Variable W : world File.

(** The counter, and the names filled so far. *)
Record frames_inv (s : run_state File) (n : Z) : Prop := {
  inv_next : next_index s = n;
  inv_nonneg : 0 <= n;
  inv_dom : dom (all_frames s)
            = list_to_set (PyStr.frame_name <$> seqZ 0 n)
}.

(** A step that leaves the frame directory and its counter alone. *)
Definition keeps_frames (m : M File unit) : Prop :=
  forall s, all_frames (m s).2 = all_frames s
            /\ next_index (m s).2 = next_index s.

(** The guarded incremental append of lines 113-119. *)
Definition hls_block (i : nat) (d : gmap string File) : M File unit :=
  try_except
    (bindM (frames_to_segment W (EncodeBatch i) d)
           (fun _ => add_to_stream W (HlsBatch i)))
    (fun e => print (WarnHlsAppendFailed i e)).

(** The trace and the log only grow. *)
Definition grows (s s' : run_state File) : Prop :=
  events s ⊆ events s' /\ printed s ⊆ printed s'.

Definition keeps_log (m : M File unit) : Prop :=
  forall s, events (m s).2 = events s /\ printed (m s).2 = printed s.

(** Every tool that [main] runs outside a [try] succeeds. *)
Definition unguarded_succeed : Prop :=
  forall j, guarded j = false -> tool W j = Ok tt.

End Assembly.

(** A run of the three batches of [seven_frames] in which every batch is
    processed and every tool succeeds; images are numbers here. *)
Definition numbered_dir (contents : list nat) : gmap string nat :=
  list_to_map (zip (PyStr.frame_name <$> seqZ 0 (Z.of_nat (length contents)))
                   contents).

Definition quiet_world : world nat :=
  {| process_batch := fun i b =>
       Ok (numbered_dir (seq (10 * i) (length (VideoReader.frame_paths b))));
     tool := fun _ => Ok tt;
     segments := fun _ => 1%nat |}.

Definition fresh_state : run_state nat :=
  {| all_frames := ∅; next_index := 0;
     stream := {| Streaming.stream_dir := None; Streaming.playlist := [] |};
     final_hls := {| Streaming.stream_dir := None; Streaming.playlist := [] |};
     printed := []; events := [] |}.

Definition seven_in_three : list VideoReader.batch :=
  VideoReader.batches_of VideoReaderDefs.seven_frames "frames" 3.

(** A source of seven numbered images. *)
Definition seven_images : VideoReader.capture nat :=
  {| VideoReader.prop_fps := 30; VideoReader.prop_frame_count := 7;
     VideoReader.prop_frame_width := 4; VideoReader.prop_frame_height := 2;
     VideoReader.decoded := seq 100 7 |}.

(** A run in which the incremental append of batch 1 and the final HLS
    playlist both fail. *)
Definition failing_streams : world nat :=
  {| process_batch := process_batch quiet_world;
     tool := fun j =>
       match j with
       | HlsBatch 1 => Raise CalledProcessError
       | HlsFinal => Raise OSError
       | _ => Ok tt
       end;
     segments := fun _ => 1%nat |}.

(** A source that cannot be opened: no property, no frame. *)
Definition unreadable : VideoReader.capture nat :=
  {| VideoReader.prop_fps := 0; VideoReader.prop_frame_count := 0;
     VideoReader.prop_frame_width := 0; VideoReader.prop_frame_height := 0;
     VideoReader.decoded := [] |}.

End PipelineDefs.

(* ===================================================================== *)
(** * Invariants and sample inputs of the further properties *)
(* ===================================================================== *)

Module VideoReaderMoreDefs.
Import VideoReader.

Section Store.
Context {Frame : Type}.
Variable dir : string.

(** What the reading loop has done after the frames [frames], for any batch
    size: every path so far is in a closed batch or in the open one, in
    order; every frame is in the store under its own path; no closed batch is
    empty. *)
Record store_inv (frames : list Frame) (st : loop_state Frame) : Prop := {
  si_idx : frame_idx st = Z.of_nat (length frames);
  si_paths : concat (frame_paths <$> batches st) ++ current_batch st
             = frame_path dir <$> seqZ 0 (Z.of_nat (length frames));
  si_store : forall i : nat,
      frame_store st !! frame_path dir (Z.of_nat i) = frames !! i;
  si_dom : forall p, is_Some (frame_store st !! p) ->
      exists i : nat, (i < length frames)%nat /\ p = frame_path dir (Z.of_nat i);
  si_nonempty : Forall (fun b => frame_paths b <> []) (batches st)
}.

(** The loop state after [n] frames when the batch size is at most 1. *)
Record single_inv (st : loop_state Frame) (n : Z) : Prop := {
  sg_n : 0 <= n;
  sg_batches : batches st
               = (fun i => (i, i, i, [frame_path dir i])) <$> seqZ 0 n;
  sg_idx : frame_idx st = n;
  sg_batch_idx : batch_idx st = n;
  sg_current : current_batch st = []
}.

End Store.

(** Five frames, named by their content. *)
Definition five_frames : capture nat :=
  {| prop_fps := 25; prop_frame_count := 5;
     prop_frame_width := 4; prop_frame_height := 2;
     decoded := [10; 11; 12; 13; 14]%nat |}.

End VideoReaderMoreDefs.

Module StreamingMoreDefs.
Import Streaming.

(** The playlist lists nothing beyond what the scan of the directory has
    seen: its last number is below the start number. *)
Definition in_step (start : Z) (pl : list Z) : Prop :=
  forall last_listed, last pl = Some last_listed -> last_listed < start.

(** The numbers successive appends of [ks] segments write when the first
    is given the start number [start] and [listed] segments are in the
    playlist: each append begins at its start number plus the number of
    segments listed, and the next start number is one past its last
    segment. *)
Fixpoint skipping (start listed : Z) (ks : list nat) : list Z :=
  match ks with
  | [] => []
  | k :: ks' =>
      seqZ (start + listed) (Z.of_nat k)
      ++ skipping (start + listed + Z.of_nat k) (listed + Z.of_nat k) ks'
  end.

(** The start number after these appends. *)
Fixpoint skipping_end (start listed : Z) (ks : list nat) : Z :=
  match ks with
  | [] => start
  | k :: ks' =>
      skipping_end (start + listed + Z.of_nat k) (listed + Z.of_nat k) ks'
  end.

End StreamingMoreDefs.

Module StitchDefs.
Import Image Stitch.

(** The frame written for the pair of files [lf], [rf], if both are there
    and of one shape. *)
Definition stacked_pair (left_dir right_dir : folder) (side_by_side : bool)
    (lf rf : string) : option image :=
  match stacked (left_dir !! lf) (right_dir !! rf) side_by_side with
  | Return out => Some out
  | Throw _ => None
  end.

Definition red_px : pixel := (Byte.x00, Byte.x00, Byte.xff).
Definition green_px : pixel := (Byte.x00, Byte.xff, Byte.x00).

Definition left_img : image :=
  {| nrows := 1; ncols := 2; cells := [[red_px; red_px]] |}.

Definition right_img : image :=
  {| nrows := 1; ncols := 2; cells := [[green_px; green_px]] |}.

(** Two left frames, and a right folder that lost its first frame. *)
Definition left_folder : folder :=
  {[ "frame_000000.png" := left_img; "frame_000001.png" := left_img ]}.

Definition right_folder : folder :=
  {[ "frame_000001.png" := right_img ]}.

End StitchDefs.

Module RunMoreDefs.
Import Pipeline.

Section Trace.
Context {File : Type}.

(** Every run of the step [m] takes a state to one related to it by [R]. *)
Definition steps {A : Type} (R : run_state File -> run_state File -> Prop)
    (m : M File A) : Prop :=
  forall s, R s (m s).2.

(** The trace of [s'] is the trace of [s] followed by events that all
    satisfy [P]. *)
Definition adds_events (P : event -> Prop) (s s' : run_state File) : Prop :=
  exists tr, events s' = events s ++ tr /\ Forall P tr.

(** The segment counts of the incremental appends, batch by batch. *)
Definition batch_segments (W : world File)
    (batches : list VideoReader.batch) : list nat :=
  (fun ib : nat * VideoReader.batch => segments W (HlsBatch ib.1))
    <$> enumerate batches.

End Trace.

(** Neither of the two audio tools. *)
Definition not_audio (ev : event) : Prop :=
  ev <> Ran ExtractAudio /\ ev <> Ran MuxAudio.

(** An event of the loop iterations before batch [i]. *)
Definition before_batch (i : nat) (ev : event) : Prop :=
  match ev with
  | Processed j | Ran (EncodeBatch j) | Ran (HlsBatch j) => (j < i)%nat
  | _ => False
  end.

(** A run whose second batch cannot be processed. *)
Definition second_batch_fails : world nat :=
  {| process_batch := fun i b =>
       match i with
       | 1%nat => Raise IndexError
       | _ => process_batch PipelineDefs.quiet_world i b
       end;
     tool := fun _ => Ok tt;
     segments := fun _ => 1%nat |}.

(** A run in which every tool succeeds and every HLS run cuts two
    segments. *)
Definition two_segment_world : world nat :=
  {| process_batch := process_batch PipelineDefs.quiet_world;
     tool := fun _ => Ok tt;
     segments := fun _ => 2%nat |}.

End RunMoreDefs.

Module ProjectionMoreDefs.
Import Image Float64 Projection.

(** What the projection puts at [(y, x)] of the output when the tables were
    computed for a [w x h] source with focal length [focal]. *)
Definition projected_px (m : libm) (sample : image -> Q -> Q -> pixel)
    (img : image) (output_width output_height : nat) (focal : f64)
    (w h : nat) (y x : nat) : pixel :=
  let e := mapping_entry m output_width output_height focal w h y x in
  if e.2 then sample img e.1.1 e.1.2 else black.

(** The files [batch_project] works on, in its order. *)
Definition image_files (d : gmap string image) : list string :=
  Pipeline.sorted (filter (fun f => BatchProject.is_image_file f = true)
                          (Pipeline.listdir d)).

(** [cv2.remap] takes the tables of an [output_width] wide output for every
    image file of the folder. *)
Definition accepts_folder (accepts : nat -> nat -> nat -> nat -> bool)
    (output_width : nat) (d : gmap string image) : Prop :=
  forall f img, BatchProject.is_image_file f = true -> d !! f = Some img ->
    accepts (output_width / 2)%nat output_width (nrows img) (ncols img)
    = true.

(** A folder of two frames and a file of another extension. *)
Definition two_frames : gmap string image :=
  {[ "a.png" := ProjectionDefs.grey_image;
     "b.JPG" := full 4 4 (Byte.xff, Byte.xff, Byte.xff);
     "notes.txt" := full 1 1 black ]}.

End ProjectionMoreDefs.

Module StereoMoreDefs.
Import Image Stereo.

(** Both eye images of [r] hold the frame, pixel for pixel. *)
Definition copies_frame (frame : image) (r : result (image * image)) : Prop :=
  exists left_eye right_eye,
    r = Ok (left_eye, right_eye)
    /\ forall y c, (y < nrows frame)%nat -> (c < ncols frame)%nat ->
         at2 left_eye y c = at2 frame y c
         /\ at2 right_eye y c = at2 frame y c.

(** Both eye images of [r] hold the pixels of the frame that are not pure
    black, each at its own place. *)
Definition keeps_frame (frame : image) (r : result (image * image)) : Prop :=
  exists left_eye right_eye,
    r = Ok (left_eye, right_eye)
    /\ forall y c p, at2 frame y c = Some p -> p <> black ->
         at2 left_eye y c = Some p /\ at2 right_eye y c = Some p.

(** A depth map that is white everywhere. *)
Definition all_white (d : array2 uint8) : Prop :=
  forall y x v, at2 d y x = Some v -> v = Byte.xff.

End StereoMoreDefs.

Module UtilsDefs.
Import Utils.

(** Every character of [s] satisfies [p]. *)
Fixpoint all_chars (p : ascii -> bool) (s : string) : bool :=
  match s with
  | EmptyString => true
  | String c s' => (p c && all_chars p s')%bool
  end.

Definition no_dollar (s : string) : bool :=
  all_chars (fun c => negb (Ascii.eqb c "$")) s.

(** The reference [${name:default}]. *)
Definition reference (name default_value : string) : string :=
  "${" +:+ name +:+ ":" +:+ default_value +:+ "}".

(** The reference [${name}], without default. *)
Definition bare_reference (name : string) : string :=
  "${" +:+ name +:+ "}".

Section Config.
Context {Key Scalar : Type} `{EqDecision Key}.

(** No string of the configuration holds a dollar sign. *)
Fixpoint plain (obj : yaml Key Scalar) : Prop :=
  match obj with
  | YStr s => no_dollar s = true
  | YScalar _ => True
  | YList items =>
      (fix all (l : list (yaml Key Scalar)) : Prop :=
         match l with
         | [] => True
         | v :: l' => plain v /\ all l'
         end) items
  | YDict entries =>
      (fix all (l : list (Key * yaml Key Scalar)) : Prop :=
         match l with
         | [] => True
         | kv :: l' => plain kv.2 /\ all l'
         end) entries
  end.

(** [obj[k]] on a mapping: the value of the first entry with key [k]. *)
Fixpoint assoc (k : Key) (entries : list (Key * yaml Key Scalar))
    : option (yaml Key Scalar) :=
  match entries with
  | [] => None
  | (k', v) :: rest => if decide (k' = k) then Some v else assoc k rest
  end.

(** [cfg[k1][k2]...]: [None] when a key is missing or a value on the way is
    not a mapping. *)
Fixpoint lookup_path (path : list Key) (obj : yaml Key Scalar)
    : option (yaml Key Scalar) :=
  match path with
  | [] => Some obj
  | k :: path' =>
      match obj with
      | YDict entries => v ← assoc k entries; lookup_path path' v
      | _ => None
      end
  end.

End Config.

End UtilsDefs.

Module PyStrDefs.
Import Decimal.

(** The decimal digit [d] put in front of the digits [u]. *)
Definition digit_cons (d : N) (u : uint) : uint :=
  match d with
  | 0 => D0 u | 1 => D1 u | 2 => D2 u | 3 => D3 u | 4 => D4 u
  | 5 => D5 u | 6 => D6 u | 7 => D7 u | 8 => D8 u | _ => D9 u
  end%N.

(** The [w] low decimal digits of [n], the most significant first. *)
Fixpoint digits (w : nat) (n : N) : uint :=
  match w with
  | O => Nil
  | S w' => digit_cons ((n / 10 ^ N.of_nat w') mod 10)%N (digits w' n)
  end.

(** The number a digit sequence denotes, read after the number [acc]. *)
Fixpoint value (u : uint) (acc : N) : N :=
  match u with
  | Nil => acc
  | D0 l => value l (0 + 10 * acc)
  | D1 l => value l (1 + 10 * acc)
  | D2 l => value l (2 + 10 * acc)
  | D3 l => value l (3 + 10 * acc)
  | D4 l => value l (4 + 10 * acc)
  | D5 l => value l (5 + 10 * acc)
  | D6 l => value l (6 + 10 * acc)
  | D7 l => value l (7 + 10 * acc)
  | D8 l => value l (8 + 10 * acc)
  | D9 l => value l (9 + 10 * acc)
  end%N.

End PyStrDefs.

(* ===================================================================== *)
(** * File names: reading an index back *)
(* ===================================================================== *)

Module PyStrFacts.
Import PyStr.

Lemma parse_digits_of_N (n : N) : parse_digits (digits_of_N n) = Some n.
Proof.
  unfold parse_digits, digits_of_N. rewrite NilEmpty.usu. simpl.
  f_equal. apply DecimalN.Unsigned.of_to.
Qed.

Lemma append_nil_l (b : string) : "" +:+ b = b.
Proof. reflexivity. Qed.

Lemma append_cons (ch : ascii) (a b : string) :
  String ch a +:+ b = String ch (a +:+ b).
Proof. reflexivity. Qed.

Lemma parse_digits_zeros (k : nat) (s : string) (n : N) :
  parse_digits s = Some n -> parse_digits (zeros k +:+ s) = Some n.
Proof.
  intros Hs. induction k as [| k IH]; simpl zeros.
  - rewrite append_nil_l. exact Hs.
  - rewrite append_cons. unfold parse_digits in *. simpl.
    destruct (NilEmpty.uint_of_string (zeros k +:+ s)) as [d |]; [| discriminate].
    simpl in *. exact IH.
Qed.

Lemma parse_zfill (w : nat) (n : N) :
  parse_digits (zfill w (digits_of_N n)) = Some n.
Proof. unfold zfill. apply parse_digits_zeros, parse_digits_of_N. Qed.

Lemma substring_prefix (b c : string) :
  String.substring 0 (String.length b) (b +:+ c) = b.
Proof.
  induction b as [| ch b IHb].
  - rewrite append_nil_l. destruct c; reflexivity.
  - rewrite append_cons. simpl. rewrite IHb. reflexivity.
Qed.

Lemma substring_middle (a b c : string) :
  String.substring (String.length a) (String.length b) (a +:+ b +:+ c) = b.
Proof.
  induction a as [| ch a IH].
  - rewrite append_nil_l. apply substring_prefix.
  - rewrite append_cons. simpl. exact IH.
Qed.

Lemma length_append (a b : string) :
  String.length (a +:+ b) = (String.length a + String.length b)%nat.
Proof.
  induction a as [| ch a IH]; [reflexivity |].
  rewrite append_cons. simpl. rewrite IH. reflexivity.
Qed.

(** A frame file name determines its index. *)
Lemma frame_index_name (i : Z) :
  0 <= i -> frame_index (frame_name i) = Some (Z.to_N i).
Proof.
  intros Hi. unfold frame_index, frame_name.
  assert (Hfmt : format_0wd 6 i = zfill 6 (digits_of_N (Z.to_N i)))
    by (destruct i; [reflexivity | reflexivity | lia]).
  rewrite Hfmt. set (p := zfill 6 (digits_of_N (Z.to_N i))).
  rewrite !length_append.
  replace (String.length "frame_" + (String.length p + String.length ".png") - 10)%nat
    with (String.length p) by (simpl; lia).
  change 6%nat with (String.length "frame_").
  rewrite substring_middle. apply parse_zfill.
Qed.

Lemma frame_name_inj (i j : Z) :
  0 <= i -> 0 <= j -> frame_name i = frame_name j -> i = j.
Proof.
  intros Hi Hj Heq.
  pose proof (frame_index_name i Hi) as Ei.
  pose proof (frame_index_name j Hj) as Ej.
  rewrite Heq, Ej in Ei. injection Ei as Ei. lia.
Qed.

End PyStrFacts.

(* ===================================================================== *)
(** * Frame extraction: the batches of [read_and_write_batches] *)
(* ===================================================================== *)

Module VideoReaderFacts.
Import VideoReader VideoReaderDefs.

Lemma seqZ_snoc (m n : Z) : 0 <= n -> seqZ m (n + 1) = seqZ m n ++ [m + n].
Proof.
  intros Hn. rewrite seqZ_app by lia. reflexivity.
Qed.

Section Batching.
Context {Frame : Type}.
Variable dir : string.
Variable B : Z.
Hypothesis B_pos : 1 <= B.

Local Abbreviation inv := (@VideoReaderDefs.inv Frame dir B).

Lemma inv_initial : inv initial_state 0.
Proof.
  split; simpl; first [reflexivity | lia].
Qed.

Lemma inv_step st n frame :
  inv st n -> inv (loop_body dir B st frame) (n + 1).
Proof.
  intros [Hn Hb Hf Hi Hc].
  assert (Hmod : 0 <= n mod B < B) by (apply Z.mod_pos_bound; lia).
  assert (Hdm : n = B * (n / B) + n mod B) by (apply Z.div_mod; lia).
  assert (Hcur : current_batch st ++ [frame_path dir n]
                 = frame_path dir <$> seqZ (B * (n / B)) (n mod B + 1)).
  { rewrite Hc, seqZ_snoc by lia. rewrite fmap_app. simpl.
    rewrite <- Hdm. reflexivity. }
  assert (Hlen : Z.of_nat (length (current_batch st ++ [frame_path dir n]))
                 = n mod B + 1).
  { rewrite Hcur, length_fmap, length_seqZ. lia. }
  unfold loop_body. rewrite Hf. fold (frame_path dir n).
  rewrite Hlen, Z.geb_leb.
  destruct (Z.leb_spec B (n mod B + 1)) as [Hfull | Hpart].
  - assert (Hlast : n mod B = B - 1) by lia.
    assert (Hq : (n + 1) / B = n / B + 1).
    { symmetry. apply (Z.div_unique (n + 1) B (n / B + 1) 0); lia. }
    assert (Hr : (n + 1) mod B = 0).
    { symmetry. apply (Z.mod_unique (n + 1) B (n / B + 1) 0); lia. }
    split; simpl.
    + lia.
    + rewrite Hb, Hq, seqZ_snoc by (apply Z.div_pos; lia).
      rewrite fmap_app. simpl. f_equal. f_equal. unfold full_batch.
      rewrite Hi, Hcur, Hlast.
      replace (B - 1 + 1) with B by lia.
      replace (0 + n / B) with (n / B) by lia.
      replace (n / B * B) with (B * (n / B)) by lia.
      replace (n + 1 - B) with (B * (n / B)) by lia.
      replace (n + 1 - 1) with (B * (n / B) + B - 1) by lia.
      reflexivity.
    + reflexivity.
    + rewrite Hi, Hq. reflexivity.
    + rewrite Hr. reflexivity.
  - assert (Hq : (n + 1) / B = n / B).
    { symmetry. apply (Z.div_unique (n + 1) B (n / B) (n mod B + 1)); lia. }
    assert (Hr : (n + 1) mod B = n mod B + 1).
    { symmetry. apply (Z.mod_unique (n + 1) B (n / B) (n mod B + 1)); lia. }
    split; simpl.
    + lia.
    + rewrite Hq. exact Hb.
    + reflexivity.
    + rewrite Hq. exact Hi.
    + rewrite Hq, Hr. exact Hcur.
Qed.

Lemma inv_loop frames st n :
  inv st n ->
  inv (fold_left (loop_body dir B) frames st) (n + Z.of_nat (length frames)).
Proof.
  revert st n. induction frames as [| f frames IH]; intros st n Hinv; simpl.
  - replace (n + Z.of_nat 0) with n by lia. exact Hinv.
  - replace (n + Z.of_nat (S (length frames)))
      with ((n + 1) + Z.of_nat (length frames)) by lia.
    apply IH, inv_step, Hinv.
Qed.

Lemma flush_inv st n :
  inv st n ->
  flush st = (full_batch dir B <$> seqZ 0 (n / B))
             ++ (if n mod B =? 0 then [] else [tail_batch dir B n]).
Proof.
  intros [Hn Hb Hf Hi Hc].
  assert (Hmod : 0 <= n mod B < B) by (apply Z.mod_pos_bound; lia).
  unfold flush.
  destruct (Z.eqb_spec (n mod B) 0) as [Hz | Hnz].
  - rewrite Hc, Hz. simpl. rewrite Hb, app_nil_r. reflexivity.
  - assert (Hlen : Z.of_nat (length (current_batch st)) = n mod B).
    { rewrite Hc, length_fmap, length_seqZ. lia. }
    destruct (current_batch st) as [| p cur] eqn:Hcur.
    + simpl in Hlen. lia.
    + rewrite Hb. f_equal. unfold tail_batch.
      assert (Hdm : n = B * (n / B) + n mod B) by (apply Z.div_mod; lia).
      rewrite Hf, Hi, Hlen, <- Hc.
      replace (n - n mod B) with (B * (n / B)) by lia.
      reflexivity.
Qed.

(** The closed form of the batch list. *)
Lemma batches_closed_form (cap : capture Frame) :
  let N := Z.of_nat (length (decoded cap)) in
  batches_of cap dir B
  = (full_batch dir B <$> seqZ 0 (N / B))
    ++ (if N mod B =? 0 then [] else [tail_batch dir B N]).
Proof.
  intros N. unfold batches_of, read_and_write_batches. simpl.
  apply flush_inv.
  replace N with (0 + Z.of_nat (length (decoded cap))) by lia.
  apply inv_loop, inv_initial.
Qed.

Lemma lookup_batches (cap : capture Frame) (k : nat) (b : batch) :
  let N := Z.of_nat (length (decoded cap)) in
  batches_of cap dir B !! k = Some b ->
  (Z.of_nat k < N / B /\ b = full_batch dir B (Z.of_nat k))
  \/ (Z.of_nat k = N / B /\ N mod B <> 0 /\ b = tail_batch dir B N).
Proof.
  intros N. rewrite batches_closed_form. fold N.
  assert (Hq : 0 <= N / B) by (apply Z.div_pos; lia).
  intros Hk. apply lookup_app_Some in Hk as [Hk | [Hlen Hk]].
  - left. rewrite list_lookup_fmap in Hk.
    destruct (seqZ 0 (N / B) !! k) as [i |] eqn:Hi; [| discriminate].
    apply lookup_seqZ in Hi as [-> Hlt]. simpl in Hk.
    split; [lia |]. injection Hk as <-. f_equal.
  - right. rewrite length_fmap, length_seqZ in Hlen, Hk.
    destruct (Z.eqb_spec (N mod B) 0) as [Hz | Hnz].
    + rewrite lookup_nil in Hk. discriminate.
    + destruct (k - Z.to_nat (N / B))%nat as [| j] eqn:Hj; simpl in Hk.
      * injection Hk as <-. repeat split; [lia | exact Hnz].
      * rewrite lookup_nil in Hk. discriminate.
Qed.

Lemma length_batches (cap : capture Frame) :
  let N := Z.of_nat (length (decoded cap)) in
  Z.of_nat (length (batches_of cap dir B))
  = N / B + (if N mod B =? 0 then 0 else 1).
Proof.
  intros N. rewrite batches_closed_form. fold N.
  assert (Hq : 0 <= N / B) by (apply Z.div_pos; lia).
  rewrite length_app, length_fmap, length_seqZ.
  destruct (N mod B =? 0); simpl; lia.
Qed.

Lemma ceil_div (N : Z) :
  0 <= N -> (N + B - 1) / B = N / B + (if N mod B =? 0 then 0 else 1).
Proof.
  intros HN.
  assert (Hmod : 0 <= N mod B < B) by (apply Z.mod_pos_bound; lia).
  assert (Hdm : N = B * (N / B) + N mod B) by (apply Z.div_mod; lia).
  destruct (Z.eqb_spec (N mod B) 0) as [Hz | Hnz]; symmetry.
  - apply (Z.div_unique (N + B - 1) B (N / B + 0) (B - 1)); lia.
  - apply (Z.div_unique (N + B - 1) B (N / B + 1) (N mod B - 1)); lia.
Qed.

End Batching.

(** C2. A source that decodes [N >= 1] frames, read with batch size [B >= 1],
    gives exactly [ceil(N / B)] batch descriptors; the [k]-th one is numbered
    [k] and spans the frames [k * B .. min (k * B + B, N) - 1], whose paths it
    lists in order; the ranges start at 0, follow one another without gap and
    end at [N - 1]; every batch holds [B] frames except a final one of
    [N mod B] frames when [B] does not divide [N]. In particular 90 frames
    with [B = 30] give the ranges [0,29], [30,59], [60,89], and 95 frames with
    [B = 30] end with a batch of 5 frames. *)
Theorem read_and_write_batches_partition {Frame : Type}
    (cap : capture Frame) (dir : string) (B : Z) :
  let N := Z.of_nat (length (decoded cap)) in
  let bs := batches_of cap dir B in
  1 <= N -> 1 <= B ->
  Z.of_nat (length bs) = (N + B - 1) / B
  /\ (forall (k : nat) (b : batch), bs !! k = Some b ->
        batch_index b = Z.of_nat k
        /\ start_frame b = Z.of_nat k * B
        /\ end_frame b = Z.min (Z.of_nat k * B + B) N - 1
        /\ frame_paths b
           = frame_path dir <$> seqZ (start_frame b)
                                     (end_frame b - start_frame b + 1)
        /\ Z.of_nat (length (frame_paths b))
           = (if Z.of_nat k =? N / B then N mod B else B))
  /\ (forall b, bs !! 0%nat = Some b -> start_frame b = 0)
  /\ (forall (k : nat) (b b' : batch),
        bs !! k = Some b -> bs !! S k = Some b' ->
        start_frame b' = end_frame b + 1)
  /\ (forall b, last bs = Some b -> end_frame b = N - 1)
  /\ (N = 90 -> B = 30 ->
        (fun b => (start_frame b, end_frame b)) <$> bs
        = [(0, 29); (30, 59); (60, 89)])
  /\ (N = 95 -> B = 30 ->
        exists b, last bs = Some b /\ length (frame_paths b) = 5%nat).
Proof.
  intros N bs HN HB.
  assert (Hlen : Z.of_nat (length bs)
                 = N / B + (if N mod B =? 0 then 0 else 1))
    by (apply length_batches; exact HB).
  assert (Hlook : forall (k : nat) (b : batch), bs !! k = Some b ->
            (Z.of_nat k < N / B /\ b = full_batch dir B (Z.of_nat k))
            \/ (Z.of_nat k = N / B /\ N mod B <> 0 /\ b = tail_batch dir B N))
    by (intros k b; apply lookup_batches; exact HB).
  assert (Hcf : bs = (full_batch dir B <$> seqZ 0 (N / B))
                     ++ (if N mod B =? 0 then [] else [tail_batch dir B N]))
    by (apply batches_closed_form; exact HB).
  clearbody bs N.
  assert (Hmod : 0 <= N mod B < B) by (apply Z.mod_pos_bound; lia).
  assert (Hdm : N = B * (N / B) + N mod B) by (apply Z.div_mod; lia).
  assert (Hq : 0 <= N / B) by (apply Z.div_pos; lia).
  assert (Hat : forall (k : nat) (b : batch), bs !! k = Some b ->
            batch_index b = Z.of_nat k
            /\ start_frame b = Z.of_nat k * B
            /\ end_frame b = Z.min (Z.of_nat k * B + B) N - 1
            /\ frame_paths b
               = frame_path dir <$> seqZ (start_frame b)
                                         (end_frame b - start_frame b + 1)
            /\ Z.of_nat (length (frame_paths b))
               = (if Z.of_nat k =? N / B then N mod B else B)).
  { intros k b Hk.
    apply Hlook in Hk as [[Hlt ->] | (Heq & Hnz & ->)].
    - unfold batch_index, start_frame, end_frame, frame_paths, full_batch.
      simpl.
      assert (Z.of_nat k * B + B <= N) by nia.
      repeat split.
      + lia.
      + f_equal. f_equal. lia.
      + rewrite length_fmap, length_seqZ.
        destruct (Z.eqb_spec (Z.of_nat k) (N / B)); lia.
    - unfold batch_index, start_frame, end_frame, frame_paths, tail_batch.
      simpl. rewrite <- Heq in *.
      repeat split.
      + lia.
      + nia.
      + f_equal. f_equal. lia.
      + rewrite length_fmap, length_seqZ, Z.eqb_refl. lia. }
  split; [| split; [exact Hat | split; [| split; [| split; [| split]]]]].
  - rewrite Hlen. symmetry. apply ceil_div; lia.
  - intros b Hb. apply Hat in Hb as (_ & -> & _). lia.
  - intros k b b' Hb Hb'.
    assert (Hk' : (S k < length bs)%nat)
      by (apply lookup_lt_is_Some; eauto).
    apply Hat in Hb as (_ & _ & -> & _).
    apply Hat in Hb' as (_ & -> & _).
    assert (Z.of_nat (S k) * B < N).
    { destruct (Z.eqb_spec (N mod B) 0); nia. }
    lia.
  - intros b Hb. rewrite last_lookup in Hb.
    assert (Hk : Z.of_nat (Init.Nat.pred (length bs)) = Z.of_nat (length bs) - 1).
    { destruct (length bs) eqn:E; simpl; [| lia].
      apply length_zero_iff_nil in E. rewrite E in Hb. discriminate. }
    apply Hat in Hb as (_ & _ & -> & _). rewrite Hk, Hlen.
    destruct (Z.eqb_spec (N mod B) 0); nia.
  - intros HN90 HB30. rewrite Hcf, HN90, HB30. reflexivity.
  - intros HN95 HB30. rewrite Hcf, HN95, HB30. eexists. split; reflexivity.
Qed.

Lemma read_and_write_batches_partition_witness :
  Z.of_nat (length (batches_of seven_frames "frames" 3)) = (7 + 3 - 1) / 3.
Proof.
  refine (proj1 (read_and_write_batches_partition seven_frames "frames" 3 _ _));
    simpl; lia.
Defined.

End VideoReaderFacts.

(* ===================================================================== *)
(** * Streaming: the next segment number *)
(* ===================================================================== *)

Module StreamingFacts.
Import Streaming StreamingDefs.

Lemma scan_name_max (max_idx : Z) (name : string) :
  scan_name max_idx name
  = match scanned_number name with
    | Some idx => Z.max idx max_idx
    | None => max_idx
    end.
Proof.
  unfold scan_name, scanned_number.
  destruct (pattern_match name) as [g |]; [| reflexivity].
  destruct (PyStr.parse_digits g) as [idx |]; simpl; [| reflexivity].
  destruct (Z.gtb_spec (Z.of_N idx) max_idx); lia.
Qed.

(** The scan returns a strict upper bound of the numbers it reads, and the
    least one: one more than a number read, or the initial value. *)
Lemma scan_fold (l : list string) (m0 : Z) :
  let m := fold_left scan_name l m0 in
  m0 <= m
  /\ (forall name idx, name ∈ l -> scanned_number name = Some idx -> idx <= m)
  /\ (m = m0 \/ exists name, name ∈ l /\ scanned_number name = Some m).
Proof.
  revert m0. induction l as [| name l IH]; intros m0; simpl.
  - split; [lia |]. split; [| left; reflexivity].
    intros name idx Hin. apply not_elem_of_nil in Hin. contradiction.
  - destruct (IH (scan_name m0 name)) as (Hle & Hub & Hmax).
    rewrite scan_name_max in *.
    destruct (scanned_number name) as [idx |] eqn:Hn.
    + split; [lia |]. split.
      * intros name' idx' Hin Hn'. apply elem_of_cons in Hin as [-> | Hin].
        -- rewrite Hn in Hn'. injection Hn' as <-. lia.
        -- eapply Hub; eassumption.
      * destruct Hmax as [Hm | (name' & Hin & Hn')].
        -- destruct (Z.max_spec idx m0) as [[_ Hx] | [_ Hx]].
           ++ left. lia.
           ++ right. exists name. split; [left |]. rewrite Hn. f_equal. lia.
        -- right. exists name'. split; [right; exact Hin | exact Hn'].
    + split; [lia |]. split.
      * intros name' idx' Hin Hn'. apply elem_of_cons in Hin as [-> | Hin].
        -- rewrite Hn in Hn'. discriminate.
        -- eapply Hub; eassumption.
      * destruct Hmax as [Hm | (name' & Hin & Hn')]; [left; exact Hm |].
        right. exists name'. split; [right; exact Hin | exact Hn'].
Qed.

Lemma scanned_number_nonneg (name : string) (idx : Z) :
  scanned_number name = Some idx -> 0 <= idx.
Proof.
  unfold scanned_number. destruct (pattern_match name); [| discriminate].
  destruct (PyStr.parse_digits s); [| discriminate].
  intros [= <-]. lia.
Qed.

(** The start number is one more than the largest number the scan reads in
    the directory, and 0 when it reads none. *)
Lemma next_start_spec (names : gset string) :
  let start := _next_segment_start_number (Some names) in
  (forall name idx, name ∈ names -> scanned_number name = Some idx -> idx < start)
  /\ (start = 0 /\ (forall name, name ∈ names -> scanned_number name = None)
      \/ exists name, name ∈ names /\ scanned_number name = Some (start - 1)).
Proof.
  unfold _next_segment_start_number, listdir.
  destruct (scan_fold (elements names) (-1)) as (Hle & Hub & Hmax).
  set (m := fold_left scan_name (elements names) (-1)) in *.
  destruct (Z.geb_spec m 0) as [Hge | Hlt].
  - split.
    + intros name idx Hin Hn. apply elem_of_elements in Hin.
      specialize (Hub name idx Hin Hn). lia.
    + right. destruct Hmax as [Hm | (name & Hin & Hn)]; [lia |].
      exists name. apply elem_of_elements in Hin. split; [exact Hin |].
      rewrite Hn. f_equal. lia.
  - split.
    + intros name idx Hin Hn. apply elem_of_elements in Hin.
      specialize (Hub name idx Hin Hn).
      pose proof (scanned_number_nonneg name idx Hn). lia.
    + left. split; [reflexivity |].
      intros name Hin. apply elem_of_elements in Hin.
      destruct (scanned_number name) as [idx |] eqn:Hn; [| reflexivity].
      specialize (Hub name idx Hin Hn).
      pose proof (scanned_number_nonneg name idx Hn). lia.
Qed.

(** Any number with these two properties is the start number. *)
Lemma next_start_unique (names : gset string) (r : Z) :
  (forall name idx, name ∈ names -> scanned_number name = Some idx -> idx < r) ->
  (r = 0 \/ exists name, name ∈ names /\ scanned_number name = Some (r - 1)) ->
  _next_segment_start_number (Some names) = r.
Proof.
  intros Hub Hmax.
  destruct (next_start_spec names) as [Hub' Hmax'].
  set (start := _next_segment_start_number (Some names)) in *.
  assert (Hr : r <= start).
  { destruct Hmax as [-> | (name & Hin & Hn)].
    - destruct Hmax' as [[-> _] | (name & Hin & Hn)]; [lia |].
      pose proof (scanned_number_nonneg _ _ Hn). lia.
    - specialize (Hub' name _ Hin Hn). lia. }
  assert (Hs : start <= r).
  { destruct Hmax' as [[-> _] | (name & Hin & Hn)].
    - destruct Hmax as [-> | (name & Hin & Hn)]; [lia |].
      pose proof (scanned_number_nonneg _ _ Hn). lia.
    - specialize (Hub name _ Hin Hn). lia. }
  lia.
Qed.

(** The scan reads back every name the template gives a number below
    100000 (checked on each of them). *)
Lemma reads_back_below_100000 :
  all_read_back (Z.to_nat 100000) 0 = true.
Proof. vm_compute. reflexivity. Qed.

Lemma all_read_back_spec (fuel : nat) (n k : Z) :
  all_read_back fuel n = true -> n <= k < n + Z.of_nat fuel ->
  scanned_number (segment_name k) = Some k.
Proof.
  revert n. induction fuel as [| fuel IH]; intros n Hall Hk; [lia |].
  simpl in Hall. apply andb_prop in Hall as [Hn Hrest].
  destruct (decide (k = n)) as [-> | Hne].
  - unfold reads_back in Hn.
    destruct (scanned_number (segment_name n)) as [m |]; [| discriminate].
    apply Z.eqb_eq in Hn. congruence.
  - apply (IH (n + 1) Hrest). lia.
Qed.

Lemma scanned_segment_name (n : Z) :
  0 <= n < 100000 -> scanned_number (segment_name n) = Some n.
Proof.
  intros Hn. apply (all_read_back_spec _ 0 n reads_back_below_100000).
  rewrite Z2Nat.id; lia.
Qed.

(** ffmpeg never numbers below the start number it is given. *)
Lemma first_segment_number_ge (start : Z) (pl : list Z) :
  start <= first_segment_number start pl.
Proof.
  unfold first_segment_number. destruct (last pl); lia.
Qed.

(** After an append of at least one segment the scan reads one more than
    the last number ffmpeg wrote, below 100000. *)
Lemma next_start_after_append (names : gset string) (k : nat) (pl : list Z) :
  let start := _next_segment_start_number (Some names) in
  let first := first_segment_number start pl in
  (0 < k)%nat -> first + Z.of_nat k <= 100000 ->
  _next_segment_start_number (Some (ffmpeg_hls start k names pl).1)
  = first + Z.of_nat k.
Proof.
  intros start first Hk Hbound. unfold ffmpeg_hls. cbn [fst]. fold first.
  destruct (next_start_spec names) as [Hub Hmax]. fold start in Hub, Hmax.
  assert (Hstart : 0 <= start).
  { destruct Hmax as [[-> _] | (name & _ & Hn)]; [lia |].
    pose proof (scanned_number_nonneg _ _ Hn). lia. }
  pose proof (first_segment_number_ge start pl) as Hfirst. fold first in Hfirst.
  apply next_start_unique.
  - intros name idx Hin Hn.
    apply elem_of_union in Hin as [Hin | Hin];
      [apply elem_of_union in Hin as [Hin | Hin] |].
    + apply elem_of_list_to_set, list_elem_of_fmap in Hin as (j & -> & Hj).
      apply elem_of_seqZ in Hj.
      rewrite scanned_segment_name in Hn by lia. injection Hn as <-. lia.
    + apply elem_of_singleton in Hin as ->. discriminate Hn.
    + specialize (Hub name idx Hin Hn). lia.
  - right. exists (segment_name (first + Z.of_nat k - 1)). split.
    + apply elem_of_union. left. apply elem_of_union. left.
      apply elem_of_list_to_set, list_elem_of_fmap.
      exists (first + Z.of_nat k - 1). split; [reflexivity |].
      apply elem_of_seqZ. lia.
    + rewrite scanned_segment_name by lia. reflexivity.
Qed.

(** C5, at the failing input. The template names segment 100000 with six
    digits, the scan reads five-digit names only: with the segments 99999
    and 100000 present the start number is 100000, not 100001. An append
    after segment 99999 writes segment 100000, and the next append is again
    given the start number 100000; it is ffmpeg's own count of the segments
    its playlist lists that makes it write 100001. *)
Theorem next_segment_number_stalls_at_100000 :
  segment_name 100000 = "segment_100000.ts"
  /\ scanned_number (segment_name 100000) = None
  /\ _next_segment_start_number (Some long_stream) = 100000
  /\ _next_segment_start_number
       (stream_dir (append_all [1%nat]
                      {| stream_dir := Some {[ segment_name 99999 ]};
                         playlist := [] |}))
     = 100000
  /\ playlist (append_all [1%nat; 1%nat]
                 {| stream_dir := Some {[ segment_name 99999 ]};
                    playlist := [] |})
     = [100000; 100001].
Proof. repeat split; vm_compute; reflexivity. Qed.

End StreamingFacts.

(* ===================================================================== *)
(** * float32 rounding: sign and size *)
(* ===================================================================== *)

Module Float32Facts.
Import Float32.

#[local] Open Scope Q_scope.

Lemma rne_bounds (q : Q) :
  0 <= q -> (0 <= rne q)%Z /\ inject_Z (rne q) <= 2 * q.
Proof.
  intros Hq. unfold rne.
  pose proof (Qfloor_le q) as Hlo.
  pose proof (Qlt_floor q) as Hhi.
  assert (Hf : (0 <= Qfloor q)%Z).
  { replace 0%Z with (Qfloor 0) by reflexivity. apply Qfloor_resp_le, Hq. }
  assert (Hf' : 0 <= inject_Z (Qfloor q)).
  { rewrite <- (Zle_Qle 0). exact Hf. }
  rewrite inject_Z_plus in Hhi. change (inject_Z 1) with 1 in Hhi.
  destruct (Qcompare (q - inject_Z (Qfloor q)) (1 # 2)) eqn:Hc.
  - apply Qeq_alt in Hc.
    destruct (Z.even (Qfloor q)) eqn:He.
    + split; [exact Hf | lra].
    + split; [lia |].
      assert (Hne : (Qfloor q <> 0)%Z) by (intros E; rewrite E in He; discriminate).
      assert (H1 : (1 <= Qfloor q)%Z) by lia.
      rewrite (Zle_Qle 1) in H1. rewrite inject_Z_plus.
      change (inject_Z 1) with 1 in *. lra.
  - split; [exact Hf | lra].
  - apply Qgt_alt in Hc. split; [lia |].
    rewrite inject_Z_plus. change (inject_Z 1) with 1. lra.
Qed.

Lemma pow2_pos (e : Z) : 0 < pow2 e.
Proof. unfold pow2. apply Qpower_0_lt. reflexivity. Qed.

Lemma round_pos_bounds (q : Q) :
  0 <= q -> 0 <= round_pos q /\ round_pos q <= 2 * q.
Proof.
  intros Hq. unfold round_pos.
  set (e := Z.max (ilog2 q - 23) (-149)).
  pose proof (pow2_pos e) as Hp.
  assert (Hd : 0 <= q / pow2 e).
  { apply Qle_shift_div_l; [exact Hp | lra]. }
  destruct (rne_bounds _ Hd) as [H0 H2].
  rewrite (Zle_Qle 0) in H0.
  rewrite Qred_correct.
  split.
  - apply Qmult_le_0_compat; [exact H0 | lra].
  - assert (Hm : inject_Z (rne (q / pow2 e)) * pow2 e
                 <= 2 * (q / pow2 e) * pow2 e).
    { apply Qmult_le_compat_r; [exact H2 | lra]. }
    assert (Heq : 2 * (q / pow2 e) * pow2 e == 2 * q).
    { field. lra. }
    lra.
Qed.

Lemma round_bounds (q : Q) : 0 <= q -> 0 <= round q /\ round q <= 2 * q.
Proof.
  intros Hq. unfold round.
  destruct (Qcompare q 0) eqn:Hc.
  - apply Qeq_alt in Hc. lra.
  - apply Qlt_alt in Hc. lra.
  - apply round_pos_bounds, Hq.
Qed.

(** The float32 value of [1 - b / 255] lies in the unit interval for every
    byte [b]. *)
Lemma one_minus_depth_unit (b : Byte.byte) :
  0 <= sub 1 (div (of_uint8 b) 255) /\ sub 1 (div (of_uint8 b) 255) <= 1.
Proof.
  split; apply Qle_bool_imp_le; destruct b; vm_compute; reflexivity.
Qed.

Lemma trunc_nonneg (q : Q) : 0 <= q -> PyNum.trunc q = Qfloor q.
Proof.
  intros Hq. unfold PyNum.trunc.
  apply Qle_bool_iff in Hq. rewrite Hq. reflexivity.
Qed.

(** A value in [[0, 2^31)] survives the cast to int32 as its floor. *)
Lemma to_int32_nonneg (q : Q) :
  0 <= q -> q < inject_Z (2 ^ 31) ->
  to_int32 q = Qfloor q /\ (0 <= Qfloor q)%Z /\ inject_Z (Qfloor q) <= q.
Proof.
  intros Hq Hlt. unfold to_int32. rewrite trunc_nonneg by exact Hq.
  pose proof (Qfloor_le q) as Hlo.
  assert (Hf : (0 <= Qfloor q)%Z).
  { replace 0%Z with (Qfloor 0) by reflexivity. apply Qfloor_resp_le, Hq. }
  assert (Hu : (Qfloor q < 2 ^ 31)%Z).
  { rewrite Zlt_Qlt. lra. }
  split; [| split; [exact Hf | exact Hlo]].
  destruct (Z.leb_spec (- 2 ^ 31) (Qfloor q)); [| lia].
  destruct (Z.ltb_spec (Qfloor q) (2 ^ 31)); [reflexivity | lia].
Qed.

End Float32Facts.

(* ===================================================================== *)
(** * Stereo synthesis: the scatter loop *)
(* ===================================================================== *)

Module StereoFacts.
Import Image Stereo StereoDefs.

Lemma shift_of_bounds (max_shift : Z) (t : Q) :
  max_shift_ok max_shift ->
  (0 <= Float32.sub 1 t)%Q -> (Float32.sub 1 t <= 1)%Q ->
  (0 <= shift_of max_shift t)%Q
  /\ (shift_of max_shift t <= inject_Z (4 * max_shift))%Q.
Proof.
  intros [Hlo Hhi] Ht0 Ht1. unfold shift_of, Float32.mul, Float32.of_Z.
  set (u := Float32.sub 1 t) in *.
  assert (Hm : (0 <= inject_Z max_shift)%Q) by (rewrite <- (Zle_Qle 0); exact Hlo).
  destruct (Float32Facts.round_bounds _ Hm) as [HM0 HM2].
  set (M := Float32.round (inject_Z max_shift)) in *.
  assert (Hprod : (0 <= u * M)%Q) by (apply Qmult_le_0_compat; assumption).
  destruct (Float32Facts.round_bounds _ Hprod) as [Hs0 Hs2].
  split; [exact Hs0 |].
  assert (HuM : (u * M <= 1 * M)%Q) by (apply Qmult_le_compat_r; assumption).
  rewrite inject_Z_mult. change (inject_Z 4) with 4%Q. lra.
Qed.

(** Under the bound the shift is a non-negative integer. *)
Lemma pixel_shift_nonneg (max_shift : Z) (depth : option (array2 uint8))
    (y x : nat) :
  max_shift_ok max_shift -> 0 <= pixel_shift max_shift depth y x.
Proof.
  intros Hok. unfold pixel_shift.
  assert (Hu : (0 <= Float32.sub 1 (depth_px depth y x))%Q
               /\ (Float32.sub 1 (depth_px depth y x) <= 1)%Q).
  { unfold depth_px. destruct depth as [d |].
    - destruct (at2 d y x) as [b |].
      + apply Float32Facts.one_minus_depth_unit.
      + split; apply Qle_bool_imp_le; vm_compute; reflexivity.
    - split; apply Qle_bool_imp_le; vm_compute; reflexivity. }
  destruct Hu as [Hu0 Hu1].
  destruct (shift_of_bounds max_shift _ Hok Hu0 Hu1) as [Hs0 Hs4].
  destruct (Float32Facts.to_int32_nonneg (shift_of max_shift (depth_px depth y x)))
    as (-> & Hf & _).
  - exact Hs0.
  - destruct Hok as [_ Hhi].
    assert (H4 : 4 * max_shift < 2 ^ 31) by lia.
    rewrite Zlt_Qlt in H4. lra.
  - exact Hf.
Qed.

(** ** Arrays with known content *)

Lemma img_has_ext {A : Type} (img : array2 A) (H W : nat) (f g : nat -> nat -> A) :
  (forall y c, (y < H)%nat -> (c < W)%nat -> f y c = g y c) ->
  img_has img H W f -> img_has img H W g.
Proof.
  intros Hfg [H1 H2 H3 H4 H5]. split; try assumption.
  intros y c Hy Hc. rewrite H5 by assumption. f_equal. apply Hfg; assumption.
Qed.

Lemma wf_rows {A : Type} (a : array2 A) :
  wf a = true ->
  length (cells a) = nrows a
  /\ forall y row, cells a !! y = Some row -> length row = ncols a.
Proof.
  unfold wf. intros Hwf. apply andb_prop in Hwf as [Hn Hr].
  apply Nat.eqb_eq in Hn. split; [exact Hn |].
  intros y row Hy. rewrite forallb_forall in Hr.
  apply Nat.eqb_eq, Hr, list_elem_of_In, list_elem_of_lookup. eauto.
Qed.

Lemma wf_img_has {A : Type} (dflt : A) (a : array2 A) :
  wf a = true ->
  img_has a (nrows a) (ncols a) (fun y c => default dflt (at2 a y c)).
Proof.
  intros Hwf. destruct (wf_rows a Hwf) as [Hn Hr].
  split; try reflexivity; try assumption.
  intros y c Hy Hc. unfold at2.
  destruct (cells a !! y) as [row |] eqn:Hrow.
  - simpl. specialize (Hr y row Hrow).
    destruct (row !! c) as [v |] eqn:Hv; [reflexivity |].
    apply lookup_ge_None in Hv. lia.
  - apply lookup_ge_None in Hrow. lia.
Qed.

Lemma full_has {A : Type} (h w : nat) (v : A) :
  img_has (full h w v) h w (fun _ _ => v).
Proof.
  split; simpl; try reflexivity.
  - apply length_replicate.
  - intros y row Hy. apply lookup_replicate in Hy as [-> _]. apply length_replicate.
  - intros y c Hy Hc. unfold at2. simpl.
    rewrite lookup_replicate_2 by exact Hy. simpl.
    apply lookup_replicate_2, Hc.
Qed.

(** An in-range write changes the one cell it names. *)
Lemma setitem2_has (img : image) (H W : nat) (f : nat -> nat -> pixel)
    (y : nat) (c : Z) (v : pixel) :
  img_has img H W f -> (y < H)%nat -> 0 <= c < Z.of_nat W ->
  exists img',
    setitem2 img y c v = Ok img'
    /\ img_has img' H W
         (fun y' c' => if decide (y' = y /\ Z.of_nat c' = c) then v else f y' c').
Proof.
  intros [Hn Hc Hl Hr Ha] Hy Hcol. unfold setitem2, PyNum.np_index.
  rewrite Hc.
  destruct (Z.leb_spec 0 c); [| lia].
  destruct (Z.ltb_spec c (Z.of_nat W)); [| lia]. simpl.
  eexists. split; [reflexivity |].
  split; simpl; try assumption; try reflexivity.
  - rewrite length_alter. exact Hl.
  - intros y' row Hrow.
    destruct (decide (y' = y)) as [-> | Hne].
    + rewrite list_lookup_alter_eq in Hrow.
      destruct (cells img !! y) as [r |] eqn:Hry; [| simpl in Hrow; discriminate].
      simpl in Hrow. injection Hrow as <-. rewrite length_insert. eauto.
    + rewrite list_lookup_alter_ne in Hrow by congruence. eauto.
  - intros y' c' Hy' Hc'. specialize (Ha y' c' Hy' Hc'). unfold at2 in *. simpl.
    destruct (decide (y' = y)) as [-> | Hne].
    + rewrite list_lookup_alter_eq.
      destruct (cells img !! y) as [r |] eqn:Hry; [| simpl in Ha; discriminate].
      simpl in *. specialize (Hr y r Hry).
      destruct (decide (Z.of_nat c' = c)) as [Heq | Hneq].
      * rewrite decide_True by auto.
        replace (Z.to_nat c) with c' by lia.
        apply list_lookup_insert_eq. lia.
      * rewrite decide_False by (intros [_ ?]; contradiction).
        rewrite list_lookup_insert_ne by lia. exact Ha.
    + rewrite decide_False by (intros [? _]; contradiction).
      rewrite list_lookup_alter_ne by congruence. exact Ha.
Qed.

Lemma fold_result_app {A S : Type} (body : S -> A -> result S)
    (l1 l2 : list A) (s : S) :
  fold_result body (l1 ++ l2) s
  = (s' ← fold_result body l1 s; fold_result body l2 s').
Proof.
  revert s. induction l1 as [| a l1 IH]; intros s; simpl; [reflexivity |].
  destruct (body s a) as [s' | e]; simpl; [apply IH | reflexivity].
Qed.

(** ** The two loops *)

Section ScatterLoops.
Variable frame : image.
Variables H W : nat.
Variable ff : nat -> nat -> pixel.
Hypothesis frame_has : img_has frame H W ff.

(** The shift array, of any shape, and the integer shifts read from it. *)
Variable shift : array2 Q.
Variables Hs Ws : nat.
Variable sh : nat -> nat -> Q.
Hypothesis shift_has : img_has shift Hs Ws sh.

Local Abbreviation dx := (StereoDefs.dx sh).
Local Abbreviation destL := (StereoDefs.destL W sh).
Local Abbreviation destR := (StereoDefs.destR sh).
Local Abbreviation stage := (StereoDefs.stage frame W).

Hypothesis dx_nonneg : forall y x, 0 <= dx y x.

Lemma stage_write (dest : nat -> nat -> Z) (y k : nat) (px : pixel) :
  at2 frame y k = Some px ->
  forall y' c,
    (if decide (y' = y /\ Z.of_nat c = dest y k) then px
     else stage dest y k y' c)
    = stage dest y (S k) y' c.
Proof.
  intros Hpx y' c. unfold stage, scattered. simpl.
  destruct (decide (y' < y)%nat) as [Hlt | Hge].
  - rewrite decide_False by lia. reflexivity.
  - destruct (decide (y' = y)) as [-> | Hne].
    + destruct (Z.eqb_spec (dest y k) (Z.of_nat c)) as [Heq | Hneq].
      * rewrite decide_True by auto. rewrite Hpx. reflexivity.
      * rewrite decide_False by (intros [_ ?]; congruence). reflexivity.
    + rewrite decide_False by (intros [? _]; contradiction). reflexivity.
Qed.

Lemma stage_next_row (dest : nat -> nat -> Z) (y : nat) :
  forall y' c, stage dest y W y' c = stage dest (S y) 0 y' c.
Proof.
  intros y' c. unfold stage.
  destruct (decide (y' < y)%nat) as [Hlt | Hge].
  - rewrite decide_True by lia. reflexivity.
  - destruct (decide (y' = y)) as [-> | Hne].
    + rewrite decide_True by lia. reflexivity.
    + destruct (decide (y' < S y)%nat); [lia |].
      destruct (decide (y' = S y)); reflexivity.
Qed.

Lemma scatter_pixel_step (y k : nat) (dx_row : list Z) (L R : image) :
  (y < H)%nat -> (k < W)%nat ->
  dx_row !! k = Some (dx y k) ->
  img_has L H W (stage destL y k) ->
  img_has R H W (stage destR y k) ->
  exists L' R',
    scatter_pixel frame W y dx_row (L, R) k = Ok (L', R')
    /\ img_has L' H W (stage destL y (S k))
    /\ img_has R' H W (stage destR y (S k)).
Proof.
  intros Hy Hk Hdx HL HR. unfold scatter_pixel. rewrite Hdx. simpl.
  pose proof (has_at _ _ _ _ frame_has y k Hy Hk) as Hpx. rewrite Hpx. simpl.
  pose proof (dx_nonneg y k) as Hd.
  destruct (setitem2_has L H W _ y (Z.min (Z.of_nat W - 1) (Z.of_nat k + dx y k))
              (ff y k) HL Hy) as (L' & -> & HL'); [lia |].
  destruct (setitem2_has R H W _ y (Z.max 0 (Z.of_nat k - dx y k))
              (ff y k) HR Hy) as (R' & -> & HR'); [lia |].
  simpl. exists L', R'. split; [reflexivity |]. split.
  - eapply img_has_ext; [| exact HL'].
    intros y' c _ _. apply (stage_write destL y k (ff y k) Hpx).
  - eapply img_has_ext; [| exact HR'].
    intros y' c _ _. apply (stage_write destR y k (ff y k) Hpx).
Qed.

Lemma scatter_pixels (y : nat) (dx_row : list Z) :
  (y < H)%nat ->
  forall (n k : nat) (L R : image),
    (k + n <= W)%nat ->
    (forall x, (k <= x < k + n)%nat -> dx_row !! x = Some (dx y x)) ->
    img_has L H W (stage destL y k) ->
    img_has R H W (stage destR y k) ->
    exists L' R',
      fold_result (scatter_pixel frame W y dx_row) (seq k n) (L, R) = Ok (L', R')
      /\ img_has L' H W (stage destL y (k + n))
      /\ img_has R' H W (stage destR y (k + n)).
Proof.
  intros Hy. induction n as [| n IH]; intros k L R Hkn Hrow HL HR; simpl.
  - exists L, R. rewrite Nat.add_0_r. auto.
  - destruct (scatter_pixel_step y k dx_row L R Hy) as (L1 & R1 & -> & HL1 & HR1);
      [lia | apply Hrow; lia | exact HL | exact HR |].
    simpl.
    destruct (IH (S k) L1 R1) as (L' & R' & Hf & HL' & HR');
      [lia | intros x Hx; apply Hrow; lia | exact HL1 | exact HR1 |].
    exists L', R'. replace (k + S n)%nat with (S k + n)%nat by lia. auto.
Qed.

(** The row of integer shifts that [scatter_row] reads. *)
Lemma shift_row (y : nat) :
  (y < Hs)%nat ->
  exists row,
    cells shift !! y = Some row
    /\ length row = Ws
    /\ forall x, (x < Ws)%nat -> (Float32.to_int32 <$> row) !! x = Some (dx y x).
Proof.
  intros Hy. destruct shift_has as [_ _ Hl Hr Ha].
  destruct (lookup_lt_is_Some_2 (cells shift) y) as [row Hrow]; [lia |].
  exists row. split; [exact Hrow |]. split; [eauto |].
  intros x Hx. specialize (Ha y x Hy Hx). unfold at2 in Ha.
  rewrite Hrow in Ha. simpl in Ha.
  rewrite list_lookup_fmap, Ha. reflexivity.
Qed.

Lemma scatter_row_ok (y : nat) (L R : image) :
  (y < H)%nat -> (y < Hs)%nat -> (W <= Ws)%nat ->
  img_has L H W (stage destL y 0) ->
  img_has R H W (stage destR y 0) ->
  exists L' R',
    scatter_row frame W shift (L, R) y = Ok (L', R')
    /\ img_has L' H W (stage destL (S y) 0)
    /\ img_has R' H W (stage destR (S y) 0).
Proof.
  intros Hy Hys HW HL HR. unfold scatter_row.
  destruct (shift_row y Hys) as (row & -> & Hlen & Hdx). simpl.
  destruct (scatter_pixels y (Float32.to_int32 <$> row) Hy W 0 L R)
    as (L' & R' & Hf & HL' & HR');
    [lia | intros x Hx; apply Hdx; lia | exact HL | exact HR |].
  exists L', R'. split; [exact Hf |]. split.
  - eapply img_has_ext; [| exact HL']. intros y' c _ _. apply stage_next_row.
  - eapply img_has_ext; [| exact HR']. intros y' c _ _. apply stage_next_row.
Qed.

Lemma scatter_rows :
  forall (n y : nat) (L R : image),
    (y + n <= H)%nat -> (y + n <= Hs)%nat -> (W <= Ws)%nat ->
    img_has L H W (stage destL y 0) ->
    img_has R H W (stage destR y 0) ->
    exists L' R',
      fold_result (scatter_row frame W shift) (seq y n) (L, R) = Ok (L', R')
      /\ img_has L' H W (stage destL (y + n) 0)
      /\ img_has R' H W (stage destR (y + n) 0).
Proof.
  induction n as [| n IH]; intros y L R HyH HyHs HW HL HR; simpl.
  - exists L, R. rewrite Nat.add_0_r. auto.
  - destruct (scatter_row_ok y L R) as (L1 & R1 & -> & HL1 & HR1);
      [lia | lia | exact HW | exact HL | exact HR |].
    simpl.
    destruct (IH (S y) L1 R1) as (L' & R' & Hf & HL' & HR');
      [lia | lia | exact HW | exact HL1 | exact HR1 |].
    exists L', R'. replace (y + S n)%nat with (S y + n)%nat by lia. auto.
Qed.

(** A row the shift array lacks, or a column its row lacks, ends the loop
    with [IndexError]. *)
Lemma scatter_row_short_rows (y : nat) (eyes : image * image) :
  (Hs <= y)%nat -> scatter_row frame W shift eyes y = Raise IndexError.
Proof.
  intros Hy. unfold scatter_row.
  destruct shift_has as [_ _ Hl _ _].
  rewrite (proj2 (lookup_ge_None (cells shift) y)) by lia. reflexivity.
Qed.

Lemma scatter_row_short_cols (y : nat) (L R : image) :
  (y < H)%nat -> (y < Hs)%nat -> (Ws < W)%nat ->
  img_has L H W (stage destL y 0) ->
  img_has R H W (stage destR y 0) ->
  scatter_row frame W shift (L, R) y = Raise IndexError.
Proof.
  intros Hy Hys HW HL HR. unfold scatter_row.
  destruct (shift_row y Hys) as (row & -> & Hlen & Hdx). simpl.
  replace (seq 0 W) with (seq 0 Ws ++ seq Ws (W - Ws))
    by (rewrite <- seq_app; f_equal; lia).
  rewrite fold_result_app.
  destruct (scatter_pixels y (Float32.to_int32 <$> row) Hy Ws 0 L R)
    as (L' & R' & -> & _ & _);
    [lia | intros x Hx; apply Hdx; lia | exact HL | exact HR |].
  simpl. destruct (W - Ws)%nat as [| m] eqn:Hm; [lia |]. simpl.
  unfold scatter_pixel.
  rewrite (proj2 (lookup_ge_None (Float32.to_int32 <$> row) Ws))
    by (rewrite length_fmap; lia).
  reflexivity.
Qed.

Lemma stage_initial (dest : nat -> nat -> Z) :
  forall y' c, stage0 y' c = stage dest 0 0 y' c.
Proof.
  intros y' c. unfold stage, stage0, scattered. simpl.
  destruct (decide (y' < 0)%nat); [lia |].
  destruct (decide (y' = 0%nat)); reflexivity.
Qed.

Lemma stage_final (dest : nat -> nat -> Z) :
  forall y' c, (y' < H)%nat ->
    stage dest H 0 y' c = scattered frame (dest y') W y' c.
Proof.
  intros y' c Hy. unfold stage. rewrite decide_True by exact Hy. reflexivity.
Qed.

(** The whole scatter succeeds when the shift array covers the frame, and
    then each eye holds what the last writer of each cell left. *)
Lemma scatter_loop_ok (L R : image) :
  (H <= Hs)%nat -> (W <= Ws \/ H = 0)%nat ->
  img_has L H W stage0 -> img_has R H W stage0 ->
  exists L' R',
    fold_result (scatter_row frame W shift) (seq 0 H) (L, R) = Ok (L', R')
    /\ img_has L' H W (fun y c => scattered frame (destL y) W y c)
    /\ img_has R' H W (fun y c => scattered frame (destR y) W y c).
Proof.
  intros HH [HW | ->] HL HR.
  - destruct (scatter_rows H 0 L R) as (L' & R' & Hf & HL' & HR');
      [lia | lia | exact HW | | |].
    + eapply img_has_ext; [| exact HL]. intros; apply stage_initial.
    + eapply img_has_ext; [| exact HR]. intros; apply stage_initial.
    + exists L', R'. split; [exact Hf |]. split.
      * eapply img_has_ext; [| exact HL']. intros y c Hy _. apply stage_final, Hy.
      * eapply img_has_ext; [| exact HR']. intros y c Hy _. apply stage_final, Hy.
  - simpl. exists L, R. split; [reflexivity |]. split.
    + eapply img_has_ext; [| exact HL]. intros; lia.
    + eapply img_has_ext; [| exact HR]. intros; lia.
Qed.

(** It raises [IndexError] when the shift array has fewer rows than the
    frame, or fewer columns while the frame has a row. *)
Lemma scatter_loop_raises (L R : image) :
  (Hs < H \/ (0 < H /\ Ws < W))%nat ->
  img_has L H W stage0 -> img_has R H W stage0 ->
  fold_result (scatter_row frame W shift) (seq 0 H) (L, R) = Raise IndexError.
Proof.
  intros Hshort HL HR.
  assert (HL0 : img_has L H W (stage destL 0 0))
    by (eapply img_has_ext; [| exact HL]; intros; apply stage_initial).
  assert (HR0 : img_has R H W (stage destR 0 0))
    by (eapply img_has_ext; [| exact HR]; intros; apply stage_initial).
  destruct (le_lt_dec W Ws) as [HW | HW].
  - (* enough columns: the rows run out at [Hs] *)
    assert (HsH : (Hs < H)%nat) by lia.
    replace (seq 0 H) with (seq 0 Hs ++ seq Hs (H - Hs))
      by (rewrite <- seq_app; f_equal; lia).
    rewrite fold_result_app.
    destruct (scatter_rows Hs 0 L R) as (L' & R' & -> & _ & _);
      [lia | lia | exact HW | exact HL0 | exact HR0 |].
    simpl. destruct (H - Hs)%nat as [| m] eqn:Hm; [lia |]. simpl.
    rewrite scatter_row_short_rows by lia. reflexivity.
  - (* too few columns: row 0 already fails *)
    assert (Hseq : seq 0 H = 0%nat :: seq 1 (H - 1)).
    { destruct Hshort as [? | [? _]]; destruct H; simpl; try lia;
        rewrite Nat.sub_0_r; reflexivity. }
    rewrite Hseq. simpl.
    destruct (le_lt_dec Hs 0) as [Hz | Hnz].
    + rewrite scatter_row_short_rows by lia. reflexivity.
    + rewrite scatter_row_short_cols by (assumption || lia). reflexivity.
Qed.

End ScatterLoops.

(** ** The shift array of [scatter] *)

Lemma map_cells_has {A B : Type} (g : A -> B) (a : array2 A) (H W : nat)
    (f : nat -> nat -> A) :
  img_has a H W f ->
  img_has {| nrows := nrows a; ncols := ncols a; cells := map (map g) (cells a) |}
          H W (fun y x => g (f y x)).
Proof.
  intros [Hn Hc Hl Hr Ha]. split; simpl; try assumption.
  - rewrite length_map. exact Hl.
  - intros y row Hrow. change (map (map g) (cells a)) with (map g <$> cells a) in Hrow.
    rewrite list_lookup_fmap in Hrow.
    destruct (cells a !! y) as [r |] eqn:Hry; [| discriminate].
    simpl in Hrow. injection Hrow as <-. rewrite length_map. eauto.
  - intros y c Hy Hc'. specialize (Ha y c Hy Hc'). unfold at2 in *. simpl.
    change (map (map g) (cells a)) with (map g <$> cells a).
    rewrite list_lookup_fmap.
    destruct (cells a !! y) as [r |] eqn:Hry; [| discriminate].
    simpl in *. change (map g r) with (g <$> r).
    rewrite list_lookup_fmap, Ha. reflexivity.
Qed.

Lemma shift_array_has (H W : nat) (depth : option (array2 uint8))
    (max_shift : Z) :
  depth_wf depth ->
  img_has (shift_array max_shift (normalise_depth H W depth))
          (shift_rows H depth) (shift_cols W depth)
          (fun y x => shift_of max_shift (depth_px depth y x)).
Proof.
  intros Hwf. unfold shift_array. destruct depth as [d |]; simpl in *.
  - pose proof (wf_img_has Byte.x00 d Hwf) as Hd.
    pose proof (map_cells_has
                  (fun b => shift_of max_shift
                              (Float32.div (Float32.of_uint8 b) 255%Q))
                  d _ _ _ Hd) as Hm.
    rewrite map_map.
    rewrite (map_ext _ (map (fun b => shift_of max_shift
                               (Float32.div (Float32.of_uint8 b) 255%Q))))
      by (intros r; apply map_map).
    eapply img_has_ext; [| exact Hm].
    intros y x Hy Hx. simpl. unfold depth_px.
    pose proof (has_at _ _ _ _ Hd y x Hy Hx) as Hat.
    unfold uint8 in *. cbv beta in *.
    destruct (at2 d y x) as [b |]; [reflexivity | discriminate].
  - apply (map_cells_has (shift_of max_shift) (full H W 1%Q) H W (fun _ _ => 1%Q)).
    apply full_has.
Qed.

(** [scatter] succeeds when the depth map covers the frame, and raises
    [IndexError] when it does not. *)
Lemma scatter_ok (frame : image) (depth : option (array2 uint8))
    (max_shift : Z) :
  let H := nrows frame in
  let W := ncols frame in
  let dxf := pixel_shift max_shift depth in
  wf frame = true -> depth_wf depth -> max_shift_ok max_shift ->
  (H <= shift_rows H depth)%nat ->
  (W <= shift_cols W depth \/ H = 0)%nat ->
  exists left_eye right_eye,
    scatter frame depth max_shift = Ok (left_eye, right_eye)
    /\ img_has left_eye H W
         (fun y c => scattered frame (dest_left W (dxf y)) W y c)
    /\ img_has right_eye H W
         (fun y c => scattered frame (dest_right (dxf y)) W y c).
Proof.
  intros H W dxf Hwf Hdwf Hok HH HW. unfold scatter.
  apply (scatter_loop_ok frame H W _ (wf_img_has black frame Hwf)
           _ _ _ _ (shift_array_has H W depth max_shift Hdwf)).
  - intros y x. apply pixel_shift_nonneg, Hok.
  - exact HH.
  - exact HW.
  - exact (full_has H W black).
  - exact (full_has H W black).
Qed.

Lemma scatter_raises (frame : image) (depth : option (array2 uint8))
    (max_shift : Z) :
  let H := nrows frame in
  let W := ncols frame in
  wf frame = true -> depth_wf depth -> max_shift_ok max_shift ->
  (shift_rows H depth < H \/ (0 < H /\ shift_cols W depth < W))%nat ->
  scatter frame depth max_shift = Raise IndexError.
Proof.
  intros H W Hwf Hdwf Hok Hshort. unfold scatter.
  apply (scatter_loop_raises frame H W _ (wf_img_has black frame Hwf)
           _ _ _ _ (shift_array_has H W depth max_shift Hdwf)).
  - intros y x. apply pixel_shift_nonneg, Hok.
  - exact Hshort.
  - exact (full_has H W black).
  - exact (full_has H W black).
Qed.

(** What [last_writer] finds. *)
Lemma last_writer_Some (dest : nat -> Z) (k : nat) (c : Z) (x : nat) :
  last_writer dest k c = Some x <->
  (x < k)%nat /\ dest x = c /\ forall x', (x < x' < k)%nat -> dest x' <> c.
Proof.
  induction k as [| k IH]; simpl.
  - split; [discriminate | lia].
  - destruct (Z.eqb_spec (dest k) c) as [Heq | Hne].
    + split.
      * intros [= <-]. repeat split; [lia | exact Heq | intros; lia].
      * intros (Hx & Hd & Hlast).
        destruct (decide (x = k)) as [-> | Hxk]; [reflexivity |].
        exfalso. apply (Hlast k); [lia | exact Heq].
    + rewrite IH. split.
      * intros (Hx & Hd & Hlast). repeat split; [lia | exact Hd |].
        intros x' Hx'. destruct (decide (x' = k)) as [-> | ?]; [exact Hne |].
        apply Hlast. lia.
      * intros (Hx & Hd & Hlast).
        assert (x <> k) by (intros ->; contradiction).
        repeat split; [lia | exact Hd | intros; apply Hlast; lia].
Qed.

Lemma last_writer_None (dest : nat -> Z) (k : nat) (c : Z) :
  last_writer dest k c = None <-> forall x, (x < k)%nat -> dest x <> c.
Proof.
  induction k as [| k IH]; simpl.
  - split; [intros; lia | reflexivity].
  - destruct (Z.eqb_spec (dest k) c) as [Heq | Hne].
    + split; [discriminate |]. intros Hall. exfalso. apply (Hall k); [lia | exact Heq].
    + rewrite IH. split.
      * intros Hall x Hx. destruct (decide (x = k)) as [-> | ?]; [exact Hne |].
        apply Hall. lia.
      * intros Hall x Hx. apply Hall. lia.
Qed.

End StereoFacts.

(* ===================================================================== *)
(** * Stereo synthesis: the claims *)
(* ===================================================================== *)

Module StereoClaims.
Import Image Stereo StereoDefs StereoFacts.

Lemma depth_matches_wf (frame : image) (depth : option (array2 uint8)) :
  depth_matches frame depth -> depth_wf depth.
Proof. destruct depth; simpl; tauto. Qed.

Lemma pixel_shift_floor (max_shift : Z) (depth : option (array2 uint8))
    (y x : nat) :
  max_shift_ok max_shift ->
  pixel_shift max_shift depth y x
  = Qfloor (shift_of max_shift (depth_px depth y x)).
Proof.
  intros Hok. unfold pixel_shift.
  assert (Hu : (0 <= Float32.sub 1 (depth_px depth y x))%Q
               /\ (Float32.sub 1 (depth_px depth y x) <= 1)%Q).
  { unfold depth_px. destruct depth as [d |].
    - destruct (at2 d y x) as [b |].
      + apply Float32Facts.one_minus_depth_unit.
      + split; apply Qle_bool_imp_le; vm_compute; reflexivity.
    - split; apply Qle_bool_imp_le; vm_compute; reflexivity. }
  destruct Hu as [Hu0 Hu1].
  destruct (shift_of_bounds max_shift _ Hok Hu0 Hu1) as [Hs0 Hs4].
  apply Float32Facts.to_int32_nonneg; [exact Hs0 |].
  destruct Hok as [_ Hhi].
  assert (H4 : 4 * max_shift < 2 ^ 31) by lia.
  rewrite Zlt_Qlt in H4. lra.
Qed.

(** A write survives at its column unless a later column of the row is sent
    to the same place. *)
Lemma scattered_written (frame : image) (dest : nat -> Z) (W y x : nat) :
  (x < W)%nat -> 0 <= dest x ->
  exists x', (x <= x' < W)%nat /\ dest x' = dest x
             /\ scattered frame dest W y (Z.to_nat (dest x))
                = default black (at2 frame y x').
Proof.
  intros Hx Hd. unfold scattered. rewrite Z2Nat.id by exact Hd.
  destruct (last_writer dest W (dest x)) as [x' |] eqn:Hlw.
  - apply last_writer_Some in Hlw as (Hx' & Heq & Hlast).
    exists x'. repeat split; try assumption.
    destruct (le_lt_dec x x') as [? | Hlt]; [assumption |].
    exfalso. apply (Hlast x); [lia | reflexivity].
  - exfalso. rewrite last_writer_None in Hlw. apply (Hlw x Hx). reflexivity.
Qed.

(** The scatter on a depth map of the frame's shape. *)
Lemma scatter_same_shape (frame : image) (depth : option (array2 uint8))
    (max_shift : Z) :
  let H := nrows frame in
  let W := ncols frame in
  let d := pixel_shift max_shift depth in
  wf frame = true -> depth_matches frame depth -> max_shift_ok max_shift ->
  exists left_eye right_eye,
    scatter frame depth max_shift = Ok (left_eye, right_eye)
    /\ img_has left_eye H W
         (fun y c => scattered frame (dest_left W (d y)) W y c)
    /\ img_has right_eye H W
         (fun y c => scattered frame (dest_right (d y)) W y c).
Proof.
  intros H W d Hwf Hdm Hok.
  apply (scatter_ok frame depth max_shift Hwf (depth_matches_wf _ _ Hdm) Hok).
  - destruct depth as [dm |]; simpl in *; [| lia].
    destruct Hdm as (_ & -> & _). fold H. lia.
  - left. destruct depth as [dm |]; simpl in *; [| lia].
    destruct Hdm as (_ & _ & ->). fold W. lia.
Qed.

(** C3 (amended). For a well-formed frame of width [W], an 8-bit depth map of
    the same shape (or none) and [0 <= max_shift <= 2^24], the scatter loop
    succeeds; the shift of pixel [(x, y)] is the float32 value of
    [(1 - depth[y,x]) * max_shift] truncated to an integer [d >= 0]; the
    source pixel is written to column [min (W-1) (x+d)] of the left image and
    [max 0 (x-d)] of the right image, where it stays unless a later column of
    the row is written to the same place; a cell no column is sent to keeps
    the initial zero. *)
Theorem scatter_writes_clamped_columns (frame : image)
    (depth : option (array2 uint8)) (max_shift : Z) :
  let H := nrows frame in
  let W := ncols frame in
  let d := pixel_shift max_shift depth in
  wf frame = true ->
  depth_matches frame depth ->
  0 <= max_shift <= 2 ^ 24 ->
  (forall y x,
      d y x = Qfloor (Float32.mul (Float32.sub 1 (depth_px depth y x))
                                  (Float32.of_Z max_shift))
      /\ 0 <= d y x)
  /\ exists left_eye right_eye,
      scatter frame depth max_shift = Ok (left_eye, right_eye)
      /\ (nrows left_eye = H /\ ncols left_eye = W)
      /\ (nrows right_eye = H /\ ncols right_eye = W)
      /\ (forall y c, (y < H)%nat -> (c < W)%nat ->
            at2 left_eye y c
            = Some (scattered frame (dest_left W (d y)) W y c)
            /\ at2 right_eye y c
               = Some (scattered frame (dest_right (d y)) W y c))
      /\ (forall y x, (y < H)%nat -> (x < W)%nat ->
            (exists x', (x <= x' < W)%nat
               /\ dest_left W (d y) x' = dest_left W (d y) x
               /\ at2 left_eye y (Z.to_nat (dest_left W (d y) x))
                  = at2 frame y x')
            /\ (exists x', (x <= x' < W)%nat
               /\ dest_right (d y) x' = dest_right (d y) x
               /\ at2 right_eye y (Z.to_nat (dest_right (d y) x))
                  = at2 frame y x')).
Proof.
  intros H W d Hwf Hdm Hok.
  assert (Hd0 : forall y x, 0 <= d y x)
    by (intros; apply pixel_shift_nonneg; exact Hok).
  split.
  { intros y x. split; [| apply Hd0].
    apply (pixel_shift_floor max_shift depth y x Hok). }
  destruct (scatter_same_shape frame depth max_shift Hwf Hdm Hok)
    as (L & R & Hs & HL & HR).
  exists L, R. split; [exact Hs |].
  pose proof (wf_img_has black frame Hwf) as Hf. fold H W in Hf.
  split; [split; [apply HL | apply HL] |].
  split; [split; [apply HR | apply HR] |].
  split.
  - intros y c Hy Hc. split; [apply HL | apply HR]; assumption.
  - intros y x Hy Hx. specialize (Hd0 y x).
    assert (HdL : 0 <= dest_left W (d y) x < Z.of_nat W)
      by (unfold dest_left; lia).
    assert (HdR : 0 <= dest_right (d y) x < Z.of_nat W)
      by (unfold dest_right; lia).
    split.
    + destruct (scattered_written frame (dest_left W (d y)) W y x Hx)
        as (x' & Hx' & Heq & Hv); [lia |].
      exists x'. repeat split; try lia; try assumption.
      rewrite (has_at _ _ _ _ HL y (Z.to_nat (dest_left W (d y) x))) by lia.
      rewrite (has_at _ _ _ _ Hf y x') by lia. f_equal.
      rewrite (has_at _ _ _ _ Hf y x') in Hv by lia. exact Hv.
    + destruct (scattered_written frame (dest_right (d y)) W y x Hx)
        as (x' & Hx' & Heq & Hv); [lia |].
      exists x'. repeat split; try lia; try assumption.
      rewrite (has_at _ _ _ _ HR y (Z.to_nat (dest_right (d y) x))) by lia.
      rewrite (has_at _ _ _ _ Hf y x') by lia. f_equal.
      rewrite (has_at _ _ _ _ Hf y x') in Hv by lia. exact Hv.
Qed.

Lemma scatter_writes_clamped_columns_witness :
  exists left_eye right_eye,
    scatter four_pixels (uniform_depth 1 4 Byte.x00) 2 = Ok (left_eye, right_eye).
Proof.
  destruct (scatter_writes_clamped_columns four_pixels
              (uniform_depth 1 4 Byte.x00) 2)
    as [_ (l & r & Hs & _)].
  - reflexivity.
  - repeat split.
  - lia.
  - exists l, r. exact Hs.
Defined.

(** With a negative [max_shift] the shift is negative, the right-eye target
    [max 0 (x - d)] leaves the image and the write raises [IndexError]: no
    pair of images is produced. *)
Lemma scatter_negative_max_shift_raises :
  wf two_pixels = true
  /\ depth_matches two_pixels (uniform_depth 1 2 Byte.x00)
  /\ pixel_shift (-1) (uniform_depth 1 2 Byte.x00) 0 1 = -1
  /\ dest_right (pixel_shift (-1) (uniform_depth 1 2 Byte.x00) 0) 1 = 2
  /\ scatter two_pixels (uniform_depth 1 2 Byte.x00) (-1) = Raise IndexError.
Proof. repeat split; vm_compute; reflexivity. Qed.

(** The shift is computed in float32: at depth 85/255 = 1/3 and
    [max_shift = 30] the product is rounded to just below 20 and truncated
    to 19. *)
Lemma pixel_shift_is_float32 :
  pixel_shift 30 (uniform_depth 1 1 Byte.x55) 0 0 = 19
  /\ Qfloor ((1 - (85 # 255)) * 30) = 20.
Proof. split; vm_compute; reflexivity. Qed.

(** ** Errors of the synthesizer *)

Lemma generate_of_scatter
    (inpaint : image -> array2 uint8 -> Z -> image) (frame : image)
    (depth : option (array2 uint8)) (max_shift : Z) :
  generate_stereo_from_depth_frame inpaint frame depth max_shift
  = match scatter frame depth max_shift with
    | Ok eyes => Ok (inpaint eyes.1 (hole_mask eyes.1) 3,
                     inpaint eyes.2 (hole_mask eyes.2) 3)
    | Raise e => Raise e
    end.
Proof.
  unfold generate_stereo_from_depth_frame.
  destruct (scatter frame depth max_shift); reflexivity.
Qed.

(** With a zero shift every pixel is written to its own column. *)
Lemma scattered_identity (frame : image) (W y c : nat) (dx0 : nat -> Z) :
  (forall x, dx0 x = 0) -> (c < W)%nat ->
  scattered frame (dest_left W dx0) W y c = default black (at2 frame y c)
  /\ scattered frame (dest_right dx0) W y c = default black (at2 frame y c).
Proof.
  intros Hz Hc. unfold scattered. split.
  - rewrite (proj2 (last_writer_Some (dest_left W dx0) W (Z.of_nat c) c));
      [reflexivity |].
    unfold dest_left. repeat split; [exact Hc | rewrite Hz; lia |].
    intros x' Hx'. rewrite Hz. lia.
  - rewrite (proj2 (last_writer_Some (dest_right dx0) W (Z.of_nat c) c));
      [reflexivity |].
    unfold dest_right. repeat split; [exact Hc | rewrite Hz; lia |].
    intros x' Hx'. rewrite Hz. lia.
Qed.

Lemma pixel_shift_no_depth (max_shift : Z) (y x : nat) :
  pixel_shift max_shift None y x = 0.
Proof. reflexivity. Qed.

(** C7 (amended). The synthesizer checks no shapes. For a well-formed frame,
    a well-formed 8-bit depth map and [0 <= max_shift <= 2^24] it raises
    exactly when the depth map has fewer rows than the frame, or fewer columns
    while the frame has a row, and the exception is then the [IndexError] of
    the array read; a depth map larger than the frame is accepted. With no
    depth map it does not fail: the uniform depth 1 gives a zero shift, both
    eye images are the frame itself before hole filling, and a stereo pair is
    returned. *)
Theorem generate_stereo_raises_iff_depth_smaller
    (inpaint : image -> array2 uint8 -> Z -> image) (frame : image)
    (d : array2 uint8) (max_shift : Z) :
  wf frame = true -> wf d = true -> 0 <= max_shift <= 2 ^ 24 ->
  (raises (generate_stereo_from_depth_frame inpaint frame (Some d) max_shift)
   <-> (nrows d < nrows frame
        \/ (0 < nrows frame /\ ncols d < ncols frame))%nat)
  /\ (raises (generate_stereo_from_depth_frame inpaint frame (Some d) max_shift)
      -> generate_stereo_from_depth_frame inpaint frame (Some d) max_shift
         = Raise IndexError)
  /\ (exists left_eye right_eye,
        scatter frame None max_shift = Ok (left_eye, right_eye)
        /\ (forall y c, (y < nrows frame)%nat -> (c < ncols frame)%nat ->
              at2 left_eye y c = at2 frame y c
              /\ at2 right_eye y c = at2 frame y c)
        /\ generate_stereo_from_depth_frame inpaint frame None max_shift
           = Ok (inpaint left_eye (hole_mask left_eye) 3,
                 inpaint right_eye (hole_mask right_eye) 3)).
Proof.
  intros Hwf Hdwf Hok.
  set (H := nrows frame). set (W := ncols frame).
  assert (Hcase : (nrows d < H \/ (0 < H /\ ncols d < W))%nat
                  \/ ((H <= nrows d)%nat /\ (W <= ncols d \/ H = 0)%nat)) by lia.
  assert (Hsome :
    (raises (generate_stereo_from_depth_frame inpaint frame (Some d) max_shift)
     <-> (nrows d < H \/ (0 < H /\ ncols d < W))%nat)
    /\ (raises (generate_stereo_from_depth_frame inpaint frame (Some d) max_shift)
        -> generate_stereo_from_depth_frame inpaint frame (Some d) max_shift
           = Raise IndexError)).
  { rewrite generate_of_scatter.
    destruct Hcase as [Hshort | [HH HW]].
    - rewrite (scatter_raises frame (Some d) max_shift Hwf Hdwf Hok Hshort).
      simpl. tauto.
    - destruct (scatter_ok frame (Some d) max_shift Hwf Hdwf Hok HH HW)
        as (L & R & -> & _). simpl. split; [| tauto].
      split; [tauto | lia]. }
  destruct Hsome as [Hiff Herr].
  split; [exact Hiff |]. split; [exact Herr |].
  destruct (scatter_ok frame None max_shift Hwf I Hok) as (L & R & Hs & HL & HR);
    [simpl; lia | simpl; lia |].
  exists L, R. split; [exact Hs |]. split.
  - intros y c Hy Hc.
    pose proof (wf_img_has black frame Hwf) as Hf.
    destruct (scattered_identity frame W y c (pixel_shift max_shift None y))
      as [HsL HsR]; [intros; apply pixel_shift_no_depth | exact Hc |].
    rewrite (has_at _ _ _ _ HL y c Hy Hc), (has_at _ _ _ _ HR y c Hy Hc).
    rewrite (has_at _ _ _ _ Hf y c Hy Hc).
    rewrite (has_at _ _ _ _ Hf y c Hy Hc) in HsL, HsR.
    split; f_equal; assumption.
  - rewrite generate_of_scatter, Hs. reflexivity.
Qed.

Lemma generate_stereo_raises_iff_depth_smaller_witness :
  raises (generate_stereo_from_depth_frame keep_image four_pixels
            (uniform_depth 1 3 Byte.x80) 2)
  <-> (1 < 1 \/ (0 < 1 /\ 3 < 4))%nat.
Proof.
  refine (proj1 (generate_stereo_raises_iff_depth_smaller keep_image four_pixels
                   (full 1 3 Byte.x80) 2 _ _ _)).
  - reflexivity.
  - reflexivity.
  - lia.
Defined.

(** A depth map of another shape than the frame, here a larger one, raises
    nothing; and when the synthesizer does raise, on a smaller one, the
    exception is [IndexError]. *)
Lemma generate_stereo_accepts_larger_depth :
  (nrows (full 2 2 Byte.x80) <> nrows one_pixel
   /\ ncols (full 2 2 Byte.x80) <> ncols one_pixel
   /\ ~ raises (generate_stereo_from_depth_frame keep_image one_pixel
                  (uniform_depth 2 2 Byte.x80) 2))
  /\ generate_stereo_from_depth_frame keep_image four_pixels
       (uniform_depth 1 3 Byte.x80) 2 = Raise IndexError.
Proof.
  split; [split; [| split] |].
  - simpl. lia.
  - simpl. lia.
  - vm_compute. tauto.
  - vm_compute. reflexivity.
Qed.

(** ** The hole mask *)

Lemma channel_sum_zero (p : pixel) : channel_sum p = 0%N <-> p = black.
Proof.
  destruct p as [[b g] r]. unfold channel_sum, black. simpl. split.
  - intros Hs.
    assert (Hb : Byte.to_N b = 0%N) by lia.
    assert (Hg : Byte.to_N g = 0%N) by lia.
    assert (Hr : Byte.to_N r = 0%N) by lia.
    assert (Hz : forall x, Byte.to_N x = 0%N -> x = Byte.x00).
    { intros x Hx. pose proof (Byte.of_to_N x) as E.
      rewrite Hx in E. simpl in E. congruence. }
    rewrite (Hz b Hb), (Hz g Hg), (Hz r Hr). reflexivity.
  - intros [= -> -> ->]. reflexivity.
Qed.

Lemma hole_mask_at (eye : image) (y c : nat) :
  at2 (hole_mask eye) y c
  = (fun p => if (channel_sum p =? 0)%N then Byte.x01 else Byte.x00)
      <$> at2 eye y c.
Proof.
  unfold at2, hole_mask. simpl.
  change (map (map (fun p => if (channel_sum p =? 0)%N then Byte.x01 else Byte.x00))
              (cells eye))
    with ((fmap (M := list) (fun p => if (channel_sum p =? 0)%N
                            then Byte.x01 else Byte.x00)) <$> cells eye).
  rewrite list_lookup_fmap.
  destruct (cells eye !! y) as [row |]; simpl; [| reflexivity].
  rewrite list_lookup_fmap. reflexivity.
Qed.

Lemma hole_mask_black (eye : image) (y c : nat) (p : pixel) :
  at2 eye y c = Some p ->
  (at2 (hole_mask eye) y c = Some Byte.x01 <-> p = black).
Proof.
  intros Hp. rewrite hole_mask_at, Hp. simpl.
  destruct (N.eqb_spec (channel_sum p) 0) as [Hz | Hnz].
  - rewrite channel_sum_zero in Hz. tauto.
  - rewrite channel_sum_zero in Hnz. split; [discriminate | contradiction].
Qed.

(** ** What the hole filling leaves alone *)

Lemma hole_mask_not_black (eye : image) (y c : nat) (p : pixel) :
  at2 eye y c = Some p -> p <> black ->
  at2 (hole_mask eye) y c = Some Byte.x00.
Proof.
  intros Hp Hnb. rewrite hole_mask_at, Hp. simpl.
  destruct (N.eqb_spec (channel_sum p) 0) as [Hz | Hnz]; [| reflexivity].
  apply channel_sum_zero in Hz. contradiction.
Qed.

(** A pixel that is not pure black passes the hole filling unchanged. *)
Lemma inpaint_keeps_non_black
    (inpaint : image -> array2 uint8 -> Z -> image) (eye : image)
    (y c : nat) (p : pixel) :
  inpaint_contract inpaint ->
  at2 eye y c = Some p -> p <> black ->
  at2 (inpaint eye (hole_mask eye) 3) y c = Some p.
Proof.
  intros Hin Hp Hnb.
  rewrite (keeps_unmarked inpaint Hin eye (hole_mask eye) 3 y c);
    [exact Hp | reflexivity | reflexivity |].
  apply (hole_mask_not_black eye y c p Hp Hnb).
Qed.

(** An image that is black throughout passes the hole filling unchanged. *)
Lemma inpaint_keeps_all_black
    (inpaint : image -> array2 uint8 -> Z -> image) (eye : image) :
  inpaint_contract inpaint -> all_black eye ->
  inpaint eye (hole_mask eye) 3 = eye.
Proof.
  intros Hin Hblack.
  apply (nothing_to_fill_from inpaint Hin); [reflexivity | reflexivity |].
  intros y c v Hv. rewrite hole_mask_at in Hv.
  destruct (at2 eye y c) as [p |] eqn:Hp; [| discriminate].
  rewrite (Hblack y c p Hp) in Hv. simpl in Hv. injection Hv as <-.
  discriminate.
Qed.

(** The cells of an image of known content. *)
Lemma img_has_inv {A : Type} (img : array2 A) (H W : nat)
    (f : nat -> nat -> A) (y c : nat) (v : A) :
  img_has img H W f -> at2 img y c = Some v ->
  (y < H)%nat /\ (c < W)%nat /\ v = f y c.
Proof.
  intros Hhas Hv. unfold at2 in Hv.
  destruct (cells img !! y) as [row |] eqn:Hrow; [| discriminate].
  simpl in Hv.
  assert (Hy : (y < H)%nat).
  { rewrite <- (has_len _ _ _ _ Hhas). apply lookup_lt_Some in Hrow.
    exact Hrow. }
  assert (Hc : (c < W)%nat).
  { rewrite <- (has_rows _ _ _ _ Hhas y row Hrow).
    apply lookup_lt_Some in Hv. exact Hv. }
  split; [exact Hy |]. split; [exact Hc |].
  pose proof (has_at _ _ _ _ Hhas y c Hy Hc) as Hat.
  unfold at2 in Hat. rewrite Hrow in Hat. simpl in Hat. congruence.
Qed.

(** Scattering a black frame gives black eye images. *)
Lemma scattered_black (frame : image) (dest : nat -> Z) (k y c : nat) :
  all_black frame -> scattered frame dest k y c = black.
Proof.
  intros Hblack. unfold scattered.
  destruct (last_writer dest k (Z.of_nat c)) as [x |]; [| reflexivity].
  destruct (at2 frame y x) as [p |] eqn:Hp; [| reflexivity].
  simpl. apply (Hblack y x p Hp).
Qed.

(** The hole filling of the examples keeps to the contract. *)
Lemma all_marked_true (mask : array2 uint8) :
  (forall y c v, at2 mask y c = Some v -> v <> Byte.x00) ->
  all_marked mask = true.
Proof.
  intros Hall. unfold all_marked.
  apply forallb_forall. intros row Hrow.
  apply forallb_forall. intros v Hv.
  apply list_elem_of_In, list_elem_of_lookup in Hrow as [y Hy].
  apply list_elem_of_In, list_elem_of_lookup in Hv as [c Hc].
  assert (Hat : at2 mask y c = Some v).
  { unfold at2, uint8 in *. rewrite Hy. exact Hc. }
  apply negb_true_iff.
  destruct (Byte.eqb v Byte.x00) eqn:E; [| reflexivity].
  apply Byte.byte_dec_bl in E. exfalso. apply (Hall y c v Hat E).
Qed.

Lemma fill_holes_contract : inpaint_contract fill_holes.
Proof.
  split.
  - intros img mask radius y c _ _ Hm. unfold fill_holes.
    destruct (all_marked mask); [reflexivity |].
    unfold at2 in *. cbn [cells].
    destruct (cells mask !! y) as [mask_row |] eqn:Hrow; [| discriminate].
    simpl in Hm. rewrite lookup_zip_with.
    destruct (cells img !! y) as [row |]; [| reflexivity].
    simpl. unfold uint8 in *. rewrite Hrow. simpl.
    rewrite lookup_zip_with.
    destruct (row !! c) as [px |]; [| reflexivity].
    simpl. rewrite Hm. reflexivity.
  - intros img mask radius _ _ Hall. unfold fill_holes.
    rewrite (all_marked_true mask Hall). reflexivity.
Qed.

(** C10 (amended). The hole mask of an eye image marks exactly the pixels
    whose three channels sum to zero, that is the pure-black ones. A
    destination cell whose surviving write carried a pure-black source
    pixel therefore holds the same value as a cell no column was sent to,
    both are marked, and the image returned is [cv2.inpaint] of the
    scattered image under that mask: the black source pixel is handed to
    the hole filling like a hole, in the left and in the right eye. Every
    pixel that is not pure black is returned as it was scattered, since
    [cv2.inpaint] leaves unmarked pixels alone. Black is not always
    replaced: when the frame is black throughout, both eye images are
    black throughout, every pixel is marked, there is nothing to fill
    from, and the black images are returned as they are. *)
Theorem black_pixels_are_inpainted_as_holes
    (inpaint : image -> array2 uint8 -> Z -> image) (frame : image)
    (depth : option (array2 uint8)) (max_shift : Z) :
  let H := nrows frame in
  let W := ncols frame in
  let d := pixel_shift max_shift depth in
  wf frame = true ->
  depth_matches frame depth ->
  0 <= max_shift <= 2 ^ 24 ->
  exists left_eye right_eye,
    scatter frame depth max_shift = Ok (left_eye, right_eye)
    /\ generate_stereo_from_depth_frame inpaint frame depth max_shift
       = Ok (inpaint left_eye (hole_mask left_eye) 3,
             inpaint right_eye (hole_mask right_eye) 3)
    /\ (forall eye, eye = left_eye \/ eye = right_eye ->
          forall y c p, at2 eye y c = Some p ->
            (at2 (hole_mask eye) y c = Some Byte.x01
             <-> channel_sum p = 0%N)
            /\ (channel_sum p = 0%N <-> p = black))
    /\ (forall y x c, (y < H)%nat -> (c < W)%nat ->
          at2 frame y x = Some black ->
          (last_writer (dest_left W (d y)) W (Z.of_nat c) = Some x ->
             at2 left_eye y c = Some black
             /\ at2 (hole_mask left_eye) y c = Some Byte.x01)
          /\ (last_writer (dest_right (d y)) W (Z.of_nat c) = Some x ->
             at2 right_eye y c = Some black
             /\ at2 (hole_mask right_eye) y c = Some Byte.x01))
    /\ (forall y c, (y < H)%nat -> (c < W)%nat ->
          (last_writer (dest_left W (d y)) W (Z.of_nat c) = None ->
             at2 left_eye y c = Some black
             /\ at2 (hole_mask left_eye) y c = Some Byte.x01)
          /\ (last_writer (dest_right (d y)) W (Z.of_nat c) = None ->
             at2 right_eye y c = Some black
             /\ at2 (hole_mask right_eye) y c = Some Byte.x01))
    /\ (inpaint_contract inpaint ->
        (forall eye, eye = left_eye \/ eye = right_eye ->
           forall y c p, at2 eye y c = Some p -> p <> black ->
             at2 (inpaint eye (hole_mask eye) 3) y c = Some p)
        /\ (all_black frame ->
            all_black left_eye /\ all_black right_eye
            /\ inpaint left_eye (hole_mask left_eye) 3 = left_eye
            /\ inpaint right_eye (hole_mask right_eye) 3 = right_eye)).
Proof.
  intros H W d Hwf Hdm Hok.
  destruct (scatter_same_shape frame depth max_shift Hwf Hdm Hok)
    as (L & R & Hs & HL & HR).
  assert (Hat : forall y c, (y < H)%nat -> (c < W)%nat ->
            at2 L y c = Some (scattered frame (dest_left W (d y)) W y c)
            /\ at2 R y c = Some (scattered frame (dest_right (d y)) W y c)).
  { intros y c Hy Hc. split; [apply HL | apply HR]; assumption. }
  exists L, R. split; [exact Hs |]. split.
  { rewrite generate_of_scatter, Hs. reflexivity. }
  split.
  { intros eye _ y c p Hp. split; [| apply channel_sum_zero].
    rewrite (hole_mask_black eye y c p Hp). symmetry. apply channel_sum_zero. }
  assert (Hmask : forall eye y c, at2 eye y c = Some black ->
            at2 (hole_mask eye) y c = Some Byte.x01).
  { intros eye y c Hb. apply (hole_mask_black eye y c black Hb). reflexivity. }
  split; [| split].
  - intros y x c Hy Hc Hblack.
    destruct (Hat y c Hy Hc) as [HLc HRc].
    unfold scattered in HLc, HRc. split; intros Hlw.
    + rewrite Hlw, Hblack in HLc. simpl in HLc. auto.
    + rewrite Hlw, Hblack in HRc. simpl in HRc. auto.
  - intros y c Hy Hc.
    destruct (Hat y c Hy Hc) as [HLc HRc].
    unfold scattered in HLc, HRc. split; intros Hlw.
    + rewrite Hlw in HLc. auto.
    + rewrite Hlw in HRc. auto.
  - intros Hin. split.
    + intros eye _ y c p Hp Hnb.
      apply inpaint_keeps_non_black; assumption.
    + intros Hblack.
      assert (HLb : all_black L).
      { intros y c p Hp.
        destruct (img_has_inv L H W _ y c p HL Hp) as (_ & _ & ->).
        apply scattered_black, Hblack. }
      assert (HRb : all_black R).
      { intros y c p Hp.
        destruct (img_has_inv R H W _ y c p HR Hp) as (_ & _ & ->).
        apply scattered_black, Hblack. }
      split; [exact HLb |]. split; [exact HRb |].
      split; apply inpaint_keeps_all_black; assumption.
Qed.

Lemma black_pixels_are_inpainted_as_holes_witness :
  exists left_eye right_eye,
    scatter black_second_pixel None 30 = Ok (left_eye, right_eye)
    /\ generate_stereo_from_depth_frame fill_holes black_second_pixel None 30
       = Ok (fill_holes left_eye (hole_mask left_eye) 3,
             fill_holes right_eye (hole_mask right_eye) 3)
    /\ at2 (fill_holes left_eye (hole_mask left_eye) 3) 0%nat 0%nat
       = Some (Byte.x01, Byte.x02, Byte.x03).
Proof.
  destruct (black_pixels_are_inpainted_as_holes fill_holes black_second_pixel
              None 30)
    as (l & r & Hs & Hg & _ & _ & _ & Hkept).
  - reflexivity.
  - exact I.
  - lia.
  - exists l, r. split; [exact Hs |]. split; [exact Hg |].
    destruct (Hkept fill_holes_contract) as [Hnb _].
    apply (Hnb l (or_introl eq_refl)); [| discriminate].
    vm_compute in Hs. injection Hs as <- <-. reflexivity.
Defined.

(** A frame that is black throughout comes back black throughout, in both
    eye images: its pure-black content is preserved verbatim. *)
Lemma black_frame_is_returned_verbatim :
  all_black black_frame
  /\ generate_stereo_from_depth_frame fill_holes black_frame None 30
     = Ok (black_frame, black_frame).
Proof.
  split.
  - intros y c p Hp.
    destruct y as [| [| y]]; destruct c as [| [| c]];
      vm_compute in Hp;
      first [discriminate | injection Hp as <-; reflexivity].
  - vm_compute. reflexivity.
Qed.

End StereoClaims.

(* ===================================================================== *)
(** * float32 rounding: powers of two and integers *)
(* ===================================================================== *)

Module Float32More.
Import Float32 Float32Facts.

#[local] Open Scope Q_scope.

(** Rounding to the nearest integer never passes an integer. *)
Lemma rne_le_int (q : Q) (n : Z) : q <= inject_Z n -> (rne q <= n)%Z.
Proof.
  intros Hq. unfold rne.
  pose proof (Qfloor_le q) as Hlo.
  assert (Hf : (Qfloor q <= n)%Z).
  { rewrite Zle_Qle. lra. }
  assert (Hup : 0 < q - inject_Z (Qfloor q) -> (Qfloor q + 1 <= n)%Z).
  { intros Hfrac. assert (Hlt : (Qfloor q < n)%Z) by (rewrite Zlt_Qlt; lra).
    lia. }
  destruct (Qcompare (q - inject_Z (Qfloor q)) (1 # 2)) eqn:Hc.
  - apply Qeq_alt in Hc. destruct (Z.even (Qfloor q)); [exact Hf |].
    apply Hup. lra.
  - exact Hf.
  - apply Qgt_alt in Hc. apply Hup. lra.
Qed.

Lemma rne_int (n : Z) : rne (inject_Z n) = n.
Proof.
  unfold rne. rewrite Qfloor_Z.
  destruct (Qcompare (inject_Z n - inject_Z n) (1 # 2)) eqn:Hc.
  - apply Qeq_alt in Hc. lra.
  - reflexivity.
  - apply Qgt_alt in Hc. lra.
Qed.

Lemma pow2_mono (a b : Z) : (a <= b)%Z -> pow2 a <= pow2 b.
Proof. intros H. unfold pow2. apply Qpower_le_compat_l; [exact H | lra]. Qed.

Lemma pow2_mono_inv (a b : Z) : pow2 a <= pow2 b -> (a <= b)%Z.
Proof.
  intros H. unfold pow2 in H. eapply Qpower_le_compat_l_inv; [exact H | lra].
Qed.

Lemma pow2_inject (n : Z) : (0 <= n)%Z -> pow2 n == inject_Z (2 ^ n).
Proof. intros Hn. unfold pow2. rewrite Zpower_Qpower by exact Hn. reflexivity. Qed.

Lemma pow2_plus (a b : Z) : pow2 (a + b) == pow2 a * pow2 b.
Proof. unfold pow2. apply Qpower_plus. lra. Qed.

Lemma pow2_opp (a : Z) : pow2 (- a) == / pow2 a.
Proof. unfold pow2. apply Qpower_opp. Qed.

(** [ilog2] does not overshoot. *)
Lemma ilog2_low (q : Q) : 0 < q -> pow2 (ilog2 q) <= q.
Proof.
  intros Hq. unfold ilog2.
  set (a := Z.log2 (Qnum q)). set (b := Z.log2 (Z.pos (Qden q))).
  destruct (Qle_bool (pow2 (a - b)) q) eqn:Hk.
  - apply Qle_bool_imp_le, Hk.
  - destruct q as [num den]. cbn [Qnum Qden] in *.
    assert (Hnum : (0 < num)%Z).
    { unfold Qlt in Hq. cbn in Hq. lia. }
    pose proof (Z.log2_spec num Hnum) as [Hna _]. fold a in Hna.
    pose proof (Z.log2_spec (Z.pos den) (Pos2Z.is_pos den)) as [_ Hdb].
    fold b in Hdb.
    pose proof (Z.log2_nonneg num) as Ha0. fold a in Ha0.
    pose proof (Z.log2_nonneg (Z.pos den)) as Hb0. fold b in Hb0.
    replace (a - b - 1)%Z with (a + - (b + 1))%Z by lia.
    rewrite pow2_plus, pow2_opp, (pow2_inject a Ha0),
      (pow2_inject (b + 1)) by lia.
    replace (Z.succ b) with (b + 1)%Z in Hdb by lia.
    assert (Hq' : num # den == inject_Z num / inject_Z (Z.pos den)).
    { rewrite Qmake_Qdiv. reflexivity. }
    rewrite Hq'.
    assert (H1 : inject_Z (2 ^ a) <= inject_Z num) by (rewrite <- Zle_Qle; exact Hna).
    assert (H2 : inject_Z (Z.pos den) < inject_Z (2 ^ (b + 1)))
      by (rewrite <- Zlt_Qlt; exact Hdb).
    assert (H3 : 0 < inject_Z (Z.pos den)) by (rewrite <- (Zlt_Qlt 0); lia).
    assert (H4 : 0 <= inject_Z (2 ^ a)).
    { rewrite <- (Zle_Qle 0). apply Z.pow_nonneg. lia. }
    apply Qle_shift_div_l; [exact H3 |].
    set (A := inject_Z (2 ^ a)) in *. set (T := inject_Z (2 ^ (b + 1))) in *.
    set (D := inject_Z (Z.pos den)) in *.
    assert (Hx : D / T <= 1) by (apply Qle_shift_div_r; lra).
    assert (Hy : A * / T * D == D / T * A) by (field; lra).
    assert (Hz : D / T * A <= 1 * A) by (apply Qmult_le_compat_r; assumption).
    lra.
Qed.

(** Rounding a positive value never passes an integer that float32 holds
    exactly. *)
Lemma round_pos_le_int (q : Q) (m : Z) :
  0 < q -> q <= inject_Z m -> (m <= 2 ^ 24)%Z -> round_pos q <= inject_Z m.
Proof.
  intros Hq Hle Hm. unfold round_pos. rewrite Qred_correct.
  set (e := Z.max (ilog2 q - 23) (-149)).
  pose proof (pow2_pos e) as Hp. pose proof (ilog2_low q Hq) as Hlow.
  assert (Hn : exists n : Z, inject_Z n == inject_Z m / pow2 e).
  { destruct (Z.le_gt_cases e 0) as [He | He].
    - exists (m * 2 ^ (- e))%Z.
      rewrite inject_Z_mult, <- (pow2_inject (- e)) by lia.
      rewrite pow2_opp. field. lra.
    - assert (H24 : (24 <= ilog2 q)%Z) by lia.
      pose proof (pow2_mono 24 (ilog2 q) H24) as Hmono.
      assert (Hp24 : pow2 24 == inject_Z (2 ^ 24)) by (apply pow2_inject; lia).
      assert (Hm24 : (2 ^ 24 <= m)%Z) by (rewrite Zle_Qle; lra).
      assert (Em : m = (2 ^ 24)%Z) by lia.
      assert (Hq24 : q <= pow2 24) by (rewrite Hp24, <- Em; exact Hle).
      assert (Hi : (ilog2 q <= 24)%Z).
      { apply pow2_mono_inv. lra. }
      assert (Ee : e = 1%Z) by lia.
      exists (2 ^ 23)%Z. rewrite Ee, Em. reflexivity. }
  destruct Hn as [n Hn].
  assert (Hdiv : q / pow2 e <= inject_Z n).
  { rewrite Hn. apply Qmult_le_compat_r; [exact Hle |].
    apply Qlt_le_weak, Qinv_lt_0_compat, Hp. }
  pose proof (rne_le_int _ _ Hdiv) as Hr. rewrite Zle_Qle in Hr.
  assert (H1 : inject_Z (rne (q / pow2 e)) * pow2 e <= inject_Z n * pow2 e).
  { apply Qmult_le_compat_r; [exact Hr | lra]. }
  assert (H2 : inject_Z n * pow2 e == inject_Z m).
  { rewrite Hn. field. lra. }
  lra.
Qed.

Lemma round_le_int (q : Q) (m : Z) :
  0 <= q -> q <= inject_Z m -> (m <= 2 ^ 24)%Z -> round q <= inject_Z m.
Proof.
  intros Hq Hle Hm. unfold round.
  destruct (Qcompare q 0) eqn:Hc.
  - lra.
  - apply Qlt_alt in Hc. lra.
  - apply Qgt_alt in Hc. apply round_pos_le_int; assumption.
Qed.

Lemma round_zero (q : Q) : q == 0 -> round q = 0.
Proof.
  intros Hq. unfold round. apply Qeq_alt in Hq. rewrite Hq. reflexivity.
Qed.

End Float32More.

(* ===================================================================== *)
(** * Anaglyph: which channel ends where *)
(* ===================================================================== *)

Module AnaglyphFacts.
Import Image Anaglyph AnaglyphDefs.

Lemma assign_channel_same_shape (dst : image) (k : channel) (src : image)
    (j : channel) :
  nrows src = nrows dst -> ncols src = ncols dst ->
  exists dst',
    assign_channel dst k src j = Ok dst'
    /\ nrows dst' = nrows dst /\ ncols dst' = ncols dst
    /\ forall y x p q, at2 dst y x = Some p -> at2 src y x = Some q ->
         at2 dst' y x = Some (set_channel k (get_channel j q) p).
Proof.
  intros Hr Hc. unfold assign_channel, broadcastable, broadcast_at.
  rewrite Hr, Hc, !Nat.eqb_refl. simpl.
  eexists. split; [reflexivity |]. split; [reflexivity |]. split; [reflexivity |].
  intros y x p q Hp Hq. unfold at2 in *. simpl.
  rewrite list_lookup_imap.
  destruct (cells dst !! y) as [row |]; [| discriminate]. simpl in *.
  rewrite list_lookup_imap, Hp. simpl. rewrite Hq. reflexivity.
Qed.

(** What lines 33-36 build from two images of one shape: index 0 holds the
    left image's index 2, index 1 the right image's index 1, index 2 the
    right image's index 0. *)
Lemma anaglyph_array_channels (left right : image) :
  nrows right = nrows left -> ncols right = ncols left ->
  wf left = true ->
  exists anaglyph,
    anaglyph_array left right = Ok anaglyph
    /\ forall y x pl pr, at2 left y x = Some pl -> at2 right y x = Some pr ->
         at2 anaglyph y x
         = Some (get_channel Ch2 pl, get_channel Ch1 pr, get_channel Ch0 pr).
Proof.
  intros Hr Hc Hwf. unfold anaglyph_array.
  destruct (assign_channel_same_shape (zeros_like left) Ch0 left Ch2)
    as (a0 & -> & Hr0 & Hc0 & H0); [reflexivity | reflexivity |].
  simpl.
  destruct (assign_channel_same_shape a0 Ch1 right Ch1)
    as (a1 & -> & Hr1 & Hc1 & H1);
    [rewrite Hr0; exact Hr | rewrite Hc0; exact Hc |].
  simpl.
  destruct (assign_channel_same_shape a1 Ch2 right Ch0)
    as (a2 & -> & Hr2 & Hc2 & H2);
    [rewrite Hr1, Hr0; exact Hr | rewrite Hc1, Hc0; exact Hc |].
  exists a2. split; [reflexivity |].
  intros y x pl pr Hpl Hpr.
  assert (Hz : at2 (zeros_like left) y x = Some black).
  { destruct (StereoFacts.wf_rows left Hwf) as [Hlen Hrows].
    unfold at2 in Hpl.
    destruct (cells left !! y) as [row |] eqn:Hrow; [| discriminate].
    simpl in Hpl.
    apply (StereoDefs.has_at _ _ _ _ (StereoFacts.full_has (nrows left) (ncols left) black)).
    - rewrite <- Hlen. apply lookup_lt_is_Some. eauto.
    - rewrite <- (Hrows y row Hrow). apply lookup_lt_is_Some. eauto. }
  rewrite (H2 y x _ pr (H1 y x _ pr (H0 y x _ pl Hz Hpl) Hpr) Hpr).
  reflexivity.
Qed.

(** C4, at the failing input. The left image is pure red and the right one
    black; the file written holds the left red value at index 0, which
    [cv2.imwrite] takes for blue, and its red channel is the right image's
    blue channel, 0, not the left image's red channel, 255. *)
Theorem anaglyph_red_comes_out_blue :
  create_anaglyph_from_stereo true
    {["left.png" := red_left; "right.png" := black_right]}
    "left.png" "right.png" "out.png"
  = (true, {["out.png" := blue_out; "left.png" := red_left;
             "right.png" := black_right]})
  /\ (get_channel cv_red <$> at2 red_left 0 0) = Some Byte.xff
  /\ (get_channel cv_red <$> at2 blue_out 0 0) = Some Byte.x00
  /\ (get_channel cv_blue <$> at2 blue_out 0 0) = Some Byte.xff.
Proof. repeat split; vm_compute; reflexivity. Qed.

End AnaglyphFacts.

(* ===================================================================== *)
(** * Rounding: values that are kept as they are *)
(* ===================================================================== *)

Module Float64Facts.
Import Float32 Float32Facts Float32More Float64.

#[local] Open Scope Q_scope.

Lemma rne_eq_int (q : Q) (n : Z) : q == inject_Z n -> rne q = n.
Proof.
  intros H. unfold rne. rewrite (Qfloor_comp _ _ H), Qfloor_Z.
  destruct (Qcompare (q - inject_Z n) (1 # 2)) eqn:Hc.
  - apply Qeq_alt in Hc. lra.
  - reflexivity.
  - apply Qgt_alt in Hc. lra.
Qed.

Lemma pow2_lt_inv (a b : Z) : pow2 a < pow2 b -> (a < b)%Z.
Proof.
  intros H. destruct (Z.lt_ge_cases a b) as [Hlt | Hge]; [exact Hlt |].
  pose proof (pow2_mono b a Hge). lra.
Qed.

(** A positive multiple [mz * 2^e] of a power of two with [mz] below
    [2^(p+1)] lies on the grid of the format with [p + 1] significant bits
    and smallest step [2^emin]. *)
Lemma on_grid (p emin mz e : Z) (q : Q) :
  (0 <= p)%Z -> (0 < mz < 2 ^ (p + 1))%Z -> (emin <= e)%Z ->
  q == inject_Z mz * pow2 e ->
  0 < q /\ q < pow2 (p + 1 + e)
  /\ inject_Z (rne (q / pow2 (Z.max (ilog2 q - p) emin)))
     * pow2 (Z.max (ilog2 q - p) emin) == q.
Proof.
  intros Hp [Hm0 Hm1] He Hq.
  pose proof (pow2_pos e) as Hpe.
  assert (Hmz : 0 < inject_Z mz) by (rewrite <- (Zlt_Qlt 0); exact Hm0).
  assert (Hq0 : 0 < q).
  { rewrite Hq. apply Qmult_lt_0_compat; assumption. }
  assert (Hlt : q < pow2 (p + 1 + e)).
  { rewrite Hq, pow2_plus, (pow2_inject (p + 1)) by lia.
    apply Qmult_lt_compat_r; [exact Hpe |]. rewrite <- Zlt_Qlt. exact Hm1. }
  split; [exact Hq0 |]. split; [exact Hlt |].
  pose proof (ilog2_low q Hq0) as Hlow.
  assert (Hi : (ilog2 q < p + 1 + e)%Z) by (apply pow2_lt_inv; lra).
  set (E := Z.max (ilog2 q - p) emin).
  assert (HE : (E <= e)%Z) by lia.
  pose proof (pow2_pos E) as HpE.
  assert (Hsplit : pow2 e == inject_Z (2 ^ (e - E)) * pow2 E).
  { rewrite <- (pow2_inject (e - E)) by lia.
    rewrite <- pow2_plus. replace (e - E + E)%Z with e by lia. reflexivity. }
  assert (Hd : q / pow2 E == inject_Z (mz * 2 ^ (e - E))).
  { rewrite inject_Z_mult, Hq, Hsplit. field. lra. }
  rewrite (rne_eq_int _ _ Hd). rewrite inject_Z_mult, Hq, Hsplit. ring.
Qed.

Lemma Qred_idem (q : Q) : Qred (Qred q) = Qred q.
Proof. apply Qred_complete, Qred_correct. Qed.

Lemma Qred_inject_Z (z : Z) : Qred (inject_Z z) = inject_Z z.
Proof.
  unfold Qred, inject_Z.
  pose proof (Z.ggcd_gcd z 1) as Hg.
  pose proof (Z.ggcd_correct_divisors z 1) as Hd.
  destruct (Z.ggcd z 1) as [g [a b]]. cbn [fst] in Hg.
  rewrite Z.gcd_1_r in Hg. subst g. destruct Hd as [Ha Hb].
  assert (Ea : a = z) by lia. assert (Eb : b = 1%Z) by lia.
  subst a b. reflexivity.
Qed.

(** ** float32 *)


(** ** float64 *)

Lemma round_pos_exact (q : Q) (mz e : Z) :
  (0 < mz < 2 ^ 53)%Z -> (-1074 <= e <= 971)%Z ->
  q == inject_Z mz * pow2 e ->
  Float64.round_pos q = Fin (Qred q).
Proof.
  intros Hm He Hq. unfold Float64.round_pos.
  destruct (on_grid 52 (-1074) mz e q) as (Hq0 & Hlt & Hgrid);
    [lia | lia | lia | exact Hq |].
  cbv zeta.
  set (r := inject_Z (rne (q / pow2 (Z.max (ilog2 q - 52) (-1074))))
            * pow2 (Z.max (ilog2 q - 52) (-1074))) in *.
  assert (Hsmall : Qle_bool (pow2 1024) r = false).
  { destruct (Qle_bool (pow2 1024) r) eqn:Hb; [| reflexivity].
    apply Qle_bool_imp_le in Hb.
    pose proof (pow2_mono (52 + 1 + e) 1024 ltac:(lia)). lra. }
  rewrite Hsmall. f_equal. apply Qred_complete, Hgrid.
Qed.

Lemma round_exact (q : Q) (mz e : Z) :
  (0 <= mz < 2 ^ 53)%Z -> (-1074 <= e <= 971)%Z ->
  q == inject_Z mz * pow2 e ->
  Float64.round q = Fin (Qred q).
Proof.
  intros [Hm0 Hm1] He Hq. unfold Float64.round. cbv zeta.
  destruct (Z.eq_dec mz 0%Z) as [-> | Hnz].
  - assert (Hz : q == 0) by (rewrite Hq; ring).
    rewrite (Qred_complete q 0 Hz). reflexivity.
  - assert (Hq' : Qred q == inject_Z mz * pow2 e)
      by (rewrite Qred_correct; exact Hq).
    destruct (on_grid 52 (-1074) mz e (Qred q)) as (Hq0 & _ & _);
      [lia | lia | lia | exact Hq' |].
    apply Qgt_alt in Hq0. rewrite Hq0.
    rewrite (round_pos_exact (Qred q) mz e) by (try lia; exact Hq').
    rewrite Qred_idem. reflexivity.
Qed.


Lemma pow2_0 : pow2 0 == 1.
Proof. reflexivity. Qed.

Lemma pow2_m1 : pow2 (-1) == 1 # 2.
Proof. reflexivity. Qed.

Lemma of_Z_exact (z : Z) :
  (0 <= z < 2 ^ 53)%Z -> Float64.of_Z z = Fin (inject_Z z).
Proof.
  intros Hz. unfold Float64.of_Z.
  rewrite (round_exact (inject_Z z) z 0); [| exact Hz | lia |].
  - rewrite Qred_inject_Z. reflexivity.
  - rewrite pow2_0. ring.
Qed.

Lemma of_nat_exact (n : nat) :
  (Z.of_nat n < 2 ^ 53)%Z -> Float64.of_nat n = Fin (inject_Z (Z.of_nat n)).
Proof. intros Hn. apply of_Z_exact. lia. Qed.

(** Halving an integer below [2^53] is exact. *)
Lemma half_exact (z : Z) :
  (0 <= z < 2 ^ 53)%Z ->
  Float64.div (Fin (inject_Z z)) (Fin 2) = Fin (Qred (inject_Z z / 2)).
Proof.
  intros Hz. unfold Float64.div.
  change (Qcompare 2 0) with Gt. cbv iota.
  apply (round_exact _ z (-1)); [exact Hz | lia |].
  rewrite pow2_m1. field.
Qed.




(** A product with a factor that is not finite is not finite, nor is a
    quotient of such a value or a sum with it. *)
Lemma mul_not_finite (x y : f64) :
  ProjectionDefs.is_finite y = false ->
  ProjectionDefs.is_finite (Float64.mul x y) = false.
Proof.
  destruct y as [b | | |]; [discriminate | | |]; intros _;
    destruct x as [a | | |]; try reflexivity;
    unfold Float64.mul, signed; destruct (Qcompare a 0); reflexivity.
Qed.

Lemma div_not_finite (x y : f64) :
  ProjectionDefs.is_finite x = false ->
  ProjectionDefs.is_finite (Float64.div x y) = false.
Proof.
  destruct x as [a | | |]; [discriminate | | |]; intros _;
    destruct y as [b | | |]; try reflexivity;
    unfold Float64.div; destruct (Qcompare b 0); reflexivity.
Qed.

Lemma add_not_finite (x y : f64) :
  ProjectionDefs.is_finite x = false ->
  ProjectionDefs.is_finite (Float64.add x y) = false.
Proof.
  destruct x as [a | | |]; [discriminate | | |]; intros _;
    destruct y as [b | | |]; reflexivity.
Qed.

(** A value that is not finite lies in no interval [[0, y)]. *)
Lemma not_finite_out_of_range (x y : f64) :
  ProjectionDefs.is_finite x = false ->
  (Float64.le (Fin 0) x && Float64.lt x y)%bool = false.
Proof.
  destruct x as [a | | |]; [discriminate | | |]; intros _;
    destruct y; reflexivity.
Qed.

End Float64Facts.

(* ===================================================================== *)
(** * Projection: the centre of the output *)
(* ===================================================================== *)

Module ProjectionFacts.
Import Image Float64 Projection ProjectionDefs Float64Facts.

#[local] Open Scope Q_scope.

Lemma tabulate_at {A : Type} (h w : nat) (f : nat -> nat -> A) (y x : nat) :
  (y < h)%nat -> (x < w)%nat -> at2 (tabulate h w f) y x = Some (f y x).
Proof.
  intros Hy Hx. unfold at2, tabulate. simpl.
  change (map (fun y0 => map (fun x0 => f y0 x0) (seq 0 w)) (seq 0 h))
    with ((fun y0 => map (fun x0 => f y0 x0) (seq 0 w)) <$> seq 0 h).
  rewrite list_lookup_fmap, lookup_seq_lt by exact Hy. simpl.
  change (map (fun x0 => f y x0) (seq 0 w)) with ((fun x0 => f y x0) <$> seq 0 w).
  rewrite list_lookup_fmap, lookup_seq_lt by exact Hx. reflexivity.
Qed.

Lemma zip_rows_at {A B C : Type} (f : A -> B -> C) (la : list (list A))
    (lb : list (list B)) (h w ha wa hb wb : nat) (y x : nat) (va : A) (vb : B) :
  at2 {| nrows := ha; ncols := wa; cells := la |} y x = Some va ->
  at2 {| nrows := hb; ncols := wb; cells := lb |} y x = Some vb ->
  at2 {| nrows := h; ncols := w; cells := zip_rows f la lb |} y x
  = Some (f va vb).
Proof.
  unfold at2, zip_rows. simpl. intros Ha Hb.
  rewrite lookup_zip_with.
  destruct (la !! y) as [ra |]; [| discriminate].
  destruct (lb !! y) as [rb |]; [| discriminate].
  simpl in *. rewrite lookup_zip_with, Ha, Hb. reflexivity.
Qed.

Lemma tabulate_cells_at {A : Type} (h w h' w' : nat) (f : nat -> nat -> A)
    (y x : nat) :
  (y < h)%nat -> (x < w)%nat ->
  at2 {| nrows := h'; ncols := w'; cells := cells (tabulate h w f) |} y x
  = Some (f y x).
Proof. intros Hy Hx. apply (tabulate_at h w f y x Hy Hx). Qed.


(** The output of the projection, cell by cell, when [cv2.remap] takes the
    tables. *)
Lemma projected_with_tables (m : libm) (sample : image -> Q -> Q -> pixel)
    (accepts : nat -> nat -> nat -> nat -> bool) (img : image)
    (ow oh : nat) (focal : f64) (w h : nat) (output_width : nat)
    (field_of_view : Q) :
  accepts oh ow (nrows img) (ncols img) = true ->
  exists out,
    flat_to_vr180_spherical_optimized m sample accepts img output_width
      field_of_view (Some (create_mapping_arrays m ow oh focal w h)) = Ok out
    /\ nrows out = oh /\ ncols out = ow
    /\ length (cells out) = oh
    /\ forall y x, (y < oh)%nat -> (x < ow)%nat ->
         let e := mapping_entry m ow oh focal w h y x in
         at2 out y x = Some (if e.2 then sample img e.1.1 e.1.2 else black).
Proof.
  intros Hacc.
  unfold flat_to_vr180_spherical_optimized, create_mapping_arrays,
    mask_invalid, same_shape, remap.
  cbn -[Nat.div Nat.mul tabulate zip_rows].
  change (nrows (tabulate oh ow ?f)) with oh.
  change (ncols (tabulate oh ow ?f)) with ow.
  rewrite Hacc. cbn -[Nat.div Nat.mul tabulate zip_rows].
  rewrite !Nat.eqb_refl. cbn -[Nat.div Nat.mul tabulate zip_rows].
  eexists. split; [reflexivity |]. cbn -[Nat.div Nat.mul tabulate zip_rows].
  split; [reflexivity |]. split; [reflexivity |]. split.
  - unfold zip_rows, tabulate. cbn [cells].
    rewrite !length_zip_with, !length_map, !length_seq. lia.
  - intros y x Hy Hx. set (e := mapping_entry m ow oh focal w h y x).
    rewrite (zip_rows_at (fun (p : pixel) (v : bool) => if v then p else black)
               _ _ _ _ 0 0 0 0 y x (sample img e.1.1 e.1.2) e.2).
    + reflexivity.
    + rewrite (zip_rows_at (sample img) _ _ 0 0 0 0 0 0 y x e.1.1 e.1.2).
      * reflexivity.
      * rewrite tabulate_cells_at by assumption. reflexivity.
      * rewrite tabulate_cells_at by assumption. reflexivity.
    + rewrite tabulate_cells_at by assumption. reflexivity.
Qed.






(** With a focal length that is not finite no entry is valid. *)
Lemma mapping_entry_not_finite (m : libm) (ow oh : nat) (focal : f64)
    (w h y x : nat) :
  is_finite focal = false ->
  mapping_entry m ow oh focal w h y x = (0, 0, false).
Proof.
  intros Hf. unfold mapping_entry.
  destruct (lt (Fin 0) (z_dir m (latitude oh y) (longitude ow x)));
    [| reflexivity].
  rewrite not_finite_out_of_range; [reflexivity |].
  apply add_not_finite, div_not_finite, mul_not_finite, Hf.
Qed.




End ProjectionFacts.

(* ===================================================================== *)
(** * The run: global frame numbering *)
(* ===================================================================== *)

Module PipelineFacts.
Import Pipeline PipelineDefs.

Lemma png_files_present {File : Type} (d : gmap string File) (f : string) :
  f ∈ png_files d -> is_Some (d !! f).
Proof.
  unfold png_files, sorted, listdir. rewrite merge_sort_Permutation.
  rewrite list_elem_of_filter. intros [_ Hin].
  apply list_elem_of_fmap in Hin as [[k v] [-> Hkv]].
  apply elem_of_map_to_list in Hkv. simpl. eauto.
Qed.

Section Assembly.
Context {File : Type}.
Variable W : world File.

Local Abbreviation frames_inv := (@PipelineDefs.frames_inv File).
Local Abbreviation keeps_frames := (@PipelineDefs.keeps_frames File).
Local Abbreviation hls_block := (PipelineDefs.hls_block W).

Lemma bindM_ok {A B : Type} (m : M File A) (k : A -> M File B)
    (s s1 : run_state File) (a : A) :
  m s = (Ok a, s1) -> bindM m k s = k a s1.
Proof. intros Hm. unfold bindM. rewrite Hm. reflexivity. Qed.

Lemma bindM_raise {A B : Type} (m : M File A) (k : A -> M File B)
    (s s1 : run_state File) (e : py_exception) :
  m s = (Raise e, s1) -> bindM m k s = (Raise e, s1).
Proof. intros Hm. unfold bindM. rewrite Hm. reflexivity. Qed.

Lemma copy_frame_inv (d : gmap string File) (f : string) (s : run_state File)
    (n : Z) :
  is_Some (d !! f) -> frames_inv s n ->
  exists s', copy_frame d f s = (Ok tt, s') /\ frames_inv s' (n + 1).
Proof.
  intros [c Hc] [Hn H0 Hd]. unfold copy_frame, bindM, lift, modify.
  rewrite Hc. simpl. eexists. split; [reflexivity |].
  split; simpl.
  - lia.
  - lia.
  - rewrite dom_insert_L, Hd, Hn.
    rewrite VideoReaderFacts.seqZ_snoc by lia.
    rewrite fmap_app, list_to_set_app_L.
    change (PyStr.frame_name <$> [0 + n]) with [PyStr.frame_name (0 + n)].
    rewrite list_to_set_singleton_L, Z.add_0_l. apply (comm_L (∪)).
Qed.

Lemma copy_frames_inv (d : gmap string File) (l : list string) :
  (forall f, f ∈ l -> is_Some (d !! f)) ->
  forall (s : run_state File) (n : Z),
    frames_inv s n ->
    exists s', for_each (copy_frame d) l s = (Ok tt, s')
               /\ frames_inv s' (n + Z.of_nat (length l)).
Proof.
  induction l as [| f l IH]; intros Hin s n Hinv; simpl.
  - exists s. split; [reflexivity |].
    replace (n + Z.of_nat 0) with n by lia. exact Hinv.
  - destruct (copy_frame_inv d f s n) as (s1 & Hs1 & Hinv1);
      [apply Hin; left | exact Hinv |].
    destruct (IH (fun g Hg => Hin g (list_elem_of_further _ _ _ Hg)) s1 (n + 1) Hinv1)
      as (s' & Hs' & Hinv').
    exists s'. unfold bindM. rewrite Hs1. split; [exact Hs' |].
    replace (n + Z.of_nat (S (length l))) with (n + 1 + Z.of_nat (length l)) by lia.
    exact Hinv'.
Qed.

Lemma print_keeps_frames (l : log_line) : keeps_frames (print l).
Proof. intros s. split; reflexivity. Qed.

Lemma record_keeps_frames (ev : event) : keeps_frames (record ev).
Proof. intros s. split; reflexivity. Qed.

Lemma run_tool_keeps_frames (j : job) : keeps_frames (run_tool W j).
Proof. intros s. unfold run_tool, bindM, record, modify, lift. simpl. split; reflexivity. Qed.

Lemma frames_to_segment_keeps_frames (j : job) (d : gmap string File) :
  keeps_frames (frames_to_segment W j d).
Proof.
  intros s. unfold frames_to_segment.
  destruct (png_files d); [split; reflexivity | apply run_tool_keeps_frames].
Qed.

Lemma add_to_stream_keeps_frames (j : job) : keeps_frames (add_to_stream W j).
Proof.
  intros s. unfold add_to_stream, bindM, record, modify. simpl.
  destruct (Streaming.add_batch_to_hls (hls_outcome W j) (stream s)).
  split; reflexivity.
Qed.

Lemma add_to_final_hls_keeps_frames (j : job) :
  keeps_frames (add_to_final_hls W j).
Proof.
  intros s. unfold add_to_final_hls, bindM, record, modify. simpl.
  destruct (Streaming.add_batch_to_hls (hls_outcome W j) (final_hls s)).
  split; reflexivity.
Qed.

Lemma bindM_keeps_frames (m k : M File unit) :
  keeps_frames m -> keeps_frames k -> keeps_frames (bindM m (fun _ => k)).
Proof.
  intros Hm Hk s. unfold bindM. specialize (Hm s).
  destruct (m s) as [[[] | e] s1]; simpl in *.
  - destruct (Hk s1) as [H1 H2]. rewrite H1, H2. exact Hm.
  - exact Hm.
Qed.

Lemma try_except_keeps_frames (body : M File unit)
    (handler : py_exception -> M File unit) :
  keeps_frames body -> (forall e, keeps_frames (handler e)) ->
  keeps_frames (try_except body handler).
Proof.
  intros Hb Hh s. unfold try_except. specialize (Hb s).
  destruct (body s) as [[[] | e] s1]; simpl in *.
  - exact Hb.
  - destruct (Hh e s1) as [H1 H2]. rewrite H1, H2. exact Hb.
Qed.

Lemma hls_block_returns (i : nat) (d : gmap string File) (s : run_state File) :
  (hls_block i d s).1 = Ok tt.
Proof.
  unfold hls_block, try_except.
  destruct (bindM _ _ s) as [[[] | e] s1]; reflexivity.
Qed.

Lemma hls_block_keeps_frames (i : nat) (d : gmap string File) :
  keeps_frames (hls_block i d).
Proof.
  apply try_except_keeps_frames.
  - apply bindM_keeps_frames;
      [apply frames_to_segment_keeps_frames | apply add_to_stream_keeps_frames].
  - intros e. apply print_keeps_frames.
Qed.

Lemma frames_inv_keeps (m : M File unit) (s : run_state File) (n : Z) :
  keeps_frames m -> frames_inv s n -> frames_inv (m s).2 n.
Proof.
  intros Hm [Hn H0 Hd]. destruct (Hm s) as [Ha Hx].
  split; [congruence | exact H0 | congruence].
Qed.

Lemma assemble_batch_inv (i : nat) (b : VideoReader.batch)
    (d : gmap string File) (s : run_state File) (n : Z) :
  process_batch W i b = Ok d -> frames_inv s n ->
  exists s', assemble_batch W (i, b) s = (Ok tt, s')
             /\ frames_inv s' (n + Z.of_nat (length (png_files d))).
Proof.
  intros Hpb Hinv. unfold assemble_batch.
  set (s1 := {| all_frames := all_frames s; next_index := next_index s;
                stream := stream s; final_hls := final_hls s;
                printed := printed s;
                events := events s ++ [Processed i] |}).
  assert (Hinv1 : frames_inv s1 n) by (destruct Hinv; split; assumption).
  rewrite (bindM_ok (record (Processed i)) _ s s1 tt eq_refl).
  rewrite (bindM_ok (lift (process_batch W i b)) _ s1 s1 d)
    by (unfold lift; rewrite Hpb; reflexivity).
  destruct (copy_frames_inv d (png_files d) (png_files_present d) s1 n Hinv1)
    as (s2 & Hcopy & Hinv2).
  rewrite (bindM_ok (for_each (copy_frame d) (png_files d)) _ s1 s2 tt Hcopy).
  rewrite (bindM_ok (get next_index) _ s2 s2 (next_index s2) eq_refl).
  set (line := BatchAppended _ _ _).
  set (s3 := {| all_frames := all_frames s2; next_index := next_index s2;
                stream := stream s2; final_hls := final_hls s2;
                printed := printed s2 ++ [line]; events := events s2 |}).
  assert (Hinv3 : frames_inv s3 (n + Z.of_nat (length (png_files d))))
    by (destruct Hinv2; split; assumption).
  rewrite (bindM_ok (print line) _ s2 s3 tt eq_refl).
  fold (hls_block i d).
  pose proof (hls_block_returns i d s3) as Hret.
  pose proof (frames_inv_keeps _ s3 _ (hls_block_keeps_frames i d) Hinv3) as Hinv4.
  destruct (hls_block i d s3) as [r s4]. simpl in *. subst r.
  exists s4. split; [reflexivity | exact Hinv4].
Qed.

Lemma assemble_loop_inv (l : list (nat * VideoReader.batch)) :
  (forall ib, ib ∈ l -> ~ raises (process_batch W ib.1 ib.2)) ->
  forall (s : run_state File) (n : Z),
    frames_inv s n ->
    exists s',
      for_each (assemble_batch W) l s = (Ok tt, s')
      /\ frames_inv s'
           (n + Z.of_nat (sum_list
                 ((fun ib : nat * VideoReader.batch =>
                     match process_batch W ib.1 ib.2 with
                     | Ok dir => length (png_files dir)
                     | Raise _ => 0%nat
                     end) <$> l))).
Proof.
  induction l as [| [i b] l IH]; intros Hok s n Hinv.
  - exists s. split; [reflexivity |]. simpl.
    replace (n + Z.of_nat 0) with n by lia. exact Hinv.
  - assert (Hib : ~ raises (process_batch W i b))
      by (apply (Hok (i, b)); left).
    rewrite fmap_cons. cbn [fst snd sum_list foldr].
    destruct (process_batch W i b) as [d | e] eqn:Hpb; [| simpl in Hib; tauto].
    destruct (assemble_batch_inv i b d s n Hpb Hinv) as (s1 & Hs1 & Hinv1).
    destruct (IH (fun ib Hin => Hok ib (list_elem_of_further _ _ _ Hin)) s1 _ Hinv1)
      as (s' & Hs' & Hinv').
    exists s'.
    change (for_each (assemble_batch W) ((i, b) :: l) s)
      with (bindM (assemble_batch W (i, b))
                  (fun _ => for_each (assemble_batch W) l) s).
    rewrite (bindM_ok _ _ s s1 tt Hs1). split; [exact Hs' |].
    change (sum_list (length (png_files d) :: ?[rest]))
      with (length (png_files d) + sum_list ?rest)%nat.
    rewrite Nat2Z.inj_add, Z.add_assoc. exact Hinv'.
Qed.

End Assembly.

(** The loop completes when every batch is processed, and leaves the
    files [frame_0 .. frame_(total-1)]. *)
Lemma assemble_completes {File : Type} (W : world File)
    (batches : list VideoReader.batch) (s : run_state File) :
  (forall (i : nat) (b : VideoReader.batch),
      batches !! i = Some b -> ~ raises (process_batch W i b)) ->
  exists s',
    assemble W batches s = (Ok tt, s')
    /\ frames_inv s' (total_frames W batches).
Proof.
  intros Hok. unfold assemble, bindM. simpl (modify _ _).
  set (s0 := {| all_frames := (∅ : gmap string File); next_index := 0;
                stream := stream s; final_hls := final_hls s;
                printed := printed s; events := events s |}).
  assert (Hinv0 : frames_inv s0 0).
  { split; simpl; [reflexivity | lia |]. rewrite dom_empty_L. reflexivity. }
  destruct (assemble_loop_inv W (enumerate batches)) with (s := s0) (n := 0)
    as (s' & Hs' & Hinv); [| exact Hinv0 |].
  { intros [i b] Hin. simpl. unfold enumerate in Hin.
    apply list_elem_of_lookup in Hin as [k Hk].
    apply lookup_zip_with_Some in Hk as (i' & b' & [= <- <-] & Hi & Hb).
    apply lookup_seq in Hi as [-> _]. apply Hok. exact Hb. }
  exists s'. split; [exact Hs' |].
  fold (batch_frame_counts W batches) in Hinv.
  change (0 + Z.of_nat (sum_list (batch_frame_counts W batches)))
    with (0 + total_frames W batches) in Hinv.
  rewrite Z.add_0_l in Hinv. exact Hinv.
Qed.

Lemma frames_inv_lookup {File : Type} (s : run_state File) (n : Z) (name : string) :
  frames_inv s n ->
  (is_Some (all_frames s !! name)
   <-> exists i, 0 <= i < n /\ name = PyStr.frame_name i).
Proof.
  intros [_ _ Hd].
  rewrite <- elem_of_dom, Hd, elem_of_list_to_set, list_elem_of_fmap.
  split.
  - intros (i & -> & Hi). apply elem_of_seqZ in Hi. exists i. split; [lia | reflexivity].
  - intros (i & Hi & ->). exists i. split; [reflexivity |].
    apply elem_of_seqZ. lia.
Qed.

(** C1. When every batch is processed (no [process_batch] call raises), the
    assembly loop completes, whatever the number and the sizes of the
    batches; the counter [next_index] then equals the sum of the per-batch
    frame counts, the global directory holds exactly that many files, and
    they are the files [frame_i.png] for the indices [0 .. total-1], each
    index named once. *)
Theorem assemble_numbers_frames_contiguously {File : Type} (W : world File)
    (batches : list VideoReader.batch) (s : run_state File) :
  let total := total_frames W batches in
  (forall (i : nat) (b : VideoReader.batch),
      batches !! i = Some b -> ~ raises (process_batch W i b)) ->
  exists s',
    assemble W batches s = (Ok tt, s')
    /\ next_index s' = total
    /\ Z.of_nat (size (all_frames s')) = total
    /\ (forall name, is_Some (all_frames s' !! name)
          <-> exists i, 0 <= i < total /\ name = PyStr.frame_name i)
    /\ (forall i j, 0 <= i < total -> 0 <= j < total ->
          PyStr.frame_name i = PyStr.frame_name j -> i = j).
Proof.
  intros total Hok.
  destruct (assemble_completes W batches s Hok) as (s' & Hs' & Hinv).
  fold total in Hinv.
  assert (Hinj : forall i j, 0 <= i < total -> 0 <= j < total ->
            PyStr.frame_name i = PyStr.frame_name j -> i = j).
  { intros i j Hi Hj. apply PyStrFacts.frame_name_inj; lia. }
  exists s'. split; [exact Hs' |]. split; [apply Hinv |]. split; [| split].
  - destruct Hinv as [Hn H0 Hd].
    rewrite <- size_dom, Hd, size_list_to_set.
    + rewrite length_fmap, length_seqZ. lia.
    + apply NoDup_fmap_2_strong; [| apply NoDup_seqZ].
      intros i j Hi Hj. apply elem_of_seqZ in Hi, Hj. apply Hinj; lia.
  - intros name. apply frames_inv_lookup, Hinv.
  - exact Hinj.
Qed.

Lemma assemble_numbers_frames_contiguously_witness :
  exists s', assemble quiet_world seven_in_three fresh_state = (Ok tt, s')
             /\ next_index s' = 7.
Proof.
  destruct (assemble_numbers_frames_contiguously quiet_world seven_in_three
              fresh_state) as (s' & Hrun & Hnext & _).
  - intros i b _ Hraise. exact Hraise.
  - exists s'. split; [exact Hrun |]. rewrite Hnext. vm_compute. reflexivity.
Defined.

End PipelineFacts.

(* ===================================================================== *)
(** * The run: failures of the stream publisher *)
(* ===================================================================== *)

Module RunFacts.
Import Pipeline PipelineDefs PipelineFacts.

Lemma lower_append (a b : string) :
  PyStr.lower (a +:+ b) = PyStr.lower a +:+ PyStr.lower b.
Proof.
  induction a as [| ch a IH]; [reflexivity |].
  rewrite PyStrFacts.append_cons. simpl PyStr.lower.
  rewrite PyStrFacts.append_cons, IH. reflexivity.
Qed.

Lemma endswith_png (x : string) : PyStr.endswith (x +:+ ".png") ".png" = true.
Proof.
  unfold PyStr.endswith. rewrite PyStrFacts.length_append.
  change (String.length ".png") with 4%nat.
  destruct (Nat.leb_spec 4 (String.length x + 4)) as [_ | Hlt]; [| lia].
  replace (String.length x + 4 - 4)%nat with (String.length x) by lia.
  change (x +:+ ".png") with (x +:+ ".png" +:+ "").
  change 4%nat with (String.length ".png").
  rewrite PyStrFacts.substring_middle. reflexivity.
Qed.

Lemma is_png_frame_name (i : Z) : is_png (PyStr.frame_name i) = true.
Proof.
  unfold is_png, PyStr.frame_name.
  rewrite lower_append, lower_append.
  change (PyStr.lower ".png") with ".png".
  set (x := PyStr.lower "frame_" +:+ PyStr.lower (PyStr.format_0wd 6 i)).
  assert (Hassoc : forall a b c : string, a +:+ (b +:+ c) = (a +:+ b) +:+ c).
  { intros a b c. induction a as [| ch a IH]; [reflexivity |].
    rewrite !PyStrFacts.append_cons, IH. reflexivity. }
  rewrite Hassoc. apply endswith_png.
Qed.

Lemma png_files_nonempty {File : Type} (d : gmap string File) (f : string)
    (c : File) :
  d !! f = Some c -> is_png f = true -> png_files d <> [].
Proof.
  intros Hf Hpng Hnil.
  assert (Hin : f ∈ png_files d).
  { unfold png_files, sorted, listdir. rewrite merge_sort_Permutation.
    apply list_elem_of_filter. split; [exact Hpng |].
    apply list_elem_of_fmap. exists (f, c). split; [reflexivity |].
    apply elem_of_map_to_list. exact Hf. }
  rewrite Hnil in Hin. apply not_elem_of_nil in Hin. exact Hin.
Qed.

Section Failures.
Context {File : Type}.
Variable W : world File.

Local Abbreviation grows := (@PipelineDefs.grows File).
Local Abbreviation keeps_log := (@PipelineDefs.keeps_log File).
Local Abbreviation unguarded_succeed := (PipelineDefs.unguarded_succeed W).

Lemma grows_refl (s : run_state File) : grows s s.
Proof. split; reflexivity. Qed.

Lemma grows_trans (s1 s2 s3 : run_state File) :
  grows s1 s2 -> grows s2 s3 -> grows s1 s3.
Proof. intros [H1 H2] [H3 H4]. split; etransitivity; eassumption. Qed.

Lemma copy_frames_keep_log (d : gmap string File) (l : list string) :
  keeps_log (for_each (copy_frame d) l).
Proof.
  induction l as [| f l IH]; intros s; [split; reflexivity |].
  change (for_each (copy_frame d) (f :: l) s)
    with (bindM (copy_frame d f) (fun _ => for_each (copy_frame d) l) s).
  unfold bindM.
  assert (Hc : events (copy_frame d f s).2 = events s
               /\ printed (copy_frame d f s).2 = printed s).
  { unfold copy_frame, bindM, lift, modify.
    destruct (d !! f); simpl; split; reflexivity. }
  destruct (copy_frame d f s) as [[[] | e] s1]; simpl in Hc.
  - destruct (IH s1) as [H1 H2]. rewrite H1, H2. exact Hc.
  - exact Hc.
Qed.

Lemma hls_block_grows (i : nat) (d : gmap string File) (s : run_state File) :
  grows s (hls_block W i d s).2.
Proof.
  unfold hls_block, try_except, bindM, frames_to_segment, run_tool, bindM,
    add_to_stream, bindM, record, modify, lift, raise, print, modify.
  destruct (png_files d) as [| f l]; simpl.
  - split; simpl; grown.
  - destruct (tool W (EncodeBatch i)) as [[] | e]; simpl.
    + destruct (Streaming.add_batch_to_hls (hls_outcome W (HlsBatch i)) (stream s))
        as [[[] | e] st]; simpl; split; simpl; grown.
    + split; simpl; grown.
Qed.

Lemma add_batch_to_hls_ok (k : nat) (st : Streaming.stream) :
  (Streaming.add_batch_to_hls (Ok k) st).1 = Ok tt.
Proof.
  unfold Streaming.add_batch_to_hls.
  destruct (Streaming.ffmpeg_hls _ _ _ _). reflexivity.
Qed.

Lemma add_batch_to_hls_raise (e : py_exception) (st : Streaming.stream) :
  (Streaming.add_batch_to_hls (Raise e) st).1 = Raise e.
Proof. reflexivity. Qed.

Lemma hls_outcome_ok (j : job) :
  tool W j = Ok tt -> hls_outcome W j = Ok (segments W j).
Proof. intros Hj. unfold hls_outcome. rewrite Hj. reflexivity. Qed.

Lemma hls_outcome_raise (j : job) (e : py_exception) :
  tool W j = Raise e -> hls_outcome W j = Raise e.
Proof. intros Hj. unfold hls_outcome. rewrite Hj. reflexivity. Qed.

(** An exception inside the guarded append is printed as a warning. *)
Lemma hls_block_logs (i : nat) (d : gmap string File) (e : py_exception)
    (s : run_state File) :
  hls_append_error W i d = Some e ->
  WarnHlsAppendFailed i e ∈ printed (hls_block W i d s).2.
Proof.
  unfold hls_append_error, hls_block, try_except, bindM, frames_to_segment,
    run_tool, bindM, add_to_stream, bindM, record, modify, lift, raise, print,
    modify.
  destruct (png_files d) as [| f l]; simpl.
  - intros [= <-]. apply elem_of_app. right. left.
  - destruct (tool W (EncodeBatch i)) as [[] | e1]; simpl.
    + destruct (tool W (HlsBatch i)) as [[] | e2] eqn:Hh; [discriminate |].
      intros [= <-]. rewrite (hls_outcome_raise _ _ Hh). simpl.
      apply elem_of_app. right. left.
    + intros [= <-]. apply elem_of_app. right. left.
Qed.

(** One batch of the loop: it is processed, its frames are copied, and a
    failure of its incremental append only leaves a warning. *)
Lemma assemble_batch_log (i : nat) (b : VideoReader.batch)
    (d : gmap string File) (s s' : run_state File) :
  process_batch W i b = Ok d ->
  assemble_batch W (i, b) s = (Ok tt, s') ->
  grows s s'
  /\ Processed i ∈ events s'
  /\ (forall e, hls_append_error W i d = Some e ->
        WarnHlsAppendFailed i e ∈ printed s').
Proof.
  intros Hpb. unfold assemble_batch.
  set (s1 := {| all_frames := all_frames s; next_index := next_index s;
                stream := stream s; final_hls := final_hls s;
                printed := printed s;
                events := events s ++ [Processed i] |}).
  rewrite (bindM_ok (record (Processed i)) _ s s1 tt eq_refl).
  rewrite (bindM_ok (lift (process_batch W i b)) _ s1 s1 d)
    by (unfold lift; rewrite Hpb; reflexivity).
  pose proof (copy_frames_keep_log d (png_files d) s1) as [Hev Hpr].
  destruct (for_each (copy_frame d) (png_files d) s1) as [[[] | e] s2] eqn:Hcopy.
  2:{ rewrite (bindM_raise _ _ s1 s2 e Hcopy). discriminate. }
  rewrite (bindM_ok _ _ s1 s2 tt Hcopy).
  rewrite (bindM_ok (get next_index) _ s2 s2 (next_index s2) eq_refl).
  set (line := BatchAppended _ _ _).
  set (s3 := {| all_frames := all_frames s2; next_index := next_index s2;
                stream := stream s2; final_hls := final_hls s2;
                printed := printed s2 ++ [line]; events := events s2 |}).
  rewrite (bindM_ok (print line) _ s2 s3 tt eq_refl).
  fold (hls_block W i d).
  pose proof (hls_block_grows i d s3) as [Hg1 Hg2].
  pose proof (fun e => hls_block_logs i d e s3) as Hlog.
  destruct (hls_block W i d s3) as [r s4]. simpl in *.
  intros [= _ <-].
  split; [split |]; [| | split].
  - etransitivity; [| exact Hg1]. rewrite Hev. subst s1. simpl. grown.
  - etransitivity; [| exact Hg2]. rewrite Hpr. subst s1. simpl. grown.
  - apply Hg1. rewrite Hev. subst s1. simpl. apply elem_of_app. right. left.
  - exact Hlog.
Qed.

Lemma assemble_loop_log (l : list (nat * VideoReader.batch))
    (s s' : run_state File) :
  for_each (assemble_batch W) l s = (Ok tt, s') ->
  grows s s'
  /\ forall i b d, (i, b) ∈ l -> process_batch W i b = Ok d ->
       Processed i ∈ events s'
       /\ (forall e, hls_append_error W i d = Some e ->
             WarnHlsAppendFailed i e ∈ printed s').
Proof.
  revert s. induction l as [| [i b] l IH]; intros s.
  - simpl. intros [= <-]. split; [apply grows_refl |].
    intros i b d Hin. apply not_elem_of_nil in Hin. contradiction.
  - change (for_each (assemble_batch W) ((i, b) :: l) s)
      with (bindM (assemble_batch W (i, b))
                  (fun _ => for_each (assemble_batch W) l) s).
    destruct (assemble_batch W (i, b) s) as [[[] | e] s1] eqn:Hstep.
    2:{ rewrite (bindM_raise _ _ s s1 e Hstep). discriminate. }
    rewrite (bindM_ok _ _ s s1 tt Hstep). intros Hrest.
    destruct (IH s1 Hrest) as [Hg Hall].
    assert (Hpb : exists d, process_batch W i b = Ok d).
    { unfold assemble_batch, bindM, record, modify, lift in Hstep. simpl in Hstep.
      destruct (process_batch W i b) as [d | e]; [eauto | discriminate]. }
    destruct Hpb as [d Hpb].
    destruct (assemble_batch_log i b d s s1 Hpb Hstep) as (Hg1 & Hev & Hw).
    split; [eapply grows_trans; eassumption |].
    intros i' b' d' Hin Hpb'. apply elem_of_cons in Hin as [[= -> ->] | Hin].
    + rewrite Hpb in Hpb'. injection Hpb' as <-.
      destruct Hg as [Hge Hgp]. split; [apply Hge, Hev |].
      intros e He. apply Hgp, Hw, He.
    + apply (Hall i' b' d' Hin Hpb').
Qed.

Lemma enumerate_lookup {A : Type} (l : list A) (i : nat) (a : A) :
  l !! i = Some a -> (i, a) ∈ enumerate l.
Proof.
  intros Hi. unfold enumerate. apply list_elem_of_lookup. exists i.
  apply lookup_zip_with_Some. exists i, a. split; [reflexivity |].
  split; [| exact Hi].
  apply lookup_seq. split; [reflexivity |]. apply lookup_lt_Some in Hi. exact Hi.
Qed.

(** The final steps when every unguarded tool succeeds: a failure of the
    final HLS playlist is caught. *)
Lemma finalize_run (add_audio : bool) (s : run_state File) :
  unguarded_succeed ->
  png_files (all_frames s) <> [] ->
  exists s',
    finalize W add_audio s = (Ok tt, s')
    /\ grows s s'
    /\ Ran EncodeFinal ∈ events s'
    /\ Ran InjectMetadata ∈ events s'
    /\ Ran HlsFinal ∈ events s'
    /\ (forall e, tool W HlsFinal = Raise e ->
          WarnFinalHlsFailed e ∈ printed s').
Proof.
  intros Hu Hpng.
  pose proof (Hu EncodeFinal eq_refl) as He.
  pose proof (Hu MuxAudio eq_refl) as Hm.
  pose proof (Hu HlsStream eq_refl) as Hs.
  pose proof (Hu InjectMetadata eq_refl) as Hi.
  unfold finalize, frames_to_segment, run_tool, add_to_stream,
    add_to_final_hls, try_except, bindM, get, record, print, modify, lift, ret.
  destruct (png_files (all_frames s)) as [| f l]; [contradiction |].
  cbn [events printed stream final_hls all_frames next_index].
  rewrite He, Hi, (hls_outcome_ok HlsStream Hs).
  destruct add_audio.
  - rewrite Hm.
    pose proof (add_batch_to_hls_ok (segments W HlsStream) (stream s)) as Hok1.
    destruct (Streaming.add_batch_to_hls (Ok (segments W HlsStream)) (stream s))
      as [r1 st1]. simpl in Hok1. subst r1.
    cbn [events printed stream final_hls all_frames next_index].
    destruct (tool W HlsFinal) as [[] | e] eqn:Hf.
    + rewrite (hls_outcome_ok HlsFinal Hf).
      pose proof (add_batch_to_hls_ok (segments W HlsFinal) (final_hls s)) as Hok2.
      destruct (Streaming.add_batch_to_hls (Ok (segments W HlsFinal)) (final_hls s))
        as [r2 st2]. simpl in Hok2. subst r2.
      eexists. split; [reflexivity |].
      cbn [events printed]. repeat split; try grown; try logged.
      intros e [=].
    + rewrite (hls_outcome_raise HlsFinal e Hf).
      cbn [Streaming.add_batch_to_hls].
      eexists. split; [reflexivity |].
      cbn [events printed]. repeat split; try grown; try logged.
      intros e' [= <-]. logged.
  - pose proof (add_batch_to_hls_ok (segments W HlsStream) (stream s)) as Hok1.
    destruct (Streaming.add_batch_to_hls (Ok (segments W HlsStream)) (stream s))
      as [r1 st1]. simpl in Hok1. subst r1.
    cbn [events printed stream final_hls all_frames next_index].
    destruct (tool W HlsFinal) as [[] | e] eqn:Hf.
    + rewrite (hls_outcome_ok HlsFinal Hf).
      pose proof (add_batch_to_hls_ok (segments W HlsFinal) (final_hls s)) as Hok2.
      destruct (Streaming.add_batch_to_hls (Ok (segments W HlsFinal)) (final_hls s))
        as [r2 st2]. simpl in Hok2. subst r2.
      eexists. split; [reflexivity |].
      cbn [events printed]. repeat split; try grown; try logged.
      intros e [=].
    + rewrite (hls_outcome_raise HlsFinal e Hf).
      cbn [Streaming.add_batch_to_hls].
      eexists. split; [reflexivity |].
      cbn [events printed]. repeat split; try grown; try logged.
      intros e' [= <-]. logged.
Qed.

End Failures.

Section WholeRun.
Context {File : Type}.
Variable BATCH_SIZE : Z.
Variable frames_dir : string.
Variable W : world File.

(** [main] up to the end of the loop, when the two initial steps succeed. *)
Lemma main_unfold (cap : VideoReader.capture File) (add_audio : bool)
    (s : run_state File) :
  let batches := VideoReader.batches_of cap frames_dir BATCH_SIZE in
  exists line,
    main BATCH_SIZE frames_dir W cap add_audio s
    = bindM (print line)
        (fun _ => bindM (run_tool W LoadMidas)
        (fun _ => bindM (if add_audio then run_tool W ExtractAudio else ret tt)
        (fun _ => bindM (assemble W batches)
        (fun _ => finalize W add_audio)))) s.
Proof.
  intros batches. unfold main. subst batches. unfold VideoReader.batches_of.
  destruct (VideoReader.read_and_write_batches cap frames_dir BATCH_SIZE).1
    as [[[[bs fps] tot] w] h]. simpl. eexists. reflexivity.
Qed.

(** C6 (amended). In a run whose unguarded steps succeed and whose batches
    are all processed into at least one frame, an exception raised while
    encoding or appending one batch's incremental segment is caught and
    printed as a warning, the loop goes on to every batch and the run on to
    the final encode; an exception raised by the final HLS playlist, after
    assembly, audio muxing and metadata injection, is caught and printed as
    a warning in the same way: the run returns normally in both cases. *)
Theorem main_survives_stream_failures (cap : VideoReader.capture File)
    (add_audio : bool) (s : run_state File) :
  let batches := VideoReader.batches_of cap frames_dir BATCH_SIZE in
  (forall j, guarded j = false -> tool W j = Ok tt) ->
  (forall i b, batches !! i = Some b -> ~ raises (process_batch W i b)) ->
  1 <= total_frames W batches ->
  exists s',
    main BATCH_SIZE frames_dir W cap add_audio s = (Ok tt, s')
    /\ (forall i b, batches !! i = Some b -> Processed i ∈ events s')
    /\ (forall i b d e, batches !! i = Some b ->
          process_batch W i b = Ok d ->
          hls_append_error W i d = Some e ->
          WarnHlsAppendFailed i e ∈ printed s')
    /\ Ran EncodeFinal ∈ events s'
    /\ Ran InjectMetadata ∈ events s'
    /\ Ran HlsFinal ∈ events s'
    /\ (forall e, tool W HlsFinal = Raise e ->
          WarnFinalHlsFailed e ∈ printed s').
Proof.
  intros batches Hu Hpb Htotal.
  destruct (main_unfold cap add_audio s) as [line ->]. fold batches.
  set (s1 := (print line s).2).
  rewrite (bindM_ok (print line) _ s s1 tt eq_refl).
  set (s2 := (run_tool W LoadMidas s1).2).
  rewrite (bindM_ok (run_tool W LoadMidas) _ s1 s2 tt)
    by (unfold s2, run_tool, bindM, record, modify, lift; simpl;
        rewrite (Hu LoadMidas eq_refl); reflexivity).
  set (s3 := ((if add_audio then run_tool W ExtractAudio else ret tt) s2).2).
  rewrite (bindM_ok _ _ s2 s3 tt)
    by (unfold s3; destruct add_audio; [| reflexivity];
        unfold run_tool, bindM, record, modify, lift; simpl;
        rewrite (Hu ExtractAudio eq_refl); reflexivity).
  destruct (assemble_completes W batches s3 Hpb) as (s4 & Hasm & Hinv).
  rewrite (bindM_ok _ _ s3 s4 tt Hasm).
  assert (Hloop : for_each (assemble_batch W) (enumerate batches)
                    {| all_frames := ∅; next_index := 0; stream := stream s3;
                       final_hls := final_hls s3; printed := printed s3;
                       events := events s3 |} = (Ok tt, s4)) by exact Hasm.
  destruct (assemble_loop_log W _ _ _ Hloop) as [[Hge Hgp] Hbatches].
  assert (Hpng : png_files (all_frames s4) <> []).
  { destruct (proj2 (frames_inv_lookup s4 _ (PyStr.frame_name 0) Hinv)) as [c Hc].
    - exists 0. split; [lia | reflexivity].
    - apply (png_files_nonempty _ _ c Hc), is_png_frame_name. }
  destruct (finalize_run W add_audio s4 Hu Hpng)
    as (s' & Hfin & [Hfe Hfp] & Henc & Hmeta & Hhls & Hwarn).
  exists s'. split; [exact Hfin |].
  split; [| split; [| repeat split; assumption]].
  - intros i b Hib.
    destruct (process_batch W i b) as [d | e] eqn:Hd;
      [| exfalso; apply (Hpb i b Hib); rewrite Hd; exact I].
    apply Hfe. apply (Hbatches i b d (enumerate_lookup _ _ _ Hib) Hd).
  - intros i b d e Hib Hd He.
    apply Hfp. apply (Hbatches i b d (enumerate_lookup _ _ _ Hib) Hd), He.
Qed.

(** When an unguarded step of the final path raises, the run raises. *)
Lemma finalize_propagates (add_audio : bool) (s : run_state File)
    (e : py_exception) :
  png_files (all_frames s) <> [] ->
  tool W EncodeFinal = Raise e ->
  (finalize W add_audio s).1 = Raise e.
Proof.
  intros Hpng He.
  unfold finalize, frames_to_segment, run_tool, bindM, get, record, modify, lift.
  destruct (png_files (all_frames s)); [contradiction |].
  simpl. rewrite He. reflexivity.
Qed.

(** A source without frames gives an empty batch list, returned as a value;
    nothing is processed, and the final encode of the empty directory
    raises [ValueError]. *)
Lemma png_files_empty : png_files (∅ : gmap string File) = [].
Proof. reflexivity. Qed.

Lemma main_without_frames (cap : VideoReader.capture File) (add_audio : bool)
    (s : run_state File) :
  VideoReader.decoded cap = [] ->
  let r := main BATCH_SIZE frames_dir W cap add_audio s in
  raises r.1
  /\ events r.2 ⊆ events s ++ [Ran LoadMidas; Ran ExtractAudio]
  /\ (tool W LoadMidas = Ok tt ->
      (add_audio = false \/ tool W ExtractAudio = Ok tt) ->
      r.1 = Raise ValueError).
Proof.
  intros Hd r. subst r.
  destruct (main_unfold cap add_audio s) as [line ->].
  assert (Hb : VideoReader.batches_of cap frames_dir BATCH_SIZE = []).
  { unfold VideoReader.batches_of, VideoReader.read_and_write_batches.
    rewrite Hd. reflexivity. }
  rewrite Hb.
  unfold assemble, finalize, frames_to_segment, run_tool, bindM, get, record,
    print, modify, lift, raise.
  destruct (tool W LoadMidas) as [[] | e1]; cbn -[png_files].
  - destruct add_audio; cbn -[png_files].
    + destruct (tool W ExtractAudio) as [[] | e2]; cbn -[png_files].
      * rewrite png_files_empty. cbn.
        split; [exact I |]. split; [| reflexivity].
        rewrite <- app_assoc. reflexivity.
      * split; [exact I |]. split; [| intros _ [[=] | [=]]].
        rewrite <- app_assoc. reflexivity.
    + rewrite png_files_empty. cbn.
      split; [exact I |]. split; [| reflexivity].
      intros x Hx. apply elem_of_app in Hx as [Hx | Hx]; apply elem_of_app;
        [left; exact Hx | right].
      apply list_elem_of_singleton in Hx as ->. left.
  - split; [exact I |]. split; [| intros [=]].
    intros x Hx. apply elem_of_app in Hx as [Hx | Hx]; apply elem_of_app;
      [left; exact Hx | right].
    apply list_elem_of_singleton in Hx as ->. left.
Qed.

(** C8 (amended). A source that cannot be opened or decodes no frame does
    not make frame extraction fail: [read_and_write_batches] returns an empty
    batch list as an ordinary value, with the frame rate defaulting to 30 when
    none is detected. The run then processes no batch and ends with an
    exception only later: the one of the model load or of the audio
    extraction if one of them fails, otherwise the [ValueError] that the
    final encode raises on the empty frame directory. *)
Theorem empty_source_returns_empty_batch_list (cap : VideoReader.capture File)
    (add_audio : bool) (s : run_state File) :
  VideoReader.decoded cap = [] ->
  (VideoReader.read_and_write_batches cap frames_dir BATCH_SIZE).1
  = ([],
     (if Qeq_bool (VideoReader.prop_fps cap) 0 then 30%Q
      else VideoReader.prop_fps cap),
     PyNum.trunc (VideoReader.prop_frame_count cap),
     PyNum.trunc (VideoReader.prop_frame_width cap),
     PyNum.trunc (VideoReader.prop_frame_height cap))
  /\ (let r := main BATCH_SIZE frames_dir W cap add_audio s in
      raises r.1
      /\ (forall i, Processed i ∈ events r.2 -> Processed i ∈ events s)
      /\ (tool W LoadMidas = Ok tt ->
          (add_audio = false \/ tool W ExtractAudio = Ok tt) ->
          r.1 = Raise ValueError)).
Proof.
  intros Hd. split.
  - unfold VideoReader.read_and_write_batches. rewrite Hd. reflexivity.
  - destruct (main_without_frames cap add_audio s Hd) as (Hr & Hev & Hval).
    split; [exact Hr |]. split; [| exact Hval].
    intros i Hi. apply Hev in Hi.
    apply elem_of_app in Hi as [Hi | Hi]; [exact Hi |].
    apply elem_of_cons in Hi as [[=] | Hi].
    apply list_elem_of_singleton in Hi. discriminate.
Qed.

End WholeRun.

(** ** Concrete runs *)

Lemma main_survives_stream_failures_witness :
  exists s',
    main 3 "frames" failing_streams seven_images true fresh_state
    = (Ok tt, s')
    /\ WarnFinalHlsFailed OSError ∈ printed s'.
Proof.
  destruct (main_survives_stream_failures 3 "frames" failing_streams
              seven_images true fresh_state)
    as (s' & Hrun & _ & _ & _ & _ & _ & Hwarn).
  - intros j Hj. destruct j as [| | i | i | | | | |]; try reflexivity;
      discriminate Hj.
  - intros i b _ Hraise. exact Hraise.
  - vm_compute. discriminate.
  - exists s'. split; [exact Hrun |]. apply Hwarn. reflexivity.
Defined.

(** The final HLS playlist fails and the run returns normally: the last
    line printed is the warning. *)
Lemma final_hls_failure_is_swallowed :
  tool failing_streams HlsFinal = Raise OSError
  /\ (main 3 "frames" failing_streams seven_images true
        fresh_state).1 = Ok tt
  /\ last (printed (main 3 "frames" failing_streams
                     seven_images true fresh_state).2)
     = Some (WarnFinalHlsFailed OSError).
Proof. repeat split; vm_compute; reflexivity. Qed.

Lemma empty_source_returns_empty_batch_list_witness :
  (main 30 "frames" quiet_world unreadable false fresh_state).1
  = Raise ValueError.
Proof.
  destruct (empty_source_returns_empty_batch_list 30 "frames" quiet_world
              unreadable false fresh_state eq_refl) as (_ & _ & _ & Hval).
  apply Hval; [reflexivity | left; reflexivity].
Defined.

(** Frame extraction on the unreadable source returns a value, the empty
    batch list with the default frame rate. *)
Lemma unreadable_source_returns_value :
  (VideoReader.read_and_write_batches unreadable "frames" 30).1
  = ([], 30%Q, 0, 0, 0).
Proof. reflexivity. Qed.

End RunFacts.

(* ===================================================================== *)
(** * Frame extraction: the frame store, and degenerate batch sizes *)
(* ===================================================================== *)

Module VideoReaderMore.
Import VideoReader VideoReaderMoreDefs.

Lemma frame_name_relative (i : Z) :
  exists rest, PyStr.frame_name i = String "f" rest.
Proof. unfold PyStr.frame_name. eexists. reflexivity. Qed.

Lemma append_inj_r (a b c : string) : a +:+ b = a +:+ c -> b = c.
Proof.
  induction a as [| ch a IH]; intros H.
  - exact H.
  - rewrite !PyStrFacts.append_cons in H. injection H as H. auto.
Qed.

(** Two frames never share a path. *)
Lemma frame_path_inj (dir : string) (i j : Z) :
  0 <= i -> 0 <= j -> frame_path dir i = frame_path dir j -> i = j.
Proof.
  intros Hi Hj. unfold frame_path, PyStr.os_path_join.
  destruct (frame_name_relative i) as [ri Ei].
  destruct (frame_name_relative j) as [rj Ej].
  rewrite Ei, Ej. rewrite <- Ei, <- Ej.
  destruct (String.eqb dir "" || PyStr.ends_with_slash dir)%bool; intros H.
  - apply append_inj_r in H. apply PyStrFacts.frame_name_inj; assumption.
  - apply append_inj_r in H. apply append_inj_r in H.
    apply PyStrFacts.frame_name_inj; assumption.
Qed.

Section Store.
Context {Frame : Type}.
Variable dir : string.
Variable B : Z.

Local Abbreviation store_inv := (@VideoReaderMoreDefs.store_inv Frame dir).
Local Abbreviation single_inv := (@VideoReaderMoreDefs.single_inv Frame dir).

Lemma store_inv_initial : store_inv [] initial_state.
Proof.
  split; simpl.
  - reflexivity.
  - reflexivity.
  - intros i. rewrite lookup_empty. reflexivity.
  - intros p [x Hx]. rewrite lookup_empty in Hx. discriminate.
  - constructor.
Qed.

Lemma store_inv_step (frames : list Frame) (st : loop_state Frame)
    (frame : Frame) :
  store_inv frames st ->
  store_inv (frames ++ [frame]) (loop_body dir B st frame).
Proof.
  intros [Hidx Hpaths Hstore Hdom Hne].
  set (n := length frames) in *.
  assert (Hlen : length (frames ++ [frame]) = S n)
    by (rewrite length_app; simpl; lia).
  assert (Hall : (concat (frame_paths <$> batches st) ++ current_batch st)
                 ++ [frame_path dir (Z.of_nat n)]
                 = frame_path dir <$> seqZ 0 (Z.of_nat (S n))).
  { rewrite Hpaths. replace (Z.of_nat (S n)) with (Z.of_nat n + 1) by lia.
    rewrite VideoReaderFacts.seqZ_snoc by lia. rewrite fmap_app. reflexivity. }
  assert (Hst : forall store',
      store' = <[frame_path dir (Z.of_nat n) := frame]> (frame_store st) ->
      (forall i : nat, store' !! frame_path dir (Z.of_nat i)
                       = (frames ++ [frame]) !! i)
      /\ (forall p, is_Some (store' !! p) ->
            exists i : nat, (i < length (frames ++ [frame]))%nat
                            /\ p = frame_path dir (Z.of_nat i))).
  { intros store' ->. split.
    - intros i. destruct (decide (i = n)) as [-> | Hne'].
      + rewrite lookup_insert_eq. symmetry.
        rewrite lookup_app_r by (fold n; lia).
        fold n. replace (n - n)%nat with 0%nat by lia. reflexivity.
      + rewrite lookup_insert_ne.
        2:{ intros Heq. apply frame_path_inj in Heq; lia. }
        rewrite Hstore. destruct (decide (i < n)%nat) as [Hlt | Hge].
        * rewrite lookup_app_l by (fold n; lia). reflexivity.
        * rewrite (proj2 (lookup_ge_None frames i)) by (fold n; lia).
          symmetry. apply lookup_ge_None. rewrite Hlen. lia.
    - intros p Hp. destruct (decide (p = frame_path dir (Z.of_nat n))) as [-> | Hne'].
      + exists n. rewrite Hlen. split; [lia | reflexivity].
      + rewrite lookup_insert_ne in Hp by congruence.
        destruct (Hdom p Hp) as (i & Hi & ->). exists i. rewrite Hlen.
        split; [lia | reflexivity]. }
  unfold loop_body. rewrite Hidx. fold n. fold (frame_path dir (Z.of_nat n)).
  destruct (Hst _ eq_refl) as [Hs1 Hs2].
  destruct (Z.of_nat (length (current_batch st ++ [frame_path dir (Z.of_nat n)]))
            >=? B); split; simpl.
  - rewrite Hlen. lia.
  - rewrite fmap_app, concat_app. simpl. rewrite !app_nil_r.
    rewrite Hlen, <- Hall, app_assoc. reflexivity.
  - exact Hs1.
  - exact Hs2.
  - apply Forall_app. split; [exact Hne |]. constructor; [| constructor].
    simpl. destruct (current_batch st); discriminate.
  - rewrite Hlen. lia.
  - rewrite Hlen, <- Hall, app_assoc. reflexivity.
  - exact Hs1.
  - exact Hs2.
  - exact Hne.
Qed.

Lemma store_inv_loop (fs frames : list Frame) (st : loop_state Frame) :
  store_inv frames st ->
  store_inv (frames ++ fs) (fold_left (loop_body dir B) fs st).
Proof.
  revert frames st. induction fs as [| f fs IH]; intros frames st Hinv; simpl.
  - rewrite app_nil_r. exact Hinv.
  - replace (frames ++ f :: fs) with ((frames ++ [f]) ++ fs)
      by (rewrite <- app_assoc; reflexivity).
    apply IH, store_inv_step, Hinv.
Qed.

Lemma flush_paths (st : loop_state Frame) :
  concat (frame_paths <$> flush st)
  = concat (frame_paths <$> batches st) ++ current_batch st.
Proof.
  unfold flush. destruct (current_batch st) as [| p cur].
  - rewrite app_nil_r. reflexivity.
  - rewrite fmap_app, concat_app. simpl. rewrite app_nil_r. reflexivity.
Qed.

Lemma flush_nonempty (st : loop_state Frame) :
  Forall (fun b => frame_paths b <> []) (batches st) ->
  Forall (fun b => frame_paths b <> []) (flush st).
Proof.
  intros H. unfold flush. destruct (current_batch st) as [| p cur]; [exact H |].
  apply Forall_app. split; [exact H |]. constructor; [| constructor].
  simpl. discriminate.
Qed.

Hypothesis B_small : B <= 1.

Lemma single_inv_initial : single_inv initial_state 0.
Proof. split; simpl; first [reflexivity | lia]. Qed.

Lemma single_inv_step (st : loop_state Frame) (n : Z) (frame : Frame) :
  single_inv st n -> single_inv (loop_body dir B st frame) (n + 1).
Proof.
  intros [Hn Hb Hi Hbi Hc]. unfold loop_body. rewrite Hc, Hi.
  cbn [app length]. fold (frame_path dir n). change (Z.of_nat 1) with 1.
  destruct (Z.geb_spec 1 B) as [_ | Hlt]; [| lia].
  split; cbn [batches frame_idx batch_idx current_batch].
  - lia.
  - rewrite Hb, Hbi, VideoReaderFacts.seqZ_snoc, fmap_app by lia.
    cbn [fmap list_fmap].
    replace (n + 1 - 1) with n by lia.
    replace (0 + n) with n by lia. reflexivity.
  - reflexivity.
  - rewrite Hbi. reflexivity.
  - reflexivity.
Qed.

Lemma single_inv_loop (fs : list Frame) (st : loop_state Frame) (n : Z) :
  single_inv st n ->
  single_inv (fold_left (loop_body dir B) fs st) (n + Z.of_nat (length fs)).
Proof.
  revert st n. induction fs as [| f fs IH]; intros st n Hinv; simpl.
  - replace (n + Z.of_nat 0) with n by lia. exact Hinv.
  - replace (n + Z.of_nat (S (length fs)))
      with (n + 1 + Z.of_nat (length fs)) by lia.
    apply IH, single_inv_step, Hinv.
Qed.

End Store.

(** X1. Whatever the batch size, [read_and_write_batches] writes every
    decoded frame to a path of its own and lists every path once: the paths
    of the batches, taken in order, are the paths of frames 0, 1, ..., N-1;
    the frame store read at the path of frame [i] gives the [i]-th decoded
    frame; the store holds nothing else; and no batch is empty. *)
Theorem every_frame_is_stored_and_listed {Frame : Type}
    (cap : capture Frame) (dir : string) (B : Z) :
  let out := read_and_write_batches cap dir B in
  let N := Z.of_nat (length (decoded cap)) in
  concat (frame_paths <$> batches_of cap dir B) = frame_path dir <$> seqZ 0 N
  /\ (forall i : nat, out.2 !! frame_path dir (Z.of_nat i) = decoded cap !! i)
  /\ (forall p, is_Some (out.2 !! p) ->
        exists i : nat, (i < length (decoded cap))%nat
                        /\ p = frame_path dir (Z.of_nat i))
  /\ Forall (fun b => frame_paths b <> []) (batches_of cap dir B).
Proof.
  pose proof (store_inv_loop dir B (decoded cap) [] initial_state
                (store_inv_initial dir)) as [Hidx Hpaths Hstore Hdom Hne].
  simpl in *. unfold batches_of, read_and_write_batches. simpl.
  repeat split.
  - rewrite flush_paths. exact Hpaths.
  - exact Hstore.
  - exact Hdom.
  - apply flush_nonempty, Hne.
Qed.

(** X2. With a batch size of 1 or less (zero and negative sizes included)
    the test [len(current_batch) >= batch_size] holds after every frame:
    each frame is a batch of its own, and batch [i] is
    [(i, i, i, [path of frame i])]. *)
Theorem batch_size_at_most_one_gives_single_frame_batches {Frame : Type}
    (cap : capture Frame) (dir : string) (B : Z) :
  B <= 1 ->
  batches_of cap dir B
  = (fun i => (i, i, i, [frame_path dir i]))
      <$> seqZ 0 (Z.of_nat (length (decoded cap))).
Proof.
  intros HB.
  pose proof (single_inv_loop dir B HB (decoded cap) initial_state 0
                (single_inv_initial dir)) as [Hn Hb Hi Hbi Hc].
  unfold batches_of, read_and_write_batches. simpl. unfold flush.
  rewrite Hc, Hb. reflexivity.
Qed.

Lemma batch_size_at_most_one_gives_single_frame_batches_witness :
  batches_of five_frames "frames" 0
  = (fun i => (i, i, i, [frame_path "frames" i])) <$> seqZ 0 5.
Proof.
  apply (batch_size_at_most_one_gives_single_frame_batches five_frames
           "frames" 0).
  lia.
Defined.

End VideoReaderMore.

(* ===================================================================== *)
(** * Segment numbering: what a sequence of appends leaves behind *)
(* ===================================================================== *)

Module StreamingMore.
Import Streaming StreamingDefs StreamingMoreDefs StreamingFacts.

Lemma scanned_of_unmatched (name : string) :
  pattern_match name = None -> scanned_number name = None.
Proof. unfold scanned_number. intros ->. reflexivity. Qed.

Lemma start_number_nonneg (names : gset string) :
  0 <= _next_segment_start_number (Some names).
Proof.
  destruct (next_start_spec names) as [_ [[-> _] | (name & _ & Hn)]]; [lia |].
  apply scanned_number_nonneg in Hn. lia.
Qed.

Lemma first_in_step (start : Z) (pl : list Z) :
  in_step start pl ->
  first_segment_number start pl = start + Z.of_nat (length pl).
Proof.
  unfold in_step, first_segment_number. intros Hstep.
  destruct (last pl) as [l |] eqn:Hlast.
  - specialize (Hstep l eq_refl). lia.
  - apply last_None in Hlast as ->. simpl. lia.
Qed.

Lemma last_seqZ (a : Z) (k : nat) :
  (0 < k)%nat -> last (seqZ a (Z.of_nat k)) = Some (a + Z.of_nat k - 1).
Proof.
  destruct k as [| k]; [lia |]. intros _.
  rewrite seqZ_S, last_snoc. f_equal. lia.
Qed.

Lemma skipping_end_ge (ks : list nat) (start listed : Z) :
  0 <= listed -> start <= skipping_end start listed ks.
Proof.
  revert start listed. induction ks as [| k ks IH]; intros start listed Hl;
    cbn [skipping_end]; [lia |].
  specialize (IH (start + listed + Z.of_nat k) (listed + Z.of_nat k)). lia.
Qed.

Lemma skipping_ge (ks : list nat) (start listed : Z) :
  0 <= listed -> Forall (fun n => start + listed <= n) (skipping start listed ks).
Proof.
  revert start listed. induction ks as [| k ks IH]; intros start listed Hl;
    cbn [skipping]; [constructor |].
  apply Forall_app. split.
  - apply Forall_seqZ. intros n Hn. lia.
  - eapply Forall_impl; [apply IH; lia |]. intros n Hn. cbn in Hn. lia.
Qed.

Lemma seqZ_increasing (len : nat) (a : Z) :
  StronglySorted Z.lt (seqZ a (Z.of_nat len)).
Proof.
  revert a. induction len as [| len IH]; intros a; [constructor |].
  rewrite seqZ_cons by lia.
  replace (Z.pred (Z.of_nat (S len))) with (Z.of_nat len) by lia.
  constructor; [apply IH |]. apply Forall_seqZ. intros n Hn. lia.
Qed.

(** The numbers the appends write increase strictly. *)
Lemma skipping_increasing (ks : list nat) (start listed : Z) :
  0 <= listed -> StronglySorted Z.lt (skipping start listed ks).
Proof.
  revert start listed. induction ks as [| k ks IH]; intros start listed Hl;
    cbn [skipping]; [constructor |].
  apply StronglySorted_app_2; [| apply seqZ_increasing | apply IH; lia].
  intros n1 n2 Hn1 Hn2. apply elem_of_seqZ in Hn1.
  pose proof (skipping_ge ks (start + listed + Z.of_nat k)
                (listed + Z.of_nat k) ltac:(lia)) as Hge.
  rewrite Forall_forall in Hge. specialize (Hge n2 Hn2). cbn in Hge. lia.
Qed.

(** The state after the appends [ks], below 100000. *)
Lemma appends_state (ks : list nat) :
  forall (names : gset string) (pl : list Z),
    let start := _next_segment_start_number (Some names) in
    let listed := Z.of_nat (length pl) in
    Forall (fun k => (0 < k)%nat) ks ->
    in_step start pl ->
    skipping_end start listed ks <= 100000 ->
    exists names',
      append_all ks {| stream_dir := Some names; playlist := pl |}
      = {| stream_dir := Some names';
           playlist := pl ++ skipping start listed ks |}
      /\ _next_segment_start_number (Some names')
         = skipping_end start listed ks
      /\ names ⊆ names'
      /\ (forall n, n ∈ skipping start listed ks -> segment_name n ∈ names').
Proof.
  induction ks as [| k ks IH]; intros names pl start listed Hpos Hstep Hbound.
  - exists names. cbn [skipping skipping_end append_all fold_left].
    rewrite app_nil_r. repeat split; [reflexivity |].
    intros n Hn. apply not_elem_of_nil in Hn. contradiction.
  - apply Forall_cons in Hpos as [Hk Hpos].
    cbn [skipping skipping_end] in *.
    unfold append_all. cbn [fold_left].
    unfold add_batch_to_hls at 2. cbn [stream_dir playlist makedirs].
    fold start.
    destruct (ffmpeg_hls start k names pl) as [names1 pl1] eqn:Hff.
    cbn [snd].
    fold (append_all ks {| stream_dir := Some names1; playlist := pl1 |}).
    pose proof (first_in_step start pl Hstep) as Hfirst. fold listed in Hfirst.
    pose proof (skipping_end_ge ks (start + listed + Z.of_nat k)
                  (listed + Z.of_nat k) ltac:(lia)) as Hend.
    pose proof (next_start_after_append names k pl) as Hnext.
    cbv zeta in Hnext. fold start in Hnext.
    rewrite Hff, Hfirst in Hnext. cbn [fst] in Hnext.
    specialize (Hnext Hk ltac:(lia)).
    unfold ffmpeg_hls in Hff. rewrite Hfirst in Hff.
    injection Hff as Hn1 Hp1.
    assert (Hlen : Z.of_nat (length pl1) = listed + Z.of_nat k).
    { rewrite <- Hp1, length_app, length_seqZ. lia. }
    destruct (IH names1 pl1) as (names' & Hrun & Hstart & Hsub & Hin).
    { exact Hpos. }
    { intros l Hl. rewrite Hnext. rewrite <- Hp1, last_app in Hl.
      rewrite (last_seqZ _ k Hk) in Hl. injection Hl as <-. lia. }
    { rewrite Hnext, Hlen. exact Hbound. }
    rewrite Hnext, Hlen in Hrun, Hstart, Hin.
    exists names'. repeat split.
    + rewrite Hrun, <- Hp1, <- app_assoc. reflexivity.
    + exact Hstart.
    + etransitivity; [| exact Hsub]. rewrite <- Hn1. set_solver.
    + intros n Hn. apply elem_of_app in Hn as [Hn | Hn].
      * apply Hsub. rewrite <- Hn1.
        apply elem_of_union. left. apply elem_of_union. left.
        apply elem_of_list_to_set, list_elem_of_fmap.
        exists n. split; [reflexivity | exact Hn].
      * apply Hin, Hn.
Qed.

(** X3. While the numbers stay below 100000, a sequence of successful
    appends of at least one segment each, into a directory of ASCII names
    whose playlist lists nothing the scan did not see, numbers its segments
    upwards but not without gaps: an append is given one more than the last
    number on disk, and ffmpeg ([append_list]) adds the number of segments
    the playlist already lists, so each append skips that many numbers (four
    appends of one segment into an empty directory write 0, 2, 5, 9). The
    numbers written increase strictly, every new segment file is in the
    directory, every file that was there is kept, and the next start number
    is one more than the last number written. *)
Theorem appends_skip_the_listed_segments (ks : list nat)
    (names : gset string) (pl : list Z) :
  let start := _next_segment_start_number (Some names) in
  let listed := Z.of_nat (length pl) in
  let after := append_all ks {| stream_dir := Some names; playlist := pl |} in
  ascii_names names ->
  Forall (fun k => (0 < k)%nat) ks ->
  in_step start pl ->
  skipping_end start listed ks <= 100000 ->
  playlist after = pl ++ skipping start listed ks
  /\ StronglySorted Z.lt (skipping start listed ks)
  /\ _next_segment_start_number (stream_dir after)
     = skipping_end start listed ks
  /\ exists names',
       stream_dir after = Some names'
       /\ names ⊆ names'
       /\ forall n, n ∈ skipping start listed ks -> segment_name n ∈ names'.
Proof.
  intros start listed after _ Hpos Hstep Hbound.
  destruct (appends_state ks names pl Hpos Hstep Hbound)
    as (names' & Hrun & Hs & Hsub & Hin).
  subst after. rewrite Hrun. cbn [playlist stream_dir].
  split; [reflexivity |].
  split; [apply skipping_increasing; subst listed; lia |].
  split; [exact Hs |].
  exists names'. auto.
Qed.

Lemma appends_skip_the_listed_segments_witness :
  playlist (append_all [1%nat; 1%nat; 1%nat; 1%nat]
              {| stream_dir := Some ∅; playlist := [] |})
  = [0; 2; 5; 9].
Proof.
  refine (proj1 (appends_skip_the_listed_segments
                   [1%nat; 1%nat; 1%nat; 1%nat] ∅ [] _ _ _ _)).
  - intros name Hin. apply elem_of_empty in Hin. contradiction.
  - repeat constructor.
  - intros l Hl. discriminate Hl.
  - vm_compute. discriminate.
Defined.

(** X4. On directories of ASCII names the start number depends on the
    files named [segment_ddddd.ts] only: files that the pattern does not
    match (the playlist, temporary files, segments of another naming) can be
    added without moving it; adding any files never lowers it; and a path
    that is not a directory gives 0. *)
Theorem start_number_ignores_other_files (names : gset string) :
  ascii_names names ->
  (forall others : gset string,
      ascii_names others ->
      (forall name, name ∈ others -> pattern_match name = None) ->
      _next_segment_start_number (Some (names ∪ others))
      = _next_segment_start_number (Some names))
  /\ (forall names' : gset string,
        ascii_names names' ->
        names ⊆ names' ->
        _next_segment_start_number (Some names)
        <= _next_segment_start_number (Some names'))
  /\ _next_segment_start_number None = 0.
Proof.
  intros _.
  destruct (next_start_spec names) as [Hup Hreach]. cbv zeta in *.
  repeat split.
  - intros others _ Hothers. apply next_start_unique.
    + intros name idx Hin Hidx. apply elem_of_union in Hin as [Hin | Hin].
      * eapply Hup; eassumption.
      * rewrite (scanned_of_unmatched name (Hothers name Hin)) in Hidx.
        discriminate.
    + destruct Hreach as [[H0 _] | (name & Hin & Hn)]; [left; exact H0 |].
      right. exists name. split; [set_solver | exact Hn].
  - intros names' _ Hsub.
    destruct Hreach as [[-> _] | (name & Hin & Hn)].
    + apply start_number_nonneg.
    + destruct (next_start_spec names') as [Hup' _]. cbv zeta in Hup'.
      specialize (Hup' name _ (Hsub name Hin) Hn). lia.
Qed.

Lemma start_number_ignores_other_files_witness :
  _next_segment_start_number
    (Some ({[ segment_name 3 ]} ∪ {[ "output.m3u8"; "segment_00007.ts.tmp" ]}))
  = _next_segment_start_number (Some {[ segment_name 3 ]}).
Proof.
  refine (proj1 (start_number_ignores_other_files {[ segment_name 3 ]} _)
            {[ "output.m3u8"; "segment_00007.ts.tmp" ]} _ _).
  - intros name Hin. apply elem_of_singleton in Hin as ->. reflexivity.
  - intros name Hin. apply elem_of_union in Hin as [Hin | Hin];
      apply elem_of_singleton in Hin as ->; reflexivity.
  - intros name Hin. apply elem_of_union in Hin as [Hin | Hin];
      apply elem_of_singleton in Hin as ->; reflexivity.
Defined.

End StreamingMore.

(* ===================================================================== *)
(** * Stacking the two eyes ([src/stitch.py]) *)
(* ===================================================================== *)

Module StitchFacts.
Import Image Stitch StitchDefs.

Lemma shape_eqb_true (l r : image) :
  shape_eqb l r = true <-> nrows l = nrows r /\ ncols l = ncols r.
Proof.
  unfold shape_eqb. rewrite andb_true_iff, !Nat.eqb_eq. reflexivity.
Qed.

Lemma at2_row {A : Type} (a : array2 A) (y x : nat) (row : list A) :
  cells a !! y = Some row -> at2 a y x = row !! x.
Proof. unfold at2. intros ->. reflexivity. Qed.

Lemma at2_no_row {A : Type} (a : array2 A) (y x : nat) :
  cells a !! y = None -> at2 a y x = None.
Proof. unfold at2. intros ->. reflexivity. Qed.

Lemma wf_intro {A : Type} (a : array2 A) :
  length (cells a) = nrows a ->
  (forall y row, cells a !! y = Some row -> length row = ncols a) ->
  wf a = true.
Proof.
  intros Hlen Hrows. unfold wf. rewrite andb_true_iff, Nat.eqb_eq.
  split; [exact Hlen |]. apply forallb_forall. intros row Hin.
  apply Nat.eqb_eq. apply list_elem_of_In, list_elem_of_lookup in Hin as [y Hy].
  eapply Hrows, Hy.
Qed.

Lemma hstack_at (l r : image) (y x : nat) :
  wf l = true -> wf r = true -> nrows l = nrows r ->
  at2 (hstack l r) y x
  = if decide (x < ncols l)%nat then at2 l y x else at2 r y (x - ncols l)%nat.
Proof.
  intros Hl Hr Hn.
  destruct (StereoFacts.wf_rows l Hl) as [Hll Hlr].
  destruct (StereoFacts.wf_rows r Hr) as [Hrl Hrr].
  unfold at2 at 1. cbn [cells hstack]. rewrite lookup_zip_with.
  destruct (cells l !! y) as [rowl |] eqn:El.
  - destruct (cells r !! y) as [rowr |] eqn:Er.
    + cbn. rewrite (at2_row l y _ rowl El), (at2_row r y _ rowr Er).
      pose proof (Hlr y rowl El) as Hlen.
      destruct (decide (x < ncols l)%nat) as [Hlt | Hge].
      * apply lookup_app_l. lia.
      * rewrite lookup_app_r by lia. rewrite Hlen. reflexivity.
    + exfalso. apply lookup_lt_Some in El. apply lookup_ge_None in Er. lia.
  - cbn. rewrite (at2_no_row l y _ El).
    assert (Er : cells r !! y = None).
    { apply lookup_ge_None. apply lookup_ge_None in El. lia. }
    rewrite !(at2_no_row r y _ Er). destruct (decide _); reflexivity.
Qed.

Lemma hstack_wf (l r : image) :
  wf l = true -> wf r = true -> nrows l = nrows r -> wf (hstack l r) = true.
Proof.
  intros Hl Hr Hn.
  destruct (StereoFacts.wf_rows l Hl) as [Hll Hlr].
  destruct (StereoFacts.wf_rows r Hr) as [Hrl Hrr].
  apply wf_intro; cbn [cells nrows ncols hstack].
  - rewrite length_zip_with. lia.
  - intros y row Hy. rewrite lookup_zip_with in Hy.
    destruct (cells l !! y) as [rowl |] eqn:El; [| discriminate].
    destruct (cells r !! y) as [rowr |] eqn:Er; [| discriminate].
    cbn in Hy. injection Hy as <-. rewrite length_app.
    rewrite (Hlr y rowl El), (Hrr y rowr Er). reflexivity.
Qed.

Lemma vstack_at (l r : image) (y x : nat) :
  wf l = true ->
  at2 (vstack l r) y x
  = if decide (y < nrows l)%nat then at2 l y x else at2 r (y - nrows l)%nat x.
Proof.
  intros Hl. destruct (StereoFacts.wf_rows l Hl) as [Hll _].
  unfold at2 at 1. cbn [cells vstack].
  destruct (decide (y < nrows l)%nat) as [Hlt | Hge].
  - rewrite lookup_app_l by lia. reflexivity.
  - rewrite lookup_app_r by lia. rewrite Hll. reflexivity.
Qed.

Lemma vstack_wf (l r : image) :
  wf l = true -> wf r = true -> ncols l = ncols r -> wf (vstack l r) = true.
Proof.
  intros Hl Hr Hn.
  destruct (StereoFacts.wf_rows l Hl) as [Hll Hlr].
  destruct (StereoFacts.wf_rows r Hr) as [Hrl Hrr].
  apply wf_intro; cbn [cells nrows ncols vstack].
  - rewrite length_app. lia.
  - intros y row Hy. apply lookup_app_Some in Hy as [Hy | [_ Hy]].
    + eapply Hlr, Hy.
    + rewrite Hn. eapply Hrr, Hy.
Qed.

(** X5. [stack_lr] on two readable images: when their shapes differ it
    raises [ValueError] and writes nothing; when they agree, the
    side-by-side frame has the height of the inputs and twice their width,
    its left half is the left image and its right half the right image,
    pixel for pixel; the top-bottom frame has twice the height, the left
    image on top. *)
Theorem stack_lr_joins_the_two_images (l r : image) :
  wf l = true -> wf r = true ->
  (shape_eqb l r = true ->
     (exists out,
         stacked (Some l) (Some r) true = Return out
         /\ nrows out = nrows l /\ ncols out = (2 * ncols l)%nat
         /\ wf out = true
         /\ forall y x,
              at2 out y x
              = if decide (x < ncols l)%nat then at2 l y x
                else at2 r y (x - ncols l)%nat)
     /\ (exists out,
           stacked (Some l) (Some r) false = Return out
           /\ nrows out = (2 * nrows l)%nat /\ ncols out = ncols l
           /\ wf out = true
           /\ forall y x,
                at2 out y x
                = if decide (y < nrows l)%nat then at2 l y x
                  else at2 r (y - nrows l)%nat x))
  /\ (shape_eqb l r = false ->
      forall side_by_side (dl dr out_dir : folder) (lf rf name : string),
        dl !! lf = Some l -> dr !! rf = Some r ->
        stack_lr dl dr side_by_side out_dir lf rf name
        = Throw (Std ValueError)).
Proof.
  intros Hl Hr. split.
  - intros Hs. pose proof (proj1 (shape_eqb_true l r) Hs) as [Hn Hc].
    unfold stacked. rewrite Hs. split.
    + eexists. split; [reflexivity |]. cbn [nrows ncols hstack].
      repeat split.
      * lia.
      * apply hstack_wf; assumption.
      * intros y x. apply hstack_at; assumption.
    + eexists. split; [reflexivity |]. cbn [nrows ncols vstack].
      repeat split.
      * lia.
      * apply vstack_wf; assumption.
      * intros y x. apply vstack_at; assumption.
  - intros Hs sbs dl dr out_dir lf rf name Hlf Hrf.
    unfold stack_lr, stacked. rewrite Hlf, Hrf, Hs. reflexivity.
Qed.

Lemma stack_lr_joins_the_two_images_witness :
  exists out,
    stacked (Some left_img) (Some right_img) true = Return out
    /\ at2 out 0 1 = Some red_px /\ at2 out 0 2 = Some green_px.
Proof.
  destruct (stack_lr_joins_the_two_images left_img right_img eq_refl eq_refl)
    as [Hsame _].
  destruct (Hsame eq_refl) as [(out & Hout & _ & _ & _ & Hat) _].
  exists out. split; [exact Hout |].
  rewrite !Hat. split; reflexivity.
Defined.

Lemma NoDup_sorted_names {File : Type} (P : string -> Prop)
    `{!forall f, Decision (P f)} (d : gmap string File) :
  NoDup (Pipeline.sorted (filter P (Pipeline.listdir d))).
Proof.
  unfold Pipeline.sorted. rewrite merge_sort_Permutation.
  apply NoDup_filter. unfold Pipeline.listdir. apply NoDup_fst_map_to_list.
Qed.

Lemma png_names_NoDup (d : folder) : NoDup (png_names d).
Proof. apply NoDup_sorted_names. Qed.

Lemma png_names_present (d : folder) (f : string) :
  f ∈ png_names d -> is_Some (d !! f).
Proof.
  unfold png_names, Pipeline.sorted, Pipeline.listdir.
  rewrite merge_sort_Permutation, list_elem_of_filter.
  intros [_ Hin]. apply list_elem_of_fmap in Hin as [[k v] [-> Hkv]].
  apply elem_of_map_to_list in Hkv. simpl. eauto.
Qed.

(** The loop of [batch_stack] over pairs that all stack. *)
Lemma stack_loop (dl dr : folder) (sbs : bool) (pairs : list (string * string)) :
  NoDup pairs.*1 ->
  (forall lf rf, (lf, rf) ∈ pairs -> is_Some (stacked_pair dl dr sbs lf rf)) ->
  forall out : folder,
  exists out',
    run_loop (fun out lr => stack_lr dl dr sbs out lr.1 lr.2 lr.1) pairs out
    = (None, out')
    /\ (forall lf rf, (lf, rf) ∈ pairs ->
          out' !! lf = stacked_pair dl dr sbs lf rf)
    /\ (forall f, f ∉ pairs.*1 -> out' !! f = out !! f).
Proof.
  induction pairs as [| [lf rf] pairs IH]; intros Hnd Hok out.
  - exists out. split; [reflexivity |]. split; [| reflexivity].
    intros lf rf Hin. apply not_elem_of_nil in Hin. contradiction.
  - cbn [fmap list_fmap fst] in Hnd. apply NoDup_cons in Hnd as [Hnot Hnd].
    destruct (Hok lf rf ltac:(left)) as [img Himg].
    assert (Hstep : stack_lr dl dr sbs out lf rf lf = Return (<[lf := img]> out)).
    { unfold stack_lr. unfold stacked_pair in Himg.
      destruct (stacked (dl !! lf) (dr !! rf) sbs); [| discriminate].
      injection Himg as ->. reflexivity. }
    destruct (IH Hnd (fun a b H => Hok a b ltac:(right; exact H))
                (<[lf := img]> out)) as (out' & Hrun & Hin & Hout).
    exists out'. cbn [run_loop fst snd]. rewrite Hstep. repeat split.
    + exact Hrun.
    + intros lf' rf' Hmem. apply elem_of_cons in Hmem as [Heq | Hmem]; [injection Heq as -> -> |].
      * rewrite (Hout lf Hnot), lookup_insert_eq. symmetry. exact Himg.
      * apply Hin, Hmem.
    + intros f Hf. apply not_elem_of_cons in Hf as [Hne Hf].
      rewrite (Hout f Hf), lookup_insert_ne by (intros Heq; apply Hne; symmetry; exact Heq).
      reflexivity.
Qed.

Lemma elem_of_zip_lookup {A B : Type} (la : list A) (lb : list B) (a : A) (b : B) :
  (a, b) ∈ zip la lb <-> exists i, la !! i = Some a /\ lb !! i = Some b.
Proof.
  rewrite list_elem_of_lookup. split; intros [i Hi]; exists i.
  - apply lookup_zip_with_Some in Hi as (a' & b' & Heq & Ha & Hb).
    injection Heq as -> ->. auto.
  - destruct Hi as [Ha Hb]. apply lookup_zip_with_Some. eauto.
Qed.

Lemma fst_zip_take {A B : Type} (la : list A) (lb : list B) :
  (zip la lb).*1 = take (length lb) la.
Proof.
  revert lb. induction la as [| a la IH]; intros [| b lb]; simpl;
    try reflexivity.
  f_equal. apply IH.
Qed.

Lemma NoDup_zip_fst {A B : Type} (la : list A) (lb : list B) :
  NoDup la -> NoDup (zip la lb).*1.
Proof.
  intros Hnd. rewrite fst_zip_take.
  eapply sublist_NoDup; [exact Hnd | apply sublist_take].
Qed.

(** X6. [batch_stack] pairs the two folders by rank, not by name: the
    [i]-th PNG file of the left folder, in sorted order, is stacked with the
    [i]-th PNG file of the right folder, and the frame is written under the
    left file's name. When every such pair has one shape the call completes,
    it writes one frame per pair (as many as the shorter listing has), and
    it leaves every other file of the output folder as it was. *)
Theorem batch_stack_pairs_files_by_rank (left_dir right_dir : folder)
    (out_dir : option folder) (side_by_side : bool) :
  let left_files := png_names left_dir in
  let right_files := png_names right_dir in
  (forall i lf rf, left_files !! i = Some lf -> right_files !! i = Some rf ->
     is_Some (stacked_pair left_dir right_dir side_by_side lf rf)) ->
  exists out',
    batch_stack (Some left_dir) (Some right_dir) out_dir side_by_side
    = (None, out')
    /\ (forall i lf rf,
          left_files !! i = Some lf -> right_files !! i = Some rf ->
          out' !! lf = stacked_pair left_dir right_dir side_by_side lf rf)
    /\ (forall f, f ∉ take (length right_files) left_files ->
          out' !! f = default ∅ out_dir !! f).
Proof.
  intros left_files right_files Hok.
  destruct (stack_loop left_dir right_dir side_by_side
              (zip left_files right_files)) with (out := default ∅ out_dir)
    as (out' & Hrun & Hin & Hout).
  - apply NoDup_zip_fst, png_names_NoDup.
  - intros lf rf Hmem. apply elem_of_zip_lookup in Hmem as (i & Hl & Hr).
    eapply Hok; eassumption.
  - exists out'. unfold batch_stack. fold left_files right_files.
    split; [exact Hrun |]. split.
    + intros i lf rf Hl Hr. apply Hin, elem_of_zip_lookup. eauto.
    + intros f Hf. apply Hout. rewrite fst_zip_take. exact Hf.
Qed.

Lemma batch_stack_pairs_files_by_rank_witness :
  exists out',
    batch_stack (Some left_folder) (Some right_folder) None true = (None, out')
    /\ out' !! "frame_000000.png"
       = stacked_pair left_folder right_folder true
           "frame_000000.png" "frame_000001.png".
Proof.
  destruct (batch_stack_pairs_files_by_rank left_folder right_folder None true)
    as (out' & Hrun & Hin & _).
  - intros i lf rf Hl Hr. destruct i as [| i].
    + vm_compute in Hl, Hr. injection Hl as <-. injection Hr as <-.
      vm_compute. eauto.
    + vm_compute in Hr. destruct i; discriminate.
  - exists out'. split; [exact Hrun |]. apply (Hin 0%nat); vm_compute; reflexivity.
Defined.

End StitchFacts.

(* ===================================================================== *)
(** * The frames a batch hands back ([process_batch], step 5) *)
(* ===================================================================== *)

Module ProcessBatchFacts.
Import Pipeline ProcessBatch.

Lemma elem_of_png_files {File : Type} (d : gmap string File) (f : string) :
  f ∈ png_files d <-> is_png f = true /\ is_Some (d !! f).
Proof.
  unfold png_files, sorted, listdir.
  rewrite merge_sort_Permutation, list_elem_of_filter, list_elem_of_fmap.
  split.
  - intros [Hpng ([k v] & -> & Hkv)]. apply elem_of_map_to_list in Hkv.
    simpl in *. eauto.
  - intros [Hpng [v Hv]]. split; [exact Hpng |]. exists (f, v).
    split; [reflexivity |]. apply elem_of_map_to_list. exact Hv.
Qed.

Lemma png_files_NoDup {File : Type} (d : gmap string File) :
  NoDup (png_files d).
Proof. apply StitchFacts.NoDup_sorted_names. Qed.

Lemma frame_name_nat_inj (i j : nat) :
  PyStr.frame_name (Z.of_nat i) = PyStr.frame_name (Z.of_nat j) -> i = j.
Proof.
  intros H. apply PyStrFacts.frame_name_inj in H; lia.
Qed.

Section Renumber.
Context {File : Type}.
Variable src : gmap string File.

Lemma copy_numbered_ok (dst : gmap string File) (i : nat) (f : string)
    (c : File) :
  src !! f = Some c ->
  copy_numbered src dst (i, f)
  = Ok (<[PyStr.frame_name (Z.of_nat i) := c]> dst).
Proof. intros Hc. unfold copy_numbered. simpl. rewrite Hc. reflexivity. Qed.

(** The copy loop over numbered files that are all present. *)
Lemma copy_loop (l : list (nat * string)) :
  NoDup l.*1 ->
  (forall i f, (i, f) ∈ l -> is_Some (src !! f)) ->
  forall dst : gmap string File,
  exists out,
    fold_result (copy_numbered src) l dst = Ok out
    /\ (forall i f, (i, f) ∈ l ->
          out !! PyStr.frame_name (Z.of_nat i) = src !! f)
    /\ (forall name,
          (forall i, i ∈ l.*1 -> name <> PyStr.frame_name (Z.of_nat i)) ->
          out !! name = dst !! name).
Proof.
  induction l as [| [i f] l IH]; intros Hnd Hok dst.
  - exists dst. split; [reflexivity |]. split; [| reflexivity].
    intros i f Hin. apply not_elem_of_nil in Hin. contradiction.
  - cbn [fmap list_fmap fst] in Hnd. apply NoDup_cons in Hnd as [Hnot Hnd].
    destruct (Hok i f ltac:(left)) as [c Hc].
    destruct (IH Hnd (fun a b H => Hok a b ltac:(right; exact H))
                (<[PyStr.frame_name (Z.of_nat i) := c]> dst))
      as (out & Hrun & Hin & Hout).
    exists out. cbn [fold_result]. rewrite (copy_numbered_ok dst i f c Hc).
    split; [exact Hrun |]. split.
    + intros i' f' Hmem.
      apply elem_of_cons in Hmem as [Heq | Hmem]; [injection Heq as -> -> |].
      * rewrite Hout, lookup_insert_eq; [symmetry; exact Hc |].
        intros j Hj Heq. apply frame_name_nat_inj in Heq. subst j.
        contradiction.
      * apply Hin, Hmem.
    + intros name Hname. rewrite Hout.
      * apply lookup_insert_ne. intros Heq. apply (Hname i); [left | ].
        symmetry. exact Heq.
      * intros j Hj. apply Hname. right. exact Hj.
Qed.

End Renumber.

Lemma enumerate_fst {A : Type} (l : list A) :
  (enumerate l).*1 = seq 0 (length l).
Proof.
  unfold enumerate. apply fst_zip. rewrite length_seq. reflexivity.
Qed.

Lemma elem_of_enumerate {A : Type} (l : list A) (i : nat) (a : A) :
  (i, a) ∈ enumerate l <-> l !! i = Some a.
Proof.
  unfold enumerate. rewrite StitchFacts.elem_of_zip_lookup. split.
  - intros (k & Hk & Ha). apply lookup_seq in Hk as [-> _]. exact Ha.
  - intros Ha. exists i. split; [| exact Ha].
    apply lookup_seq. split; [reflexivity |].
    apply lookup_lt_Some in Ha. exact Ha.
Qed.

(** X7. Step 5 of [process_batch] (and step 4 of [process_anaglyph_batch])
    never fails and numbers the frames without gap: the [i]-th PNG file of
    the stereo folder, in sorted order, is copied to [frame_{i:06d}.png];
    every other file of [frames_combined] stays as it was (files left there
    by an earlier run included); and when [frames_combined] starts empty it
    ends with exactly the [n] files numbered 0 to [n-1], all of which the
    caller's [.png] listing finds. *)
Theorem renumbering_is_gap_free {File : Type} (src dst : gmap string File) :
  let files := png_files src in
  let n := length files in
  exists out,
    renumber src dst = Ok out
    /\ (forall (i : nat) (f : string), files !! i = Some f ->
          out !! PyStr.frame_name (Z.of_nat i) = src !! f)
    /\ (forall name,
          (forall i : nat, (i < n)%nat ->
             name <> PyStr.frame_name (Z.of_nat i)) ->
          out !! name = dst !! name)
    /\ (dst = ∅ ->
        (forall name, is_Some (out !! name)
           <-> exists i : nat, (i < n)%nat
                               /\ name = PyStr.frame_name (Z.of_nat i))
        /\ length (png_files out) = n).
Proof.
  intros files n.
  destruct (copy_loop src (enumerate files)) with (dst := dst)
    as (out & Hrun & Hin & Hout).
  { rewrite enumerate_fst. apply NoDup_seq. }
  { intros i f Hmem. apply elem_of_enumerate in Hmem.
    apply list_elem_of_lookup_2 in Hmem.
    apply elem_of_png_files in Hmem as [_ Hf]. exact Hf. }
  exists out. split; [exact Hrun |].
  assert (Hnum : forall (i : nat) f, files !! i = Some f ->
            out !! PyStr.frame_name (Z.of_nat i) = src !! f).
  { intros i f Hi. apply Hin, elem_of_enumerate, Hi. }
  assert (Hrest : forall name,
            (forall i : nat, (i < n)%nat ->
               name <> PyStr.frame_name (Z.of_nat i)) ->
            out !! name = dst !! name).
  { intros name Hname. apply Hout. intros i Hi. apply Hname.
    rewrite enumerate_fst in Hi. apply elem_of_seq in Hi. lia. }
  split; [exact Hnum |]. split; [exact Hrest |].
  intros ->.
  assert (Hkeys : forall name, is_Some (out !! name)
            <-> exists i : nat, (i < n)%nat
                                /\ name = PyStr.frame_name (Z.of_nat i)).
  { intros name. split.
    - intros Hsome.
      destruct (decide (Exists (fun i => name = PyStr.frame_name (Z.of_nat i))
                               (seq 0 n))) as [Hex | Hno].
      + apply Exists_exists in Hex as (i & Hi & ->).
        apply elem_of_seq in Hi. exists i. split; [lia | reflexivity].
      + exfalso. rewrite Hrest in Hsome.
        * rewrite lookup_empty in Hsome. destruct Hsome as [? ?]. discriminate.
        * intros i Hi Heq. apply Hno, Exists_exists. exists i.
          split; [| exact Heq]. apply elem_of_seq. lia.
    - intros (i & Hi & ->).
      destruct (lookup_lt_is_Some_2 files i Hi) as [f Hf].
      rewrite (Hnum i f Hf).
      apply list_elem_of_lookup_2, elem_of_png_files in Hf as [_ Hf].
      exact Hf. }
  split; [exact Hkeys |].
  assert (Hperm : png_files out
                  ≡ₚ (fun i : nat => PyStr.frame_name (Z.of_nat i)) <$> seq 0 n).
  { apply NoDup_Permutation.
    - apply png_files_NoDup.
    - apply NoDup_fmap_2; [| apply NoDup_seq].
      intros i j. apply frame_name_nat_inj.
    - intros name. rewrite elem_of_png_files, Hkeys, list_elem_of_fmap.
      split.
      + intros [_ (i & Hi & ->)]. exists i. split; [reflexivity |].
        apply elem_of_seq. lia.
      + intros (i & -> & Hi). apply elem_of_seq in Hi. split.
        * apply RunFacts.is_png_frame_name.
        * exists i. split; [lia | reflexivity]. }
  rewrite Hperm, length_fmap, length_seq. reflexivity.
Qed.

End ProcessBatchFacts.

(* ===================================================================== *)
(** * Sorted listings and the order of the frames *)
(* ===================================================================== *)

Module FrameOrder.
Import PyStr PyStrDefs Pipeline ProcessBatch.
Import Decimal.

#[local] Open Scope N_scope.

Lemma value_acc (u : uint) (acc : positive) :
  N.pos (Pos.of_uint_acc u acc) = value u (N.pos acc).
Proof.
  revert acc. induction u as [| u IH | u IH | u IH | u IH | u IH | u IH
                              | u IH | u IH | u IH | u IH];
    intros acc; cbn [Pos.of_uint_acc value];
    [reflexivity | rewrite IH; f_equal; lia ..].
Qed.

Lemma value_of_uint (u : uint) : N.of_uint u = value u 0.
Proof.
  unfold N.of_uint.
  induction u as [| u IH | u IH | u IH | u IH | u IH | u IH
                  | u IH | u IH | u IH | u IH];
    cbn [Pos.of_uint value];
    [reflexivity | exact IH | rewrite value_acc; reflexivity ..].
Qed.

Lemma digit_cases (d : N) :
  d < 10 ->
  d = 0 \/ d = 1 \/ d = 2 \/ d = 3 \/ d = 4 \/ d = 5 \/ d = 6 \/ d = 7
  \/ d = 8 \/ d = 9.
Proof. lia. Qed.

Ltac by_digit d H :=
  destruct (digit_cases d H)
    as [-> | [-> | [-> | [-> | [-> | [-> | [-> | [-> | [-> | ->]]]]]]]]];
  reflexivity.

Lemma value_digit_cons (d : N) (u : uint) (acc : N) :
  d < 10 -> value (digit_cons d u) acc = value u (d + 10 * acc).
Proof. intros H. by_digit d H. Qed.

Lemma nb_digits_digit_cons (d : N) (u : uint) :
  d < 10 -> nb_digits (digit_cons d u) = S (nb_digits u).
Proof. intros H. by_digit d H. Qed.

Lemma string_of_digit_cons (d : N) (u : uint) :
  d < 10 ->
  NilEmpty.string_of_uint (digit_cons d u)
  = String (ascii_of_N (48 + d)) (NilEmpty.string_of_uint u).
Proof. intros H. by_digit d H. Qed.

Lemma digit_lt (n : N) (k : nat) : (n / 10 ^ N.of_nat k) mod 10 < 10.
Proof. apply N.mod_lt. discriminate. Qed.

Lemma mod_pow_succ (n : N) (w : nat) :
  n mod 10 ^ N.of_nat (S w)
  = n mod 10 ^ N.of_nat w + 10 ^ N.of_nat w * ((n / 10 ^ N.of_nat w) mod 10).
Proof.
  rewrite Nat2N.inj_succ, N.pow_succ_r', (N.mul_comm 10).
  apply N.Div0.mod_mul_r.
Qed.

Lemma value_digits (w : nat) (n acc : N) :
  value (digits w n) acc = acc * 10 ^ N.of_nat w + n mod 10 ^ N.of_nat w.
Proof.
  revert acc. induction w as [| w IH]; intros acc.
  - cbn [digits value]. change (10 ^ N.of_nat 0) with 1.
    rewrite N.mod_1_r. lia.
  - cbn [digits]. rewrite value_digit_cons by apply digit_lt.
    rewrite IH, mod_pow_succ, Nat2N.inj_succ, N.pow_succ_r'. lia.
Qed.

Lemma nb_digits_digits (w : nat) (n : N) : nb_digits (digits w n) = w.
Proof.
  induction w as [| w IH]; [reflexivity |].
  cbn [digits]. rewrite nb_digits_digit_cons by apply digit_lt.
  rewrite IH. reflexivity.
Qed.

(** The digits [str(n)] writes are the [w] low digits of [n] without their
    leading zeros. *)
Lemma to_uint_digits (w : nat) (n : N) :
  n < 10 ^ N.of_nat w -> N.to_uint n = unorm (digits w n).
Proof.
  intros Hn. rewrite <- DecimalN.Unsigned.to_of. f_equal.
  rewrite value_of_uint, value_digits, N.mod_small by exact Hn. lia.
Qed.

Lemma length_string_of_uint (u : uint) :
  String.length (NilEmpty.string_of_uint u) = nb_digits u.
Proof. induction u; simpl; congruence. Qed.

Lemma zfill_unorm (u : uint) :
  u <> Nil ->
  zfill (nb_digits u) (NilEmpty.string_of_uint (unorm u))
  = NilEmpty.string_of_uint u.
Proof.
  assert (Hsame : forall v : uint,
            zfill (nb_digits v) (NilEmpty.string_of_uint v)
            = NilEmpty.string_of_uint v).
  { intros v. unfold zfill. rewrite length_string_of_uint, Nat.sub_diag.
    reflexivity. }
  induction u as [| u IH | u _ | u _ | u _ | u _ | u _
                  | u _ | u _ | u _ | u _];
    intros Hne; [contradiction | | apply Hsame ..].
  rewrite DecimalFacts.unorm_D0.
  assert (Hd : u = Nil \/ u <> Nil)
    by (destruct u; [left; reflexivity | right; discriminate ..]).
  destruct Hd as [-> | Hu]; [reflexivity |].
  specialize (IH Hu). unfold zfill in *.
  rewrite length_string_of_uint in *.
  pose proof (DecimalFacts.nb_digits_unorm u Hu) as Hle.
  cbn [nb_digits].
  replace (S (nb_digits u) - nb_digits (unorm u))%nat
    with (S (nb_digits u - nb_digits (unorm u))) by lia.
  cbn [zeros NilEmpty.string_of_uint]. rewrite PyStrFacts.append_cons.
  f_equal. exact IH.
Qed.

(** Zero-padding [str(n)] to [w] characters writes the [w] low digits. *)
Lemma zfill_digits (w : nat) (n : N) :
  (0 < w)%nat -> n < 10 ^ N.of_nat w ->
  zfill w (digits_of_N n) = NilEmpty.string_of_uint (digits w n).
Proof.
  intros Hw Hn. unfold digits_of_N. rewrite (to_uint_digits w n Hn).
  rewrite <- (nb_digits_digits w n) at 1. apply zfill_unorm.
  intros Hnil. pose proof (nb_digits_digits w n) as Hlen.
  rewrite Hnil in Hlen. simpl in Hlen. lia.
Qed.

(** Strings of [w] digits compare as the numbers they denote. *)
Lemma compare_digits (w : nat) (n m : N) :
  String.compare (NilEmpty.string_of_uint (digits w n))
                 (NilEmpty.string_of_uint (digits w m))
  = (n mod 10 ^ N.of_nat w ?= m mod 10 ^ N.of_nat w).
Proof.
  induction w as [| w IH].
  - change (10 ^ N.of_nat 0) with 1. rewrite !N.mod_1_r. reflexivity.
  - cbn [digits]. rewrite !string_of_digit_cons by apply digit_lt.
    cbn [String.compare]. unfold Ascii.compare.
    pose proof (digit_lt n w) as Ha. pose proof (digit_lt m w) as Hb.
    rewrite !N_ascii_embedding by lia.
    rewrite IH, !mod_pow_succ.
    set (P := 10 ^ N.of_nat w).
    assert (Hrn : n mod P < P) by (apply N.mod_lt, N.pow_nonzero; discriminate).
    assert (Hrm : m mod P < P) by (apply N.mod_lt, N.pow_nonzero; discriminate).
    set (a := (n / P) mod 10) in *. set (b := (m / P) mod 10) in *.
    set (rn := n mod P) in *. set (rm := m mod P) in *.
    destruct (N.compare_spec (48 + a) (48 + b)) as [Heq | Hlt | Hgt].
    + assert (a = b) as -> by lia.
      destruct (N.compare_spec rn rm) as [E | L | G]; symmetry.
      * apply N.compare_eq_iff. lia.
      * apply N.compare_lt_iff. lia.
      * apply N.compare_gt_iff. lia.
    + symmetry. apply N.compare_lt_iff. nia.
    + symmetry. apply N.compare_gt_iff. nia.
Qed.

Lemma ascii_compare_refl (c : ascii) : Ascii.compare c c = Eq.
Proof. unfold Ascii.compare. apply N.compare_refl. Qed.

Lemma string_compare_refl (s : string) : String.compare s s = Eq.
Proof.
  induction s as [| c s IH]; [reflexivity |].
  cbn [String.compare]. rewrite ascii_compare_refl. exact IH.
Qed.

Lemma compare_app_l (p a b : string) :
  String.compare (p +:+ a) (p +:+ b) = String.compare a b.
Proof.
  induction p as [| c p IH]; [reflexivity |].
  rewrite !PyStrFacts.append_cons. cbn [String.compare].
  rewrite ascii_compare_refl. exact IH.
Qed.

Lemma compare_app_r (a b s : string) :
  String.length a = String.length b ->
  String.compare (a +:+ s) (b +:+ s) = String.compare a b.
Proof.
  revert b. induction a as [| x a IH]; intros [| y b] Hlen;
    try discriminate.
  - apply string_compare_refl.
  - rewrite !PyStrFacts.append_cons. cbn [String.compare].
    destruct (Ascii.compare x y); [| reflexivity ..].
    apply IH. simpl in Hlen. lia.
Qed.

#[local] Open Scope Z_scope.

Lemma format_digits (i : Z) :
  0 <= i < 10 ^ 6 ->
  format_0wd 6 i = NilEmpty.string_of_uint (digits 6 (Z.to_N i)).
Proof.
  intros Hi.
  assert (Hfmt : format_0wd 6 i = zfill 6 (digits_of_N (Z.to_N i)))
    by (destruct i; [reflexivity | reflexivity | lia]).
  rewrite Hfmt. apply zfill_digits; [lia |].
  change (10 ^ N.of_nat 6)%N with (Z.to_N (10 ^ 6)). lia.
Qed.

(** Below a million, frame names compare as their indices. *)
Lemma compare_frame_name (i j : Z) :
  0 <= i < 10 ^ 6 -> 0 <= j < 10 ^ 6 ->
  String.compare (frame_name i) (frame_name j) = (i ?= j).
Proof.
  intros Hi Hj. unfold frame_name.
  rewrite compare_app_l, !format_digits by assumption.
  rewrite compare_app_r
    by (rewrite !length_string_of_uint, !nb_digits_digits; reflexivity).
  rewrite compare_digits, !N.mod_small
    by (change (10 ^ N.of_nat 6)%N with (Z.to_N (10 ^ 6)); lia).
  apply Z2N.inj_compare; lia.
Qed.

Lemma str_le_frame_name (i j : Z) :
  0 <= i < 10 ^ 6 -> 0 <= j < 10 ^ 6 ->
  str_le (frame_name i) (frame_name j) <-> i <= j.
Proof.
  intros Hi Hj. unfold str_le, String.leb.
  rewrite (compare_frame_name i j Hi Hj). unfold Z.le.
  destruct (i ?= j); split; intros H; try reflexivity; try discriminate.
  contradiction H. reflexivity.
Qed.

(** The order of [sorted]: total, antisymmetric and transitive. *)
Lemma str_le_total : Total str_le.
Proof. intros a b. apply String.leb_total. Qed.

Lemma str_le_antisym : AntiSymm eq str_le.
Proof. intros a b. apply String.leb_antisym. Qed.

Lemma str_le_trans : Transitive str_le.
Proof.
  unfold str_le, String.leb. intros a.
  induction a as [| x a IH]; intros [| y b] [| z c]; cbn [String.compare];
    try (intros; reflexivity); try (intros; discriminate).
  unfold Ascii.compare.
  destruct (N.compare_spec (N_of_ascii x) (N_of_ascii y)),
           (N.compare_spec (N_of_ascii y) (N_of_ascii z)),
           (N.compare_spec (N_of_ascii x) (N_of_ascii z));
    intros Hab Hbc; try reflexivity; try discriminate; try lia.
  eapply IH; eassumption.
Qed.

Lemma sorted_is_sorted (l : list string) : StronglySorted str_le (sorted l).
Proof.
  apply (@StronglySorted_merge_sort _ str_le _ str_le_trans str_le_total).
Qed.

Lemma seqZ_sorted (len : nat) (a : Z) :
  StronglySorted Z.le (seqZ a (Z.of_nat len)).
Proof.
  revert a. induction len as [| len IH]; intros a.
  - constructor.
  - rewrite seqZ_cons by lia.
    replace (Z.pred (Z.of_nat (S len))) with (Z.of_nat len) by lia.
    constructor; [apply IH |].
    apply Forall_seqZ. intros k Hk. lia.
Qed.

Lemma frame_names_sorted (a m : Z) :
  0 <= a -> a + m <= 10 ^ 6 ->
  StronglySorted str_le (frame_name <$> seqZ a m).
Proof.
  intros Ha Hm. destruct (decide (m <= 0)) as [Hneg | Hpos].
  { rewrite seqZ_nil by exact Hneg. constructor. }
  assert (Hall : Forall (fun i => 0 <= i < 10 ^ 6) (seqZ a m))
    by (apply Forall_seqZ; intros k Hk; lia).
  pose proof (seqZ_sorted (Z.to_nat m) a) as Hs.
  rewrite Z2Nat.id in Hs by lia.
  induction Hs as [| i l Hs IH Hi]; [constructor |].
  apply Forall_cons in Hall as [Hrange Hall].
  rewrite fmap_cons. constructor; [apply IH, Hall |].
  apply Forall_fmap, Forall_forall. intros j Hj. simpl.
  apply str_le_frame_name; [exact Hrange | |].
  - rewrite Forall_forall in Hall. apply Hall, Hj.
  - rewrite Forall_forall in Hi. apply Hi, Hj.
Qed.

(** The listing of a folder that holds the frames [a], ..., [a + m - 1]. *)
Lemma png_files_numbered {File : Type} (d : gmap string File) (a m : Z) :
  0 <= a -> a + m <= 10 ^ 6 ->
  dom d = list_to_set (frame_name <$> seqZ a m) ->
  png_files d = frame_name <$> seqZ a m.
Proof.
  intros Ha Hm Hdom.
  apply (@StronglySorted_unique _ str_le str_le_antisym).
  - apply sorted_is_sorted.
  - apply frame_names_sorted; assumption.
  - apply NoDup_Permutation.
    + apply ProcessBatchFacts.png_files_NoDup.
    + apply NoDup_fmap_2_strong; [| apply NoDup_seqZ].
      intros i j Hi Hj. apply elem_of_seqZ in Hi, Hj.
      apply PyStrFacts.frame_name_inj; lia.
    + intros name. rewrite ProcessBatchFacts.elem_of_png_files.
      rewrite <- elem_of_dom, Hdom, elem_of_list_to_set, list_elem_of_fmap.
      split.
      * intros [_ H]. exact H.
      * intros (i & -> & Hi). split; [apply RunFacts.is_png_frame_name |].
        exists i. split; [reflexivity | exact Hi].
Qed.

(** X8. A folder that holds the frames numbered [a] to [a + m - 1] and
    nothing else, none of them numbered a million or more, is listed in the
    order of the numbers: on six-digit frame names the alphabetical order of
    [sorted] is the numerical one. *)
Theorem numbered_frames_are_listed_in_order {File : Type}
    (d : gmap string File) (a m : Z) :
  0 <= a -> a + m <= 10 ^ 6 ->
  dom d = list_to_set (frame_name <$> seqZ a m) ->
  png_files d = frame_name <$> seqZ a m
  /\ forall i j : Z, a <= i < a + m -> a <= j < a + m ->
       (str_le (frame_name i) (frame_name j) <-> i <= j).
Proof.
  intros Ha Hm Hdom. split; [apply png_files_numbered; assumption |].
  intros i j Hi Hj. apply str_le_frame_name; lia.
Qed.

Lemma numbered_frames_are_listed_in_order_witness :
  png_files (File := nat)
    {[ frame_name 10 := 1%nat; frame_name 9 := 2%nat ]}
  = [frame_name 9; frame_name 10].
Proof.
  refine (proj1 (numbered_frames_are_listed_in_order (File := nat)
                   {[ frame_name 10 := 1%nat; frame_name 9 := 2%nat ]}
                   9 2 _ _ _)).
  - lia.
  - lia.
  - vm_compute. reflexivity.
Defined.

(** X9. Step 5 of [process_batch] keeps the frames of a batch in the order
    of the video: when the stereo folder holds the frames numbered [a] to
    [a + m - 1] of the source video and nothing else, all below a million,
    the frame the batch hands back as number [i] is the stereo frame of
    frame [a + i] of the video. *)
Theorem renumbering_keeps_the_video_order {File : Type}
    (src dst : gmap string File) (a m : Z) :
  0 <= a -> a + m <= 10 ^ 6 ->
  dom src = list_to_set (frame_name <$> seqZ a m) ->
  exists out,
    renumber src dst = Ok out
    /\ forall i : Z, 0 <= i < m ->
         out !! frame_name i = src !! frame_name (a + i).
Proof.
  intros Ha Hm Hdom.
  pose proof (png_files_numbered src a m Ha Hm Hdom) as Hfiles.
  destruct (ProcessBatchFacts.copy_loop src (enumerate (png_files src)))
    with (dst := dst) as (out & Hrun & Hin & _).
  { rewrite ProcessBatchFacts.enumerate_fst. apply NoDup_seq. }
  { intros i f Hmem. apply ProcessBatchFacts.elem_of_enumerate in Hmem.
    apply list_elem_of_lookup_2 in Hmem.
    apply ProcessBatchFacts.elem_of_png_files in Hmem as [_ Hf]. exact Hf. }
  exists out. split; [exact Hrun |].
  intros i Hi. rewrite <- (Z2Nat.id i) at 1 by lia.
  apply Hin, ProcessBatchFacts.elem_of_enumerate.
  rewrite Hfiles, list_lookup_fmap, lookup_seqZ_lt by lia.
  simpl. rewrite Z2Nat.id by lia. reflexivity.
Qed.

Lemma renumbering_keeps_the_video_order_witness :
  exists out,
    renumber (File := nat)
      {[ frame_name 10 := 1%nat; frame_name 9 := 2%nat ]} ∅ = Ok out
    /\ out !! frame_name 0 = Some 2%nat
    /\ out !! frame_name 1 = Some 1%nat.
Proof.
  destruct (renumbering_keeps_the_video_order (File := nat)
              {[ frame_name 10 := 1%nat; frame_name 9 := 2%nat ]} ∅ 9 2)
    as (out & Hrun & Hat).
  - lia.
  - lia.
  - vm_compute. reflexivity.
  - exists out. split; [exact Hrun |]. split.
    + rewrite (Hat 0) by lia. vm_compute. reflexivity.
    + rewrite (Hat 1) by lia. vm_compute. reflexivity.
Defined.

(** [sorted] depends on the names only, not on the order in which
    [os.listdir] gives them. *)
Lemma sorted_same_names (l1 l2 : list string) :
  l1 ≡ₚ l2 -> sorted l1 = sorted l2.
Proof.
  intros Hperm. apply (@StronglySorted_unique _ str_le str_le_antisym).
  - apply sorted_is_sorted.
  - apply sorted_is_sorted.
  - unfold sorted. rewrite !merge_sort_Permutation. exact Hperm.
Qed.

Lemma elem_of_listdir {File : Type} (d : gmap string File) (f : string) :
  f ∈ listdir d <-> f ∈ dom d.
Proof.
  unfold listdir. rewrite elem_of_dom, list_elem_of_fmap. split.
  - intros ([k v] & -> & Hkv). apply elem_of_map_to_list in Hkv.
    simpl. eauto.
  - intros [v Hv]. exists (f, v). split; [reflexivity |].
    apply elem_of_map_to_list. exact Hv.
Qed.

Lemma png_names_same_dom (dl dr : Stitch.folder) :
  dom dl = dom dr -> Stitch.png_names dl = Stitch.png_names dr.
Proof.
  intros Hdom. unfold Stitch.png_names. apply sorted_same_names.
  apply NoDup_Permutation.
  - apply NoDup_filter. unfold listdir. apply NoDup_fst_map_to_list.
  - apply NoDup_filter. unfold listdir. apply NoDup_fst_map_to_list.
  - intros f. rewrite !list_elem_of_filter, !elem_of_listdir, Hdom.
    reflexivity.
Qed.

Lemma elem_of_png_names (d : Stitch.folder) (f : string) :
  f ∈ Stitch.png_names d
  <-> PyStr.endswith f ".png" = true /\ is_Some (d !! f).
Proof.
  unfold Stitch.png_names, sorted.
  rewrite merge_sort_Permutation, list_elem_of_filter, elem_of_listdir.
  rewrite elem_of_dom. reflexivity.
Qed.

(** X10. [batch_stack] on two folders that hold the same file names, the
    two images of a name being of one shape: the call completes, every
    [.png] file is stacked with the file of the same name of the other
    folder and written under that name, and no other file of the output
    folder is touched. *)
Theorem batch_stack_pairs_namesakes (left_dir right_dir : Stitch.folder)
    (out_dir : option Stitch.folder) (side_by_side : bool) :
  dom left_dir = dom right_dir ->
  (forall f l r, left_dir !! f = Some l -> right_dir !! f = Some r ->
     Stitch.shape_eqb l r = true) ->
  exists out',
    Stitch.batch_stack (Some left_dir) (Some right_dir) out_dir side_by_side
    = (None, out')
    /\ (forall f l r,
          PyStr.endswith f ".png" = true ->
          left_dir !! f = Some l -> right_dir !! f = Some r ->
          out' !! f = Some (if side_by_side then Stitch.hstack l r
                            else Stitch.vstack l r))
    /\ (forall f,
          PyStr.endswith f ".png" = false \/ left_dir !! f = None ->
          out' !! f = default ∅ out_dir !! f).
Proof.
  intros Hdom Hshape.
  pose proof (png_names_same_dom left_dir right_dir Hdom) as Hnames.
  assert (Hpair : forall lf rf,
            (lf, rf) ∈ zip (Stitch.png_names left_dir)
                           (Stitch.png_names right_dir) ->
            lf = rf /\ lf ∈ Stitch.png_names left_dir).
  { intros lf rf Hmem.
    apply StitchFacts.elem_of_zip_lookup in Hmem as (i & Hl & Hr).
    rewrite <- Hnames in Hr. split; [congruence |].
    eapply list_elem_of_lookup_2, Hl. }
  assert (Hboth : forall f, is_Some (left_dir !! f) ->
            is_Some (right_dir !! f)).
  { intros f Hf. apply elem_of_dom. rewrite <- Hdom. apply elem_of_dom, Hf. }
  assert (Hstack : forall f l r,
            left_dir !! f = Some l -> right_dir !! f = Some r ->
            StitchDefs.stacked_pair left_dir right_dir side_by_side f f
            = Some (if side_by_side then Stitch.hstack l r
                    else Stitch.vstack l r)).
  { intros f l r Hl Hr. unfold StitchDefs.stacked_pair, Stitch.stacked.
    rewrite Hl, Hr, (Hshape f l r Hl Hr). reflexivity. }
  destruct (StitchFacts.stack_loop left_dir right_dir side_by_side
              (zip (Stitch.png_names left_dir) (Stitch.png_names right_dir)))
    with (out := default ∅ out_dir) as (out' & Hrun & Hin & Hout).
  - apply StitchFacts.NoDup_zip_fst, StitchFacts.png_names_NoDup.
  - intros lf rf Hmem. destruct (Hpair lf rf Hmem) as [<- Hf].
    apply elem_of_png_names in Hf as [_ [l Hl]].
    destruct (Hboth lf (mk_is_Some _ _ Hl)) as [r Hr].
    rewrite (Hstack lf l r Hl Hr). eauto.
  - exists out'. split; [exact Hrun |]. split.
    + intros f l r Hpng Hl Hr. rewrite <- (Hstack f l r Hl Hr).
      apply Hin. rewrite <- Hnames.
      assert (Hf : f ∈ Stitch.png_names left_dir)
        by (apply elem_of_png_names; eauto).
      apply list_elem_of_lookup in Hf as [i Hi].
      apply StitchFacts.elem_of_zip_lookup. eauto.
    + intros f Hf. apply Hout. rewrite StitchFacts.fst_zip_take.
      intros Hmem. apply subseteq_take in Hmem.
      apply elem_of_png_names in Hmem as [Hpng [l Hl]].
      destruct Hf as [Hf | Hf]; congruence.
Qed.

Lemma batch_stack_pairs_namesakes_witness :
  exists out',
    Stitch.batch_stack (Some {[ "frame_000000.png" := StitchDefs.left_img ]})
                       (Some {[ "frame_000000.png" := StitchDefs.right_img ]})
                       None true
    = (None, out')
    /\ out' !! "frame_000000.png"
       = Some (Stitch.hstack StitchDefs.left_img StitchDefs.right_img).
Proof.
  destruct (batch_stack_pairs_namesakes
              {[ "frame_000000.png" := StitchDefs.left_img ]}
              {[ "frame_000000.png" := StitchDefs.right_img ]} None true)
    as (out' & Hrun & Hin & _).
  - vm_compute. reflexivity.
  - intros f l r Hl Hr.
    apply lookup_singleton_Some in Hl as [_ <-].
    apply lookup_singleton_Some in Hr as [_ <-]. reflexivity.
  - exists out'. split; [exact Hrun |].
    apply Hin; [reflexivity | vm_compute; reflexivity ..].
Defined.

End FrameOrder.

(* ===================================================================== *)
(** * The run: what it runs, and what it leaves in the streams *)
(* ===================================================================== *)

Module RunMore.
Import Pipeline PipelineDefs PipelineFacts RunFacts RunMoreDefs.

Section Steps.
Context {File : Type}.
Variable R : run_state File -> run_state File -> Prop.
Hypothesis R_refl : forall s, R s s.
Hypothesis R_trans : forall s1 s2 s3, R s1 s2 -> R s2 s3 -> R s1 s3.

Lemma steps_ret {A : Type} (a : A) : steps R (ret (File := File) a).
Proof. intros s. apply R_refl. Qed.

Lemma steps_raise {A : Type} (e : py_exception) :
  steps R (raise (File := File) (A := A) e).
Proof. intros s. apply R_refl. Qed.

Lemma steps_lift {A : Type} (r : result A) : steps R (lift (File := File) r).
Proof. intros s. apply R_refl. Qed.

Lemma steps_get {A : Type} (f : run_state File -> A) : steps R (get f).
Proof. intros s. apply R_refl. Qed.

Lemma steps_bind {A B : Type} (m : M File A) (k : A -> M File B) :
  steps R m -> (forall a, steps R (k a)) -> steps R (bindM m k).
Proof.
  intros Hm Hk s. unfold bindM. specialize (Hm s).
  destruct (m s) as [[a | e] s1]; simpl in *.
  - eapply R_trans; [exact Hm | apply Hk].
  - exact Hm.
Qed.

Lemma steps_try {A : Type} (body : M File A)
    (handler : py_exception -> M File A) :
  steps R body -> (forall e, steps R (handler e)) ->
  steps R (try_except body handler).
Proof.
  intros Hb Hh s. unfold try_except. specialize (Hb s).
  destruct (body s) as [[a | e] s1]; simpl in *.
  - exact Hb.
  - eapply R_trans; [exact Hb | apply Hh].
Qed.

Lemma steps_for_each {A : Type} (body : A -> M File unit) (l : list A) :
  (forall a, a ∈ l -> steps R (body a)) -> steps R (for_each body l).
Proof.
  induction l as [| a l IH]; intros Hbody.
  - apply steps_ret.
  - cbn [for_each]. apply steps_bind.
    + apply Hbody. left.
    + intros _. apply IH. intros a' Ha'. apply Hbody. right. exact Ha'.
Qed.

End Steps.

Section Trace.
Context {File : Type}.
Variable W : world File.
Variable P : event -> Prop.

Local Abbreviation adds := (@adds_events File P).

Lemma adds_refl (s : run_state File) : adds s s.
Proof. exists []. rewrite app_nil_r. split; [reflexivity | constructor]. Qed.

Lemma adds_trans (s1 s2 s3 : run_state File) :
  adds s1 s2 -> adds s2 s3 -> adds s1 s3.
Proof.
  intros (t1 & E1 & F1) (t2 & E2 & F2). exists (t1 ++ t2).
  rewrite E2, E1, app_assoc. split; [reflexivity |].
  apply Forall_app. auto.
Qed.

Lemma adds_same (s s' : run_state File) : events s' = events s -> adds s s'.
Proof.
  intros E. exists []. rewrite app_nil_r. split; [exact E | constructor].
Qed.

Lemma steps_print (l : log_line) : steps adds (print (File := File) l).
Proof. intros s. apply adds_same. reflexivity. Qed.

Lemma steps_record (ev : event) :
  P ev -> steps adds (record (File := File) ev).
Proof.
  intros Hev s. exists [ev]. split; [reflexivity |]. constructor; [exact Hev |].
  constructor.
Qed.

Lemma steps_run_tool (j : job) : P (Ran j) -> steps adds (run_tool W j).
Proof.
  intros Hj. unfold run_tool.
  apply steps_bind; [exact adds_trans | apply steps_record, Hj |].
  intros _. apply steps_lift. exact adds_refl.
Qed.

Lemma steps_frames_to_segment (j : job) (d : gmap string File) :
  P (Ran j) -> steps adds (frames_to_segment W j d).
Proof.
  intros Hj. unfold frames_to_segment. destruct (png_files d).
  - apply steps_raise. exact adds_refl.
  - apply steps_run_tool, Hj.
Qed.

Lemma steps_add_to_stream (j : job) :
  P (Ran j) -> steps adds (add_to_stream W j).
Proof.
  intros Hj. unfold add_to_stream.
  apply steps_bind; [exact adds_trans | apply steps_record, Hj |].
  intros _ s. destruct (Streaming.add_batch_to_hls _ _) as [r st].
  apply adds_same. reflexivity.
Qed.

Lemma steps_add_to_final_hls (j : job) :
  P (Ran j) -> steps adds (add_to_final_hls W j).
Proof.
  intros Hj. unfold add_to_final_hls.
  apply steps_bind; [exact adds_trans | apply steps_record, Hj |].
  intros _ s. destruct (Streaming.add_batch_to_hls _ _) as [r st].
  apply adds_same. reflexivity.
Qed.

Lemma steps_copy_frame (d : gmap string File) (f : string) :
  steps adds (copy_frame d f).
Proof.
  unfold copy_frame.
  apply steps_bind; [exact adds_trans | apply steps_lift; exact adds_refl |].
  intros c s. apply adds_same. reflexivity.
Qed.

Lemma steps_assemble_batch (i : nat) (b : VideoReader.batch) :
  P (Processed i) -> P (Ran (EncodeBatch i)) -> P (Ran (HlsBatch i)) ->
  steps adds (assemble_batch W (i, b)).
Proof.
  intros Hp He Hh. unfold assemble_batch.
  apply steps_bind; [exact adds_trans | apply steps_record, Hp |]. intros _.
  apply steps_bind; [exact adds_trans | apply steps_lift; exact adds_refl |].
  intros d.
  apply steps_bind; [exact adds_trans | |].
  { apply steps_for_each; [exact adds_refl | exact adds_trans |].
    intros f _. apply steps_copy_frame. }
  intros _.
  apply steps_bind; [exact adds_trans | apply steps_get; exact adds_refl |].
  intros n.
  apply steps_bind; [exact adds_trans | apply steps_print |]. intros _.
  apply steps_try; [exact adds_trans | |].
  - apply steps_bind; [exact adds_trans | apply steps_frames_to_segment, He |].
    intros _. apply steps_add_to_stream, Hh.
  - intros e. apply steps_print.
Qed.

Lemma steps_batches (l : list (nat * VideoReader.batch)) :
  (forall i b, (i, b) ∈ l ->
     P (Processed i) /\ P (Ran (EncodeBatch i)) /\ P (Ran (HlsBatch i))) ->
  steps adds (for_each (assemble_batch W) l).
Proof.
  intros Hl. apply steps_for_each; [exact adds_refl | exact adds_trans |].
  intros [i b] Hin. destruct (Hl i b Hin) as (Hp & He & Hh).
  apply steps_assemble_batch; assumption.
Qed.

Lemma steps_assemble (batches : list VideoReader.batch) :
  (forall i, (i < length batches)%nat ->
     P (Processed i) /\ P (Ran (EncodeBatch i)) /\ P (Ran (HlsBatch i))) ->
  steps adds (assemble W batches).
Proof.
  intros Hl. unfold assemble.
  apply steps_bind; [exact adds_trans | |].
  { intros s. apply adds_same. reflexivity. }
  intros _. apply steps_batches. intros i b Hin. apply Hl.
  apply ProcessBatchFacts.elem_of_enumerate, lookup_lt_Some in Hin. exact Hin.
Qed.

Lemma steps_finalize (add_audio : bool) :
  P (Ran EncodeFinal) -> (add_audio = true -> P (Ran MuxAudio)) ->
  P (Ran HlsStream) -> P (Ran InjectMetadata) -> P (Ran HlsFinal) ->
  steps adds (finalize W add_audio).
Proof.
  intros He Hm Hs Hi Hf. unfold finalize.
  apply steps_bind; [exact adds_trans | apply steps_get; exact adds_refl |].
  intros frames.
  apply steps_bind; [exact adds_trans | apply steps_frames_to_segment, He |].
  intros _.
  apply steps_bind; [exact adds_trans | |].
  { destruct add_audio.
    - apply steps_run_tool, Hm. reflexivity.
    - apply steps_ret. exact adds_refl. }
  intros _.
  apply steps_bind; [exact adds_trans | apply steps_add_to_stream, Hs |].
  intros _.
  apply steps_bind; [exact adds_trans | apply steps_run_tool, Hi |].
  intros _.
  apply steps_bind; [exact adds_trans | apply steps_print |]. intros _.
  apply steps_try; [exact adds_trans | |].
  - apply steps_bind; [exact adds_trans | apply steps_add_to_final_hls, Hf |].
    intros _. apply steps_print.
  - intros e. apply steps_print.
Qed.

Lemma steps_main (BATCH_SIZE : Z) (frames_dir : string)
    (cap : VideoReader.capture File) (add_audio : bool) :
  P (Ran LoadMidas) ->
  (add_audio = true -> P (Ran ExtractAudio) /\ P (Ran MuxAudio)) ->
  (forall i, P (Processed i) /\ P (Ran (EncodeBatch i))
             /\ P (Ran (HlsBatch i))) ->
  P (Ran EncodeFinal) -> P (Ran HlsStream) -> P (Ran InjectMetadata) ->
  P (Ran HlsFinal) ->
  steps adds (main BATCH_SIZE frames_dir W cap add_audio).
Proof.
  intros Hl Ha Hb He Hs Hi Hf s.
  destruct (main_unfold BATCH_SIZE frames_dir W cap add_audio s)
    as [line ->].
  revert s.
  apply steps_bind; [exact adds_trans | apply steps_print |]. intros _.
  apply steps_bind; [exact adds_trans | apply steps_run_tool, Hl |]. intros _.
  apply steps_bind; [exact adds_trans | |].
  { destruct add_audio.
    - apply steps_run_tool, Ha. reflexivity.
    - apply steps_ret. exact adds_refl. }
  intros _.
  apply steps_bind; [exact adds_trans | |].
  { apply steps_assemble. intros i _. apply Hb. }
  intros _. apply steps_finalize; try assumption.
  intros ->. apply Ha. reflexivity.
Qed.

End Trace.

(** X11. A run without audio ([add_audio=False]) never starts the audio
    extraction nor the audio muxing, whatever else happens in it: the
    events it adds to the trace contain neither. *)
Theorem run_without_audio_starts_no_audio_tool {File : Type}
    (BATCH_SIZE : Z) (frames_dir : string) (W : world File)
    (cap : VideoReader.capture File) (s : run_state File) :
  exists tr,
    events (main BATCH_SIZE frames_dir W cap false s).2 = events s ++ tr
    /\ (Ran ExtractAudio ∉ tr)
    /\ (Ran MuxAudio ∉ tr).
Proof.
  assert (Hsteps : steps (adds_events not_audio)
                     (main BATCH_SIZE frames_dir W cap false)).
  { apply steps_main.
    - split; discriminate.
    - discriminate.
    - intros i. repeat split; discriminate.
    - split; discriminate.
    - split; discriminate.
    - split; discriminate.
    - split; discriminate. }
  destruct (Hsteps s) as (tr & Htr & Hall).
  exists tr. split; [exact Htr |].
  rewrite Forall_forall in Hall.
  split; intros Hin; destruct (Hall _ Hin) as [H1 H2]; congruence.
Qed.

Lemma for_each_app {File A : Type} (body : A -> M File unit)
    (l1 l2 : list A) (s : run_state File) :
  for_each body (l1 ++ l2) s
  = bindM (for_each body l1) (fun _ => for_each body l2) s.
Proof.
  revert s. induction l1 as [| a l1 IH]; intros s.
  - reflexivity.
  - cbn [app for_each]. unfold bindM.
    destruct (body a s) as [[[] | e] s1].
    + rewrite IH. reflexivity.
    + reflexivity.
Qed.

Lemma enumerate_app {A : Type} (l1 l2 : list A) :
  enumerate (l1 ++ l2)
  = enumerate l1 ++ zip (seq (length l1) (length l2)) l2.
Proof.
  unfold enumerate. rewrite length_app, seq_app.
  apply zip_with_app. rewrite length_seq. reflexivity.
Qed.

Section Abort.
Context {File : Type}.
Variable BATCH_SIZE : Z.
Variable frames_dir : string.
Variable W : world File.

Lemma run_tool_ok (j : job) (s : run_state File) :
  tool W j = Ok tt ->
  run_tool W j s
  = (Ok tt, {| all_frames := all_frames s; next_index := next_index s;
               stream := stream s; final_hls := final_hls s;
               printed := printed s; events := events s ++ [Ran j] |}).
Proof.
  intros Hj. unfold run_tool, bindM, record, modify, lift. rewrite Hj.
  reflexivity.
Qed.

Lemma failing_batch (i : nat) (b : VideoReader.batch) (e : py_exception)
    (s : run_state File) :
  process_batch W i b = Raise e ->
  assemble_batch W (i, b) s
  = (Raise e, {| all_frames := all_frames s; next_index := next_index s;
                 stream := stream s; final_hls := final_hls s;
                 printed := printed s;
                 events := events s ++ [Processed i] |}).
Proof.
  intros Hpb. unfold assemble_batch, bindM, record, modify, lift.
  rewrite Hpb. reflexivity.
Qed.

(** The loop up to the first batch that cannot be processed. *)
Lemma loop_until_failure (batches : list VideoReader.batch) (i : nat)
    (b : VideoReader.batch) (e : py_exception) (s : run_state File) :
  batches !! i = Some b ->
  process_batch W i b = Raise e ->
  (forall j b', (j < i)%nat -> batches !! j = Some b' ->
     ~ raises (process_batch W j b')) ->
  exists s' tr,
    assemble W batches s = (Raise e, s')
    /\ events s' = events s ++ tr ++ [Processed i]
    /\ Forall (before_batch i) tr.
Proof.
  intros Hi Hpb Hpre.
  pose proof (take_drop_middle batches i b Hi) as Hsplit.
  assert (Hlen : length (take i batches) = i).
  { apply length_take_le. apply lookup_lt_Some in Hi. lia. }
  set (s0 := {| all_frames := (∅ : gmap string File); next_index := 0;
                stream := stream s; final_hls := final_hls s;
                printed := printed s; events := events s |}).
  change (assemble W batches s)
    with (for_each (assemble_batch W) (enumerate batches) s0).
  rewrite <- Hsplit, enumerate_app, Hlen. cbn [length seq zip zip_with].
  rewrite for_each_app.
  assert (Hinv0 : frames_inv s0 0).
  { split; simpl; [reflexivity | lia |]. rewrite dom_empty_L. reflexivity. }
  assert (Hmem : forall j b', (j, b') ∈ enumerate (take i batches) ->
            (j < i)%nat /\ batches !! j = Some b').
  { intros j b' Hin. apply ProcessBatchFacts.elem_of_enumerate in Hin.
    pose proof (lookup_lt_Some _ _ _ Hin) as Hlt. rewrite Hlen in Hlt.
    split; [exact Hlt |]. rewrite lookup_take_lt in Hin by exact Hlt.
    exact Hin. }
  destruct (assemble_loop_inv W (enumerate (take i batches)))
    with (s := s0) (n := 0) as (s1 & Hrun & _); [| exact Hinv0 |].
  { intros [j b'] Hin. destruct (Hmem j b' Hin) as [Hlt Hjb].
    apply (Hpre j b' Hlt Hjb). }
  destruct (steps_batches W (before_batch i) (enumerate (take i batches)))
    with (s := s0) as (tr & Htr & Hall).
  { intros j b' Hin. destruct (Hmem j b' Hin) as [Hlt _].
    repeat split; exact Hlt. }
  rewrite Hrun in Htr. cbn [snd] in Htr.
  rewrite (bindM_ok _ _ s0 s1 tt Hrun).
  match goal with
  | |- context [for_each _ ((i, b) :: ?rest) s1] =>
      change (for_each (assemble_batch W) ((i, b) :: rest) s1)
        with (bindM (assemble_batch W (i, b))
                    (fun _ => for_each (assemble_batch W) rest) s1)
  end.
  rewrite (bindM_raise _ _ s1 _ e (failing_batch i b e s1 Hpb)).
  eexists. exists tr. split; [reflexivity |]. cbn [events].
  rewrite Htr. subst s0. cbn [events]. rewrite <- app_assoc.
  split; [reflexivity | exact Hall].
Qed.

(** X12. [process_batch] is called outside any [try]: when it raises on
    batch [i] (the earlier batches having been processed, the model load
    and the audio extraction having succeeded), the run ends with that
    exception. The last event of the run is the start of batch [i]; no later
    batch is started; and apart from the model load, the audio extraction
    and the incremental encodes and appends of the batches before [i], no
    tool runs: no final encode, no muxing, no publishing, no metadata. *)
Theorem failing_batch_aborts_the_run (cap : VideoReader.capture File)
    (add_audio : bool) (s : run_state File) (i : nat)
    (b : VideoReader.batch) (e : py_exception) :
  let batches := VideoReader.batches_of cap frames_dir BATCH_SIZE in
  tool W LoadMidas = Ok tt ->
  (add_audio = true -> tool W ExtractAudio = Ok tt) ->
  batches !! i = Some b ->
  process_batch W i b = Raise e ->
  (forall j b', (j < i)%nat -> batches !! j = Some b' ->
     ~ raises (process_batch W j b')) ->
  exists s' tr,
    main BATCH_SIZE frames_dir W cap add_audio s = (Raise e, s')
    /\ events s' = events s ++ tr
    /\ last tr = Some (Processed i)
    /\ (forall j, (i < j)%nat -> Processed j ∉ tr)
    /\ (forall j, Ran j ∈ tr ->
          j = LoadMidas \/ j = ExtractAudio
          \/ exists k, (k < i)%nat /\ (j = EncodeBatch k \/ j = HlsBatch k)).
Proof.
  intros batches Hload Haudio Hi Hpb Hpre.
  destruct (main_unfold BATCH_SIZE frames_dir W cap add_audio s)
    as [line ->]. fold batches.
  set (s1 := {| all_frames := all_frames s; next_index := next_index s;
                stream := stream s; final_hls := final_hls s;
                printed := printed s ++ [line]; events := events s |}).
  rewrite (bindM_ok (print line) _ s s1 tt eq_refl).
  rewrite (bindM_ok _ _ s1 _ tt (run_tool_ok LoadMidas s1 Hload)).
  set (s2 := {| all_frames := all_frames s1; next_index := next_index s1;
                stream := stream s1; final_hls := final_hls s1;
                printed := printed s1;
                events := events s1 ++ [Ran LoadMidas] |}).
  assert (Haud : exists s3 pre,
             (if add_audio then run_tool W ExtractAudio else ret tt) s2
             = (Ok tt, s3)
             /\ events s3 = events s ++ pre
             /\ last pre <> None
             /\ (forall j, (i < j)%nat -> Processed j ∉ pre)
             /\ (forall j, Ran j ∈ pre -> j = LoadMidas \/ j = ExtractAudio)).
  { destruct add_audio.
    - eexists. exists [Ran LoadMidas; Ran ExtractAudio].
      split; [apply run_tool_ok, Haudio; reflexivity |]. cbn [events].
      subst s2 s1. cbn [events]. rewrite <- app_assoc.
      split; [reflexivity |]. split; [discriminate |]. split.
      + intros j _ Hin. rewrite !elem_of_cons, elem_of_nil in Hin.
        destruct Hin as [Hin | [Hin | []]]; discriminate.
      + intros j Hin. rewrite !elem_of_cons, elem_of_nil in Hin.
        destruct Hin as [[= ->] | [[= ->] | []]]; auto.
    - exists s2, [Ran LoadMidas]. split; [reflexivity |].
      split; [reflexivity |]. split; [discriminate |]. split.
      + intros j _ Hin. rewrite !elem_of_cons, elem_of_nil in Hin.
        destruct Hin as [Hin | []]; discriminate.
      + intros j Hin. rewrite !elem_of_cons, elem_of_nil in Hin.
        destruct Hin as [[= ->] | []]; auto. }
  destruct Haud as (s3 & pre & Hrun3 & Hev3 & _ & Hno3 & Honly3).
  rewrite (bindM_ok _ _ s2 s3 tt Hrun3).
  destruct (loop_until_failure batches i b e s3 Hi Hpb Hpre)
    as (s' & tr & Hrun & Hev & Hall).
  rewrite (bindM_raise _ _ s3 s' e Hrun).
  exists s', (pre ++ tr ++ [Processed i]).
  split; [reflexivity |]. rewrite Hev, Hev3, <- app_assoc.
  split; [reflexivity |].
  rewrite Forall_forall in Hall.
  split; [| split].
  - rewrite !last_app. reflexivity.
  - intros j Hj Hin. apply elem_of_app in Hin as [Hin | Hin].
    + apply (Hno3 j Hj Hin).
    + apply elem_of_app in Hin as [Hin | Hin].
      * apply Hall in Hin. simpl in Hin. lia.
      * apply list_elem_of_singleton in Hin. injection Hin as ->. lia.
  - intros j Hin. apply elem_of_app in Hin as [Hin | Hin].
    + destruct (Honly3 j Hin) as [-> | ->]; auto.
    + apply elem_of_app in Hin as [Hin | Hin].
      * apply Hall in Hin. right. right.
        destruct j; simpl in Hin; try contradiction; eauto.
      * apply list_elem_of_singleton in Hin. discriminate.
Qed.

End Abort.

Lemma failing_batch_aborts_the_run_witness :
  exists s' tr,
    main 3 "frames" second_batch_fails seven_images true fresh_state
    = (Raise IndexError, s')
    /\ events s' = events fresh_state ++ tr
    /\ last tr = Some (Processed 1).
Proof.
  destruct (failing_batch_aborts_the_run 3 "frames" second_batch_fails
              seven_images true fresh_state 1
              (1, 3, 5, VideoReader.frame_path "frames" <$> seqZ 3 3)
              IndexError)
    as (s' & tr & Hrun & Hev & Hlast & _).
  - reflexivity.
  - reflexivity.
  - reflexivity.
  - reflexivity.
  - intros j b' Hj Hb. destruct j as [| j]; [| lia].
    vm_compute. tauto.
  - exists s', tr. auto.
Defined.

Section Streams.
Context {File : Type}.
Variable BATCH_SIZE : Z.
Variable frames_dir : string.
Variable W : world File.
Hypothesis tools_succeed : forall j, tool W j = Ok tt.

Lemma copy_frames_keep_streams (d : gmap string File) (l : list string)
    (s : run_state File) :
  stream (for_each (copy_frame d) l s).2 = stream s
  /\ final_hls (for_each (copy_frame d) l s).2 = final_hls s.
Proof.
  revert s. induction l as [| f l IH]; intros s; [split; reflexivity |].
  cbn [for_each]. unfold bindM at 1 2.
  destruct (copy_frame d f s) as [[[] | e] s1] eqn:Hc.
  - assert (Hs1 : stream s1 = stream s /\ final_hls s1 = final_hls s).
    { unfold copy_frame, bindM, lift, modify in Hc.
      destruct (or_raise OSError (d !! f)); [| discriminate].
      injection Hc as <-. split; reflexivity. }
    destruct (IH s1) as [H1 H2]. destruct Hs1 as [H3 H4].
    rewrite H1, H2, H3, H4. split; reflexivity.
  - unfold copy_frame, bindM, lift, modify in Hc.
    destruct (or_raise OSError (d !! f)); [discriminate |].
    injection Hc as _ <-. split; reflexivity.
Qed.

(** One batch whose incremental encode and append succeed. *)
Lemma assemble_batch_streams (i : nat) (b : VideoReader.batch)
    (d : gmap string File) (s s' : run_state File) :
  process_batch W i b = Ok d -> png_files d <> [] ->
  assemble_batch W (i, b) s = (Ok tt, s') ->
  stream s' = Streaming.append_all [segments W (HlsBatch i)] (stream s)
  /\ final_hls s' = final_hls s.
Proof.
  intros Hpb Hpng. unfold assemble_batch.
  set (s1 := {| all_frames := all_frames s; next_index := next_index s;
                stream := stream s; final_hls := final_hls s;
                printed := printed s;
                events := events s ++ [Processed i] |}).
  rewrite (bindM_ok (record (Processed i)) _ s s1 tt eq_refl).
  rewrite (bindM_ok (lift (process_batch W i b)) _ s1 s1 d)
    by (unfold lift; rewrite Hpb; reflexivity).
  pose proof (copy_frames_keep_streams d (png_files d) s1) as [Hst Hfh].
  destruct (for_each (copy_frame d) (png_files d) s1) as [[[] | e] s2] eqn:Hcopy.
  2:{ rewrite (bindM_raise _ _ s1 s2 e Hcopy). discriminate. }
  rewrite (bindM_ok _ _ s1 s2 tt Hcopy).
  rewrite (bindM_ok (get next_index) _ s2 s2 (next_index s2) eq_refl).
  set (line := BatchAppended _ _ _).
  set (s3 := {| all_frames := all_frames s2; next_index := next_index s2;
                stream := stream s2; final_hls := final_hls s2;
                printed := printed s2 ++ [line]; events := events s2 |}).
  rewrite (bindM_ok (print line) _ s2 s3 tt eq_refl).
  cbn [snd] in Hst, Hfh.
  change (stream s1) with (stream s) in Hst.
  change (final_hls s1) with (final_hls s) in Hfh.
  clear Hcopy.
  unfold try_except, bindM, frames_to_segment, run_tool, bindM,
    add_to_stream, bindM, record, modify, lift, raise, print, modify.
  destruct (png_files d) as [| f l]; [contradiction |].
  rewrite (tools_succeed (EncodeBatch i)).
  rewrite (hls_outcome_ok W (HlsBatch i) (tools_succeed (HlsBatch i))).
  cbn [events printed stream final_hls all_frames next_index s3].
  change (stream s3) with (stream s2). rewrite Hst.
  change (Streaming.append_all [segments W (HlsBatch i)] (stream s))
    with (Streaming.add_batch_to_hls (Ok (segments W (HlsBatch i)))
            (stream s)).2.
  pose proof (add_batch_to_hls_ok (segments W (HlsBatch i)) (stream s)) as Hok.
  destruct (Streaming.add_batch_to_hls (Ok (segments W (HlsBatch i))) (stream s))
    as [r st].
  cbn [fst] in Hok. subst r. intros [= <-].
  cbn [stream final_hls snd]. split; [reflexivity | exact Hfh].
Qed.

Lemma assemble_loop_streams (l : list (nat * VideoReader.batch)) :
  (forall i b, (i, b) ∈ l ->
     exists d, process_batch W i b = Ok d /\ png_files d <> []) ->
  forall s s' : run_state File,
    for_each (assemble_batch W) l s = (Ok tt, s') ->
    stream s'
    = Streaming.append_all
        ((fun ib : nat * VideoReader.batch => segments W (HlsBatch ib.1)) <$> l)
        (stream s)
    /\ final_hls s' = final_hls s.
Proof.
  induction l as [| [i b] l IH]; intros Hok s s'.
  - intros [= <-]. split; reflexivity.
  - change (for_each (assemble_batch W) ((i, b) :: l) s)
      with (bindM (assemble_batch W (i, b))
                  (fun _ => for_each (assemble_batch W) l) s).
    destruct (assemble_batch W (i, b) s) as [[[] | e] s1] eqn:Hstep.
    2:{ rewrite (bindM_raise _ _ s s1 e Hstep). discriminate. }
    rewrite (bindM_ok _ _ s s1 tt Hstep). intros Hrest.
    destruct (Hok i b ltac:(left)) as (d & Hpb & Hpng).
    destruct (assemble_batch_streams i b d s s1 Hpb Hpng Hstep) as [H1 H2].
    destruct (IH (fun a c H => Hok a c ltac:(right; exact H)) s1 s' Hrest)
      as [H3 H4].
    rewrite H3, H4, H1, H2. split; reflexivity.
Qed.

Lemma finalize_streams (add_audio : bool) (s : run_state File) :
  png_files (all_frames s) <> [] ->
  exists s',
    finalize W add_audio s = (Ok tt, s')
    /\ stream s' = Streaming.append_all [segments W HlsStream] (stream s)
    /\ final_hls s'
       = Streaming.append_all [segments W HlsFinal] (final_hls s).
Proof.
  intros Hpng.
  unfold finalize, frames_to_segment, run_tool, add_to_stream,
    add_to_final_hls, try_except, bindM, get, record, print, modify, lift, ret.
  destruct (png_files (all_frames s)) as [| f l]; [contradiction |].
  cbn [events printed stream final_hls all_frames next_index].
  rewrite (tools_succeed EncodeFinal), (tools_succeed InjectMetadata),
    (hls_outcome_ok W HlsStream (tools_succeed HlsStream)),
    (hls_outcome_ok W HlsFinal (tools_succeed HlsFinal)).
  destruct add_audio.
  - rewrite (tools_succeed MuxAudio).
    eexists. split; [reflexivity |]. split; reflexivity.
  - eexists. split; [reflexivity |]. split; reflexivity.
Qed.

(** X13. In a run in which every tool succeeds and every batch yields at
    least one frame, the incremental stream receives one append per batch
    and then one more append of the whole final video (line 133), and the
    final playlist receives one append. Below 100000 segments, on a stream
    directory of ASCII names whose playlist lists nothing the scan did not
    see, the incremental playlist ends up with the numbers these appends
    write: the segments of the final video follow those of the batches, and
    each append skips as many numbers as the playlist listed before it. *)
Theorem successful_run_appends_final_video_to_stream
    (cap : VideoReader.capture File) (add_audio : bool)
    (s : run_state File) :
  let batches := VideoReader.batches_of cap frames_dir BATCH_SIZE in
  let appends := batch_segments W batches ++ [segments W HlsStream] in
  (forall i b, batches !! i = Some b ->
     exists d, process_batch W i b = Ok d /\ png_files d <> []) ->
  batches <> [] ->
  exists s',
    main BATCH_SIZE frames_dir W cap add_audio s = (Ok tt, s')
    /\ stream s' = Streaming.append_all appends (stream s)
    /\ final_hls s'
       = Streaming.append_all [segments W HlsFinal] (final_hls s)
    /\ forall names : gset string,
         Streaming.stream_dir (stream s) = Some names ->
         StreamingDefs.ascii_names names ->
         Forall (fun k => (0 < k)%nat) appends ->
         let start := Streaming._next_segment_start_number (Some names) in
         let listed := Z.of_nat (length (Streaming.playlist (stream s))) in
         StreamingMoreDefs.in_step start (Streaming.playlist (stream s)) ->
         StreamingMoreDefs.skipping_end start listed appends <= 100000 ->
         Streaming.playlist (stream s')
         = Streaming.playlist (stream s)
           ++ StreamingMoreDefs.skipping start listed appends.
Proof.
  intros batches appends Hpb Hne.
  destruct (main_unfold BATCH_SIZE frames_dir W cap add_audio s)
    as [line ->]. fold batches.
  set (s1 := {| all_frames := all_frames s; next_index := next_index s;
                stream := stream s; final_hls := final_hls s;
                printed := printed s ++ [line]; events := events s |}).
  rewrite (bindM_ok (print line) _ s s1 tt eq_refl).
  rewrite (bindM_ok _ _ s1 _ tt
             (run_tool_ok W LoadMidas s1 (tools_succeed LoadMidas))).
  set (s2 := {| all_frames := all_frames s1; next_index := next_index s1;
                stream := stream s1; final_hls := final_hls s1;
                printed := printed s1;
                events := events s1 ++ [Ran LoadMidas] |}).
  assert (Haud : exists s3,
             (if add_audio then run_tool W ExtractAudio else ret tt) s2
             = (Ok tt, s3)
             /\ stream s3 = stream s /\ final_hls s3 = final_hls s).
  { destruct add_audio.
    - eexists. split; [apply run_tool_ok, tools_succeed |].
      split; reflexivity.
    - exists s2. repeat split. }
  destruct Haud as (s3 & Hrun3 & Hst3 & Hfh3).
  rewrite (bindM_ok _ _ s2 s3 tt Hrun3).
  assert (Hnoraise : forall (i : nat) (b : VideoReader.batch),
            batches !! i = Some b -> ~ raises (process_batch W i b)).
  { intros i b Hib. destruct (Hpb i b Hib) as (d & -> & _). simpl. tauto. }
  destruct (assemble_completes W batches s3 Hnoraise) as (s4 & Hasm & Hinv).
  rewrite (bindM_ok _ _ s3 s4 tt Hasm).
  assert (Hloop : for_each (assemble_batch W) (enumerate batches)
                    {| all_frames := ∅; next_index := 0; stream := stream s3;
                       final_hls := final_hls s3; printed := printed s3;
                       events := events s3 |} = (Ok tt, s4)) by exact Hasm.
  destruct (assemble_loop_streams (enumerate batches)) with (2 := Hloop)
    as [Hst4 Hfh4].
  { intros i b Hin. apply ProcessBatchFacts.elem_of_enumerate in Hin.
    apply (Hpb i b Hin). }
  cbn [stream final_hls] in Hst4, Hfh4.
  assert (Htotal : 1 <= total_frames W batches).
  { unfold total_frames, batch_frame_counts.
    destruct batches as [| b0 bs] eqn:Eb; [contradiction |].
    destruct (Hpb 0%nat b0 eq_refl) as (d & Hd & Hpng).
    unfold enumerate. cbn [length seq zip zip_with fmap list_fmap fst snd].
    rewrite Hd.
    match goal with
    | |- context [sum_list (?n :: ?rest)] =>
        change (sum_list (n :: rest)) with (n + sum_list rest)%nat
    end.
    destruct (png_files d); [contradiction |]. simpl length. lia. }
  assert (Hpng : png_files (all_frames s4) <> []).
  { destruct (proj2 (frames_inv_lookup s4 _ (PyStr.frame_name 0) Hinv)) as [c Hc].
    - exists 0. split; [lia | reflexivity].
    - apply (png_files_nonempty _ _ c Hc), is_png_frame_name. }
  destruct (finalize_streams add_audio s4 Hpng) as (s' & Hfin & Hst & Hfh).
  exists s'. split; [exact Hfin |].
  assert (Hstream : stream s' = Streaming.append_all appends (stream s)).
  { rewrite Hst, Hst4, Hst3. subst appends. unfold Streaming.append_all.
    rewrite fold_left_app. reflexivity. }
  split; [exact Hstream |]. split.
  - rewrite Hfh, Hfh4, Hfh3. reflexivity.
  - intros names Hdir _ Hpos start listed Hstep Hbound. rewrite Hstream.
    destruct (stream s) as [dir pl].
    cbn [Streaming.stream_dir Streaming.playlist] in *.
    subst dir.
    destruct (StreamingMore.appends_state appends names pl Hpos Hstep Hbound)
      as (names' & -> & _). reflexivity.
Qed.

End Streams.

Lemma successful_run_appends_final_video_to_stream_witness :
  exists s',
    main 3 "frames" two_segment_world seven_images true fresh_state
    = (Ok tt, s')
    /\ stream s'
       = Streaming.append_all [2; 2; 2; 2]%nat (stream fresh_state).
Proof.
  destruct (successful_run_appends_final_video_to_stream 3 "frames"
              two_segment_world (fun _ => eq_refl) seven_images true
              fresh_state)
    as (s' & Hrun & Hst & _).
  - intros i b Hib.
    destruct i as [| [| [| i]]]; vm_compute in Hib; [| | | discriminate];
      injection Hib as <-; eexists; (split; [reflexivity |]);
      vm_compute; discriminate.
  - vm_compute. discriminate.
  - exists s'. split; [exact Hrun |]. exact Hst.
Defined.

End RunMore.

(* ===================================================================== *)
(** * Projection: a focal length that is not finite, and a folder of images *)
(* ===================================================================== *)

Module ProjectionMore.
Import Image Float64 Projection ProjectionDefs Float64Facts ProjectionFacts
  BatchProject ProjectionMoreDefs.

#[local] Open Scope Q_scope.

(** At a field of view of 0 the tangent is 0 and the division gives an
    infinity. *)
Lemma focal_of_zero (m : libm) (w : nat) :
  radians64 m 0 = 0 -> tan64 m 0 = 0 -> (0 < Z.of_nat w < 2 ^ 53)%Z ->
  focal_of m w 0 = PInf.
Proof.
  intros Hrad Htan Hw. unfold focal_of. rewrite Hrad.
  change (div (Fin 0) (Fin 2)) with (Fin 0).
  unfold apply64. rewrite Htan.
  rewrite of_nat_exact, half_exact by lia.
  unfold div, signed. change (Qcompare 0 0) with Eq. cbv iota.
  assert (Hpos : 0 < Qred (inject_Z (Z.of_nat w) / 2)).
  { rewrite Qred_correct.
    assert (H1 : 1 <= inject_Z (Z.of_nat w)) by (rewrite <- (Zle_Qle 1); lia).
    apply Qlt_shift_div_l; lra. }
  apply Qgt_alt in Hpos. rewrite Hpos. reflexivity.
Qed.

(** X14. When the focal length [(w / 2) / tan(fov_rad / 2)] is not a finite
    number, every entry of [valid_mask] is false and the output, which has
    [output_width] columns and [output_width // 2] rows, is black
    everywhere, whatever the image (where [cv2.remap] takes the tables).
    This is what a field of view of 0 gives: the tangent is 0, NumPy's
    division gives [inf] instead of raising, and [0 * inf] and
    [inf + w / 2] pass no range test. *)
Theorem infinite_focal_gives_black_output (m : libm)
    (sample : image -> Q -> Q -> pixel)
    (accepts : nat -> nat -> nat -> nat -> bool) (img : image)
    (output_width : nat) (field_of_view : Q) :
  let w := ncols img in
  let h := nrows img in
  let oh := (output_width / 2)%nat in
  let luts := create_mapping_arrays m output_width oh
                (focal_of m w field_of_view) w h in
  (is_finite (focal_of m w field_of_view) = false ->
   accepts oh output_width h w = true ->
   exists out,
     flat_to_vr180_spherical_optimized m sample accepts img output_width
       field_of_view None = Ok out
     /\ nrows out = oh /\ ncols out = output_width
     /\ forall y x, (y < oh)%nat -> (x < output_width)%nat ->
          at2 luts.2 y x = Some false /\ at2 out y x = Some black)
  /\ (radians64 m 0 = 0 -> tan64 m 0 = 0 -> (0 < Z.of_nat w < 2 ^ 53)%Z ->
      focal_of m w 0 = PInf).
Proof.
  intros w h oh luts. split; [| apply focal_of_zero].
  intros Hfin Hacc.
  destruct (projected_with_tables m sample accepts img output_width oh
              (focal_of m w field_of_view) w h output_width field_of_view
              Hacc)
    as (out & Hout & Hr & Hc & _ & Hat).
  exists out. split; [exact Hout |]. split; [exact Hr |].
  split; [exact Hc |].
  intros y x Hy Hx. split.
  - unfold luts, create_mapping_arrays. cbn [fst snd].
    rewrite tabulate_at by assumption.
    rewrite mapping_entry_not_finite by exact Hfin. reflexivity.
  - rewrite (Hat y x Hy Hx). cbv zeta.
    rewrite mapping_entry_not_finite by exact Hfin. reflexivity.
Qed.

Lemma infinite_focal_gives_black_output_witness :
  focal_of example_libm 4 0 = PInf
  /\ exists out,
       flat_to_vr180_spherical_optimized example_libm sample_first accept_all
         grey_image 4 0 None = Ok out
       /\ at2 out 1%nat 2%nat = Some black.
Proof.
  destruct (infinite_focal_gives_black_output example_libm sample_first
              accept_all grey_image 4 0) as [Hblack Hzero].
  split.
  - apply Hzero; [reflexivity | reflexivity | simpl; lia].
  - destruct Hblack as (out & Hout & _ & _ & Hat).
    + vm_compute. reflexivity.
    + reflexivity.
    + exists out. split; [exact Hout |].
      apply (Hat 1%nat 2%nat); simpl; lia.
Defined.

Lemma elem_of_image_files (d : gmap string image) (f : string) :
  f ∈ image_files d <-> is_image_file f = true /\ is_Some (d !! f).
Proof.
  unfold image_files, Pipeline.sorted, Pipeline.listdir.
  rewrite merge_sort_Permutation, list_elem_of_filter, list_elem_of_fmap.
  split.
  - intros [Himg ([k v] & -> & Hkv)]. apply elem_of_map_to_list in Hkv.
    simpl in *. eauto.
  - intros [Himg [v Hv]]. split; [exact Himg |]. exists (f, v).
    split; [reflexivity |]. apply elem_of_map_to_list. exact Hv.
Qed.

Lemma flip0_at (img : image) (H y x : nat) :
  length (cells img) = H -> (y < H)%nat ->
  at2 (flip0 img) y x = at2 img (H - 1 - y) x.
Proof.
  intros Hlen Hy. unfold at2, flip0. cbn [cells].
  rewrite reverse_lookup by lia. rewrite Hlen.
  replace (H - S y)%nat with (H - 1 - y)%nat by lia. reflexivity.
Qed.

Section Folder.
Variable m : libm.
Variable sample : image -> Q -> Q -> pixel.
Variable accepts : nat -> nat -> nat -> nat -> bool.
Variable d : gmap string image.
Variables ow w h : nat.
Variable fov : Q.
Variable focal : f64.

Local Abbreviation luts := (create_mapping_arrays m ow (ow / 2) focal w h).

(** The loop of [batch_project] over files that are all there and that
    [cv2.remap] takes. *)
Lemma project_loop (files : list string) :
  NoDup files ->
  (forall f, f ∈ files ->
     exists img, d !! f = Some img
                 /\ accepts (ow / 2)%nat ow (nrows img) (ncols img) = true) ->
  forall out : gmap string image,
  exists out',
    run_loop (project_file m sample accepts d luts ow fov) files out
    = (None, out')
    /\ (forall f img, f ∈ files -> d !! f = Some img ->
          exists vr,
            flat_to_vr180_spherical_optimized m sample accepts img ow fov
              (Some luts) = Ok vr
            /\ out' !! f = Some (flip0 vr))
    /\ (forall f, f ∉ files -> out' !! f = out !! f).
Proof.
  induction files as [| f files IH]; intros Hnd Hok out.
  - exists out. split; [reflexivity |]. split; [| reflexivity].
    intros f img Hin. apply not_elem_of_nil in Hin. contradiction.
  - apply NoDup_cons in Hnd as [Hnot Hnd].
    destruct (Hok f ltac:(left)) as (img & Himg & Hacc).
    destruct (projected_with_tables m sample accepts img ow (ow / 2) focal
                w h ow fov Hacc) as (vr & Hvr & _).
    assert (Hstep : project_file m sample accepts d luts ow fov out f
                    = Return (<[f := flip0 vr]> out)).
    { unfold project_file. unfold image in *. rewrite Himg, Hvr.
      reflexivity. }
    destruct (IH Hnd (fun a H => Hok a ltac:(right; exact H))
                (<[f := flip0 vr]> out)) as (out' & Hrun & Hin & Hout).
    exists out'. cbn [run_loop]. rewrite Hstep.
    split; [exact Hrun |]. split.
    + intros f' img' Hmem Himg'.
      apply elem_of_cons in Hmem as [-> | Hmem].
      * unfold image in *. rewrite Himg in Himg'. injection Himg' as <-.
        exists vr. split; [exact Hvr |].
        rewrite (Hout f Hnot). apply lookup_insert_eq.
      * apply Hin; assumption.
    + intros f' Hf'. apply not_elem_of_cons in Hf' as [Hne Hf'].
      rewrite (Hout f' Hf').
      apply lookup_insert_ne. intros Heq. apply Hne. symmetry. exact Heq.
Qed.

End Folder.

(** X15. [batch_project] on an existing folder of readable images, each of
    which [cv2.remap] takes with the tables, does not raise. A folder
    without image files leaves the output folder as it is. Otherwise every
    image file (extension [.png], [.jpg] or [.jpeg] in any case) has an
    image written under its own name, [output_width] wide and
    [output_width // 2] high, and every other file of the output folder is
    left alone. The tables are computed once, from the size of the first
    file in sorted order, and used for every image: the image handed to
    [cv2.imwrite] is the projection of the source image through those
    tables, turned upside down. *)
Theorem batch_project_projects_every_image (m : libm)
    (sample : image -> Q -> Q -> pixel)
    (accepts : nat -> nat -> nat -> nat -> bool) (d : gmap string image)
    (folder_out : option (gmap string image)) (output_width : nat)
    (field_of_view : Q) :
  let oh := (output_width / 2)%nat in
  accepts_folder accepts output_width d ->
  exists out',
    batch_project m sample accepts (Some d) folder_out output_width
      field_of_view = (None, out')
    /\ (forall f, is_image_file f = false \/ d !! f = None ->
          out' !! f = default ∅ folder_out !! f)
    /\ (forall f0 first,
          head (image_files d) = Some f0 -> d !! f0 = Some first ->
          forall f img, is_image_file f = true -> d !! f = Some img ->
            exists vr,
              out' !! f = Some vr
              /\ nrows vr = oh /\ ncols vr = output_width
              /\ forall y x, (y < oh)%nat -> (x < output_width)%nat ->
                   at2 vr y x
                   = Some (projected_px m sample img output_width oh
                             (focal_of m (ncols first) field_of_view)
                             (ncols first) (nrows first)
                             (oh - 1 - y) x)).
Proof.
  intros oh Haccepts. unfold batch_project. cbv beta iota zeta.
  fold (image_files d).
  assert (Hnot : forall f, is_image_file f = false \/ d !! f = None ->
            f ∉ image_files d).
  { intros f Hf Hin. apply elem_of_image_files in Hin as [Hi [v Hv]].
    destruct Hf as [Hf | Hf]; congruence. }
  destruct (image_files d) as [| f0 files] eqn:Hfiles.
  - exists (default ∅ folder_out). split; [reflexivity |].
    split; [reflexivity |]. intros f0 first Hhead. discriminate.
  - assert (Hf0 : f0 ∈ image_files d) by (rewrite Hfiles; left).
    apply elem_of_image_files in Hf0 as [_ [first0 Hfirst0]].
    cbv beta iota. unfold image in *. rewrite Hfirst0.
    destruct (project_loop m sample accepts d output_width (ncols first0)
                (nrows first0) field_of_view
                (focal_of m (ncols first0) field_of_view) (f0 :: files))
      with (out := default ∅ folder_out) as (out' & Hrun & Hin & Hout).
    { rewrite <- Hfiles. apply StitchFacts.NoDup_sorted_names. }
    { intros f Hf. rewrite <- Hfiles in Hf.
      apply elem_of_image_files in Hf as [Himgf [img Himg]].
      exists img. split; [exact Himg |]. apply (Haccepts f img Himgf Himg). }
    exists out'. split; [exact Hrun |]. split.
    + intros f Hf. apply Hout, Hnot, Hf.
    + intros f0' first Hhead Hfirst f img Himgf Himg.
      cbn [head] in Hhead. injection Hhead as <-.
      rewrite Hfirst0 in Hfirst. injection Hfirst as <-.
      assert (Hmem : f ∈ f0 :: files).
      { rewrite <- Hfiles. apply elem_of_image_files. eauto. }
      destruct (Hin f img Hmem Himg) as (vr & Hvr & Hlook).
      destruct (projected_with_tables m sample accepts img output_width oh
                  (focal_of m (ncols first0) field_of_view)
                  (ncols first0) (nrows first0) output_width field_of_view
                  (Haccepts f img Himgf Himg))
        as (vr' & Hvr' & Hr & Hc & Hlen & Hat).
      fold oh in Hvr. rewrite Hvr in Hvr'. injection Hvr' as <-.
      exists (flip0 vr). split; [exact Hlook |].
      split; [exact Hr |]. split; [exact Hc |].
      intros y x Hy Hx. rewrite (flip0_at vr oh y x Hlen Hy).
      apply Hat; [lia | exact Hx].
Qed.

Lemma batch_project_projects_every_image_witness :
  exists out',
    batch_project example_libm sample_first accept_all (Some two_frames) None
      4 90 = (None, out')
    /\ out' !! "notes.txt" = None.
Proof.
  destruct (batch_project_projects_every_image example_libm sample_first
              accept_all two_frames None 4 90)
    as (out' & Hrun & Hrest & _).
  - intros f img _ _. reflexivity.
  - exists out'. split; [exact Hrun |].
    rewrite Hrest by (left; reflexivity). reflexivity.
Defined.

End ProjectionMore.

(* ===================================================================== *)
(** * Anaglyph: when a frame is written *)
(* ===================================================================== *)

Module AnaglyphMore.
Import Image Anaglyph AnaglyphFacts.

(** An assignment succeeds exactly when the source plane broadcasts, and
    keeps the shape of the destination. *)
Lemma assign_channel_shape (dst : image) (k : channel) (src : image)
    (j : channel) :
  match assign_channel dst k src j with
  | Ok dst' => broadcastable src dst = true
               /\ nrows dst' = nrows dst /\ ncols dst' = ncols dst
  | Raise e => broadcastable src dst = false /\ e = ValueError
  end.
Proof.
  unfold assign_channel. destruct (broadcastable src dst); repeat split.
Qed.

Lemma broadcastable_same_shape (src dst dst' : image) :
  nrows dst' = nrows dst -> ncols dst' = ncols dst ->
  broadcastable src dst' = broadcastable src dst.
Proof. intros Hr Hc. unfold broadcastable. rewrite Hr, Hc. reflexivity. Qed.

Lemma broadcastable_refl (img : image) :
  broadcastable img (zeros_like img) = true.
Proof.
  unfold broadcastable, zeros_like. cbn [nrows ncols full].
  rewrite !Nat.eqb_refl. reflexivity.
Qed.

(** Lines 33-36 succeed exactly when the right image broadcasts to the
    shape of the left one. *)
Lemma anaglyph_array_shape (left right : image) :
  match anaglyph_array left right with
  | Ok a => broadcastable right left = true
            /\ nrows a = nrows left /\ ncols a = ncols left
  | Raise e => broadcastable right left = false /\ e = ValueError
  end.
Proof.
  unfold anaglyph_array.
  pose proof (assign_channel_shape (zeros_like left) Ch0 left Ch2) as H0.
  destruct (assign_channel (zeros_like left) Ch0 left Ch2) as [a0 | e0].
  2:{ destruct H0 as [H0 _]. rewrite broadcastable_refl in H0. discriminate. }
  destruct H0 as (_ & Hr0 & Hc0). cbn [mbind result_bind].
  assert (Hb0 : broadcastable right a0 = broadcastable right left).
  { apply broadcastable_same_shape; [rewrite Hr0 | rewrite Hc0]; reflexivity. }
  pose proof (assign_channel_shape a0 Ch1 right Ch1) as H1.
  destruct (assign_channel a0 Ch1 right Ch1) as [a1 | e1].
  2:{ rewrite Hb0 in H1. exact H1. }
  destruct H1 as (Hb1 & Hr1 & Hc1). cbn [mbind result_bind].
  pose proof (assign_channel_shape a1 Ch2 right Ch0) as H2.
  destruct (assign_channel a1 Ch2 right Ch0) as [a2 | e2].
  - destruct H2 as (_ & Hr2 & Hc2). rewrite Hb0 in Hb1.
    split; [exact Hb1 |]. split.
    + rewrite Hr2, Hr1, Hr0. reflexivity.
    + rewrite Hc2, Hc1, Hc0. reflexivity.
  - destruct H2 as [H2 _].
    rewrite (broadcastable_same_shape right a0 a1 Hr1 Hc1), Hb0 in H2.
    rewrite Hb0 in Hb1. congruence.
Qed.

(** X16. [create_anaglyph_from_stereo] never raises and answers [True]
    exactly when both files are readable, [cv2.imwrite] succeeds and the
    right image broadcasts to the shape of the left one: the same shape, or
    a single row or column in its place. The shapes are not compared: a
    right image of one row is accepted. When it answers [False] nothing is
    written; when it answers [True] the output file is written with the
    shape of the left image, and for two images of one shape its index 0 is
    the left image's index 2, its index 1 the right image's index 1 and its
    index 2 the right image's index 0. *)
Theorem create_anaglyph_succeeds_iff (imwrite_ok : bool)
    (fs : gmap string image) (left_path right_path output_path : string) :
  let r := create_anaglyph_from_stereo imwrite_ok fs left_path right_path
             output_path in
  (r.1 = true
   <-> imwrite_ok = true
       /\ exists left right,
            fs !! left_path = Some left /\ fs !! right_path = Some right
            /\ broadcastable right left = true)
  /\ (r.1 = false -> r.2 = fs)
  /\ (forall left right,
        fs !! left_path = Some left -> fs !! right_path = Some right ->
        r.1 = true ->
        exists anaglyph,
          r.2 = <[output_path := anaglyph]> fs
          /\ nrows anaglyph = nrows left /\ ncols anaglyph = ncols left
          /\ (wf left = true -> nrows right = nrows left ->
              ncols right = ncols left ->
              forall y x pl pr,
                at2 left y x = Some pl -> at2 right y x = Some pr ->
                at2 anaglyph y x
                = Some (get_channel Ch2 pl, get_channel Ch1 pr,
                        get_channel Ch0 pr))).
Proof.
  intros r. subst r. unfold create_anaglyph_from_stereo.
  destruct (fs !! left_path) as [left |] eqn:Hl.
  2:{ cbn [fst snd]. split; [| split].
      - split; [discriminate |]. intros (_ & l & rt & Hl' & _). discriminate.
      - reflexivity.
      - intros l rt Hl'. discriminate. }
  destruct (fs !! right_path) as [right |] eqn:Hr.
  2:{ cbn [fst snd]. split; [| split].
      - split; [discriminate |]. intros (_ & l & rt & _ & Hr' & _).
        discriminate.
      - reflexivity.
      - intros l rt _ Hr'. discriminate. }
  pose proof (anaglyph_array_shape left right) as Hshape.
  pose proof (anaglyph_array_channels left right) as Hchan.
  destruct (anaglyph_array left right) as [a | e].
  - destruct Hshape as (Hb & Hra & Hca).
    destruct imwrite_ok; cbn [fst snd]; (split; [| split]).
    + split; [| reflexivity]. intros _. split; [reflexivity |].
      exists left, right. auto.
    + discriminate.
    + intros l rt [= <-] [= <-] _. exists a. split; [reflexivity |].
      split; [exact Hra |]. split; [exact Hca |].
      intros Hwf Hnr Hnc.
      destruct (Hchan Hnr Hnc Hwf) as (a' & [= <-] & Hat). exact Hat.
    + split; [discriminate |]. intros [Hok _]. discriminate.
    + reflexivity.
    + intros l rt _ _ Habs. discriminate.
  - destruct Hshape as [Hb _]. cbn [fst snd]. split; [| split].
    + split; [discriminate |].
      intros (_ & l & rt & [= <-] & [= <-] & Hb'). congruence.
    + reflexivity.
    + intros l rt _ _ Habs. discriminate.
Qed.

End AnaglyphMore.

(* ===================================================================== *)
(** * Stereo synthesis: how far a pixel can move *)
(* ===================================================================== *)

Module StereoMore.
Import Image Stereo StereoDefs StereoFacts StereoClaims StereoMoreDefs.

Lemma depth_unit (depth : option (array2 uint8)) (y x : nat) :
  (0 <= Float32.sub 1 (depth_px depth y x))%Q
  /\ (Float32.sub 1 (depth_px depth y x) <= 1)%Q.
Proof.
  unfold depth_px. destruct depth as [d |].
  - destruct (at2 d y x) as [b |].
    + apply Float32Facts.one_minus_depth_unit.
    + split; apply Qle_bool_imp_le; vm_compute; reflexivity.
  - split; apply Qle_bool_imp_le; vm_compute; reflexivity.
Qed.

(** The float32 shift never exceeds [max_shift]. *)
Lemma shift_of_le (max_shift : Z) (t : Q) :
  max_shift_ok max_shift ->
  (0 <= Float32.sub 1 t)%Q -> (Float32.sub 1 t <= 1)%Q ->
  (shift_of max_shift t <= inject_Z max_shift)%Q.
Proof.
  intros [Hlo Hhi] Ht0 Ht1. unfold shift_of, Float32.mul, Float32.of_Z.
  set (u := Float32.sub 1 t) in *.
  assert (Hm : (0 <= inject_Z max_shift)%Q) by (rewrite <- (Zle_Qle 0); exact Hlo).
  destruct (Float32Facts.round_bounds _ Hm) as [HM0 _].
  assert (HM1 : (Float32.round (inject_Z max_shift) <= inject_Z max_shift)%Q).
  { apply Float32More.round_le_int; [exact Hm | lra | exact Hhi]. }
  set (M := Float32.round (inject_Z max_shift)) in *.
  assert (Hprod : (0 <= u * M)%Q) by (apply Qmult_le_0_compat; assumption).
  assert (HuM : (u * M <= 1 * M)%Q) by (apply Qmult_le_compat_r; assumption).
  apply Float32More.round_le_int; [exact Hprod | lra | exact Hhi].
Qed.

Lemma pixel_shift_le (max_shift : Z) (depth : option (array2 uint8))
    (y x : nat) :
  max_shift_ok max_shift -> pixel_shift max_shift depth y x <= max_shift.
Proof.
  intros Hok. rewrite pixel_shift_floor by exact Hok.
  destruct (depth_unit depth y x) as [Hu0 Hu1].
  pose proof (shift_of_le max_shift _ Hok Hu0 Hu1) as Hle.
  apply Qfloor_resp_le in Hle. rewrite Qfloor_Z in Hle. exact Hle.
Qed.

(** X17. With [0 <= max_shift <= 2^24] the integer shift of every pixel lies
    between 0 and [max_shift], whatever the depth map: a pixel of column [x]
    goes to a column between [x] and [x + max_shift] of the left eye and
    between [x - max_shift] and [x] of the right eye (inside the image), so
    what a left-eye pixel holds was read at most [max_shift] columns to its
    left, and what a right-eye pixel holds at most [max_shift] columns to
    its right. *)
Theorem no_pixel_moves_farther_than_max_shift (W : nat)
    (depth : option (array2 uint8)) (max_shift : Z) (y : nat) :
  let d := pixel_shift max_shift depth y in
  0 <= max_shift <= 2 ^ 24 ->
  (forall x, (x < W)%nat ->
     0 <= d x <= max_shift
     /\ Z.of_nat x <= dest_left W d x
        <= Z.min (Z.of_nat W - 1) (Z.of_nat x + max_shift)
     /\ Z.max 0 (Z.of_nat x - max_shift) <= dest_right d x <= Z.of_nat x)
  /\ (forall c x,
        last_writer (dest_left W d) W (Z.of_nat c) = Some x ->
        Z.of_nat c - max_shift <= Z.of_nat x <= Z.of_nat c)
  /\ (forall c x,
        last_writer (dest_right d) W (Z.of_nat c) = Some x ->
        Z.of_nat c <= Z.of_nat x <= Z.of_nat c + max_shift).
Proof.
  intros d Hok.
  assert (Hd : forall x, 0 <= d x <= max_shift).
  { intros x. split; [apply pixel_shift_nonneg | apply pixel_shift_le];
      exact Hok. }
  assert (Hdest : forall x, (x < W)%nat ->
            Z.of_nat x <= dest_left W d x
              <= Z.min (Z.of_nat W - 1) (Z.of_nat x + max_shift)
            /\ Z.max 0 (Z.of_nat x - max_shift) <= dest_right d x
               <= Z.of_nat x).
  { intros x Hx. specialize (Hd x). unfold dest_left, dest_right. lia. }
  split; [| split].
  - intros x Hx. split; [apply Hd | apply Hdest, Hx].
  - intros c x Hw. apply last_writer_Some in Hw as (Hx & Hc & _).
    destruct (Hdest x Hx) as [Hl _]. lia.
  - intros c x Hw. apply last_writer_Some in Hw as (Hx & Hc & _).
    destruct (Hdest x Hx) as [_ Hr]. lia.
Qed.

Lemma no_pixel_moves_farther_than_max_shift_witness :
  0 <= pixel_shift 30 (uniform_depth 1 4 Byte.x55) 0 1 <= 30.
Proof.
  destruct (no_pixel_moves_farther_than_max_shift 4
              (uniform_depth 1 4 Byte.x55) 30 0) as [Hall _].
  - lia.
  - apply (Hall 1%nat). lia.
Defined.

Lemma pixel_shift_zero_max (depth : option (array2 uint8)) (y x : nat) :
  pixel_shift 0 depth y x = 0.
Proof.
  unfold pixel_shift, shift_of, Float32.mul.
  change (Float32.of_Z 0) with 0%Q.
  rewrite Float32More.round_zero; [reflexivity | ring].
Qed.

Lemma pixel_shift_white (max_shift : Z) (d : array2 uint8) (y x : nat) :
  all_white d -> pixel_shift max_shift (Some d) y x = 0.
Proof.
  intros Hw. unfold pixel_shift, shift_of, Float32.mul, depth_px.
  assert (Hs : Float32.sub 1 match at2 d y x with
                             | Some b => Float32.div (Float32.of_uint8 b) 255
                             | None => 1%Q
                             end = 0%Q).
  { destruct (at2 d y x) as [b |] eqn:Hb.
    - rewrite (Hw y x b Hb). vm_compute. reflexivity.
    - vm_compute. reflexivity. }
  rewrite Hs. rewrite Float32More.round_zero; [reflexivity | ring].
Qed.

(** Zero shifts leave the frame in both eyes. *)
Lemma zero_shifts_copy (frame : image) (depth : option (array2 uint8))
    (max_shift : Z) :
  wf frame = true -> depth_matches frame depth -> max_shift_ok max_shift ->
  (forall y x, pixel_shift max_shift depth y x = 0) ->
  copies_frame frame (scatter frame depth max_shift).
Proof.
  intros Hwf Hdm Hok Hzero.
  destruct (scatter_same_shape frame depth max_shift Hwf Hdm Hok)
    as (L & R & Hrun & HL & HR).
  exists L, R. split; [exact Hrun |]. intros y c Hy Hc.
  pose proof (wf_img_has black frame Hwf) as Hf.
  rewrite (has_at _ _ _ _ HL y c Hy Hc), (has_at _ _ _ _ HR y c Hy Hc).
  destruct (scattered_identity frame (ncols frame) y c
              (pixel_shift max_shift depth y) (Hzero y) Hc) as [-> ->].
  rewrite (has_at _ _ _ _ Hf y c Hy Hc). split; reflexivity.
Qed.

(** The pixels of a well-formed frame lie inside it. *)
Lemma at2_in_range (frame : image) (y c : nat) (p : pixel) :
  wf frame = true -> at2 frame y c = Some p ->
  (y < nrows frame)%nat /\ (c < ncols frame)%nat.
Proof.
  intros Hwf Hp.
  destruct (img_has_inv frame (nrows frame) (ncols frame) _ y c p
              (wf_img_has black frame Hwf) Hp) as (Hy & Hc & _).
  split; assumption.
Qed.

(** Eye images that copy the frame keep its non-black pixels through the
    hole filling. *)
Lemma copies_then_keeps (inpaint : image -> array2 uint8 -> Z -> image)
    (frame : image) (depth : option (array2 uint8)) (max_shift : Z) :
  inpaint_contract inpaint -> wf frame = true ->
  copies_frame frame (scatter frame depth max_shift) ->
  keeps_frame frame
    (generate_stereo_from_depth_frame inpaint frame depth max_shift).
Proof.
  intros Hin Hwf (L & R & Hrun & Hcopy).
  exists (inpaint L (hole_mask L) 3), (inpaint R (hole_mask R) 3).
  split; [rewrite generate_of_scatter, Hrun; reflexivity |].
  intros y c p Hp Hnb.
  destruct (at2_in_range frame y c p Hwf Hp) as [Hy Hc].
  destruct (Hcopy y c Hy Hc) as [HL HR]. rewrite Hp in HL, HR.
  split; apply inpaint_keeps_non_black; assumption.
Qed.

(** X18. Without disparity there is no stereo effect: with [max_shift = 0],
    or with a depth map that is white (255) everywhere, the scatter loop
    puts every pixel of the frame back at its own place, so both eye images
    are the frame before hole detection and inpainting; and the eye images
    returned hold every pixel of the frame that is not pure black at its
    own place, [cv2.inpaint] leaving unmarked pixels alone. (The pure-black
    pixels of the frame are marked as holes, and are what [cv2.inpaint]
    makes of them.) *)
Theorem no_disparity_keeps_the_frame
    (inpaint : image -> array2 uint8 -> Z -> image) (frame : image)
    (depth : option (array2 uint8)) :
  wf frame = true -> depth_matches frame depth ->
  inpaint_contract inpaint ->
  (copies_frame frame (scatter frame depth 0)
   /\ keeps_frame frame
        (generate_stereo_from_depth_frame inpaint frame depth 0))
  /\ (forall d max_shift,
        depth = Some d -> all_white d -> 0 <= max_shift <= 2 ^ 24 ->
        copies_frame frame (scatter frame depth max_shift)
        /\ keeps_frame frame
             (generate_stereo_from_depth_frame inpaint frame depth
                max_shift)).
Proof.
  intros Hwf Hdm Hin.
  assert (Hzero : copies_frame frame (scatter frame depth 0)).
  { apply zero_shifts_copy; [exact Hwf | exact Hdm | | ].
    - split; [lia | apply Z.pow_nonneg; lia].
    - intros y x. apply pixel_shift_zero_max. }
  split.
  - split; [exact Hzero |]. apply copies_then_keeps; assumption.
  - intros d max_shift -> Hw Hok.
    assert (Hwhite : copies_frame frame (scatter frame (Some d) max_shift)).
    { apply zero_shifts_copy; [exact Hwf | exact Hdm | exact Hok |].
      intros y x. apply pixel_shift_white, Hw. }
    split; [exact Hwhite |]. apply copies_then_keeps; assumption.
Qed.

Lemma no_disparity_keeps_the_frame_witness :
  keeps_frame black_second_pixel
    (generate_stereo_from_depth_frame fill_holes black_second_pixel
       (uniform_depth 1 2 Byte.x20) 0).
Proof.
  refine (proj2 (proj1 (no_disparity_keeps_the_frame fill_holes
                          black_second_pixel (uniform_depth 1 2 Byte.x20)
                          eq_refl _ fill_holes_contract))).
  vm_compute. auto.
Defined.

End StereoMore.

(* ===================================================================== *)
(** * Configuration: environment references ([src/utils.py]) *)
(* ===================================================================== *)

Module UtilsFacts.
Import Utils UtilsDefs.
Import PyStrFacts.

Lemma span_app (p : ascii -> bool) (a b : string) :
  all_chars p a = true ->
  match b with
  | EmptyString => True
  | String c _ => p c = false
  end ->
  span p (a +:+ b) = (a, b).
Proof.
  intros Ha Hb. induction a as [| c a IH].
  - rewrite append_nil_l. destruct b as [| c b]; [reflexivity |].
    simpl. rewrite Hb. reflexivity.
  - rewrite append_cons. simpl in *. apply andb_true_iff in Ha as [Hc Ha].
    rewrite Hc, (IH Ha). reflexivity.
Qed.

Lemma span_length (p : ascii -> bool) (s a b : string) :
  span p s = (a, b) ->
  String.length s = (String.length a + String.length b)%nat.
Proof.
  revert a b. induction s as [| c s IH]; intros a b; simpl.
  - intros [= <- <-]. reflexivity.
  - destruct (p c).
    + destruct (span p s) as [a' b'] eqn:Hs. intros [= <- <-].
      simpl. rewrite (IH a' b' eq_refl). reflexivity.
    + intros [= <- <-]. reflexivity.
Qed.

(** A match is never empty: what follows it is shorter than the text. *)
Lemma match_reference_shorter (s name dflt rest : string) :
  match_reference s = Some (name, dflt, rest) ->
  (String.length rest < String.length s)%nat.
Proof.
  unfold match_reference.
  destruct s as [| c0 [| c1 s1]]; try discriminate;
    try (destruct c0 as [[] [] [] [] [] [] [] []]; discriminate).
  destruct (span is_name_char s1) as [nm s2] eqn:Hn.
  destruct (Ascii.eqb_spec c0 "$") as [-> | Hc0].
  2:{ intros H. exfalso. revert H.
      destruct c0 as [[] [] [] [] [] [] [] []]; try discriminate.
      contradiction. }
  destruct (Ascii.eqb_spec c1 "{") as [-> | Hc1].
  2:{ intros H. exfalso. revert H.
      destruct c1 as [[] [] [] [] [] [] [] []]; try discriminate.
      contradiction. }
  destruct nm as [| n0 nm]; [discriminate |].
  pose proof (span_length _ _ _ _ Hn) as Hlen1.
  set (s3 := match s2 with
             | String ":" t => t
             | _ => s2
             end).
  assert (Hlen3 : (String.length s3 <= String.length s2)%nat).
  { subst s3. destruct s2 as [| c2 s2]; [reflexivity |].
    destruct (Ascii.eqb_spec c2 ":") as [-> | Hc2]; [simpl; lia |].
    destruct c2 as [[] [] [] [] [] [] [] []]; simpl; lia. }
  destruct (span is_default_char s3) as [df s4] eqn:Hd.
  pose proof (span_length _ _ _ _ Hd) as Hlen2.
  destruct s4 as [| c4 s4]; [discriminate |].
  destruct (Ascii.eqb_spec c4 "}") as [-> | Hc4].
  2:{ intros H. exfalso. revert H.
      destruct c4 as [[] [] [] [] [] [] [] []]; try discriminate.
      contradiction. }
  intros [= _ _ <-]. simpl in *. lia.
Qed.

Lemma match_reference_not_dollar (c : ascii) (s : string) :
  c <> "$"%char -> match_reference (String c s) = None.
Proof.
  intros Hc. unfold match_reference.
  destruct c as [[] [] [] [] [] [] [] []]; try reflexivity.
  contradiction.
Qed.

(** More fuel than the length of the text changes nothing. *)
Lemma sub_from_fuel (env : gmap string string) (fuel1 : nat) :
  forall (fuel2 : nat) (s : string),
    (String.length s <= fuel1)%nat -> (String.length s <= fuel2)%nat ->
    sub_from fuel1 env s = sub_from fuel2 env s.
Proof.
  induction fuel1 as [| fuel1 IH]; intros fuel2 s H1 H2.
  - destruct s; [| simpl in H1; lia]. destruct fuel2; reflexivity.
  - destruct s as [| c s]; [destruct fuel2; reflexivity |].
    destruct fuel2 as [| fuel2]; [simpl in H2; lia |].
    cbn [sub_from].
    destruct (match_reference (String c s)) as [[[nm df] rest] |] eqn:Hm.
    + apply match_reference_shorter in Hm.
      rewrite (IH fuel2 rest) by lia. reflexivity.
    + simpl in H1, H2. rewrite (IH fuel2 s) by lia. reflexivity.
Qed.

Lemma substitute_step (env : gmap string string) (c : ascii) (s : string) :
  substitute_env_vars env (String c s)
  = match match_reference (String c s) with
    | Some (name, dflt, rest) =>
        getenv env name dflt +:+ substitute_env_vars env rest
    | None => String c (substitute_env_vars env s)
    end.
Proof.
  unfold substitute_env_vars. cbn [String.length sub_from].
  destruct (match_reference (String c s)) as [[[nm df] rest] |] eqn:Hm.
  - apply match_reference_shorter in Hm. simpl in Hm.
    rewrite (sub_from_fuel env (String.length s) (String.length rest) rest)
      by lia.
    reflexivity.
  - reflexivity.
Qed.

Lemma substitute_plain_prefix (env : gmap string string) (pre s : string) :
  no_dollar pre = true ->
  substitute_env_vars env (pre +:+ s) = pre +:+ substitute_env_vars env s.
Proof.
  intros Hpre. induction pre as [| c pre IH].
  - rewrite !append_nil_l. reflexivity.
  - simpl in Hpre. apply andb_true_iff in Hpre as [Hc Hpre].
    rewrite !append_cons, substitute_step, match_reference_not_dollar.
    + rewrite (IH Hpre). reflexivity.
    + intros ->. discriminate.
Qed.

Lemma substitute_plain (env : gmap string string) (text : string) :
  no_dollar text = true -> substitute_env_vars env text = text.
Proof.
  intros H. induction text as [| c text IH]; [reflexivity |].
  simpl in H. apply andb_true_iff in H as [Hc H].
  rewrite substitute_step, match_reference_not_dollar, (IH H);
    [reflexivity |].
  intros ->. discriminate.
Qed.

Lemma append_assoc (a b c : string) : (a +:+ b) +:+ c = a +:+ (b +:+ c).
Proof.
  induction a as [| ch a IH]; [reflexivity |].
  rewrite !append_cons, IH. reflexivity.
Qed.

Lemma match_reference_full (name dflt rest : string) :
  name <> "" -> all_chars is_name_char name = true ->
  all_chars is_default_char dflt = true ->
  match_reference (reference name dflt +:+ rest) = Some (name, dflt, rest).
Proof.
  intros Hne Hn Hd. unfold reference.
  rewrite !append_assoc, !append_cons, !append_nil_l.
  unfold match_reference.
  rewrite (span_app is_name_char name (String ":" (dflt +:+ String "}" rest)) Hn)
    by reflexivity.
  destruct name as [| n0 name]; [contradiction |].
  rewrite (span_app is_default_char dflt (String "}" rest) Hd) by reflexivity.
  reflexivity.
Qed.

Lemma match_reference_bare (name rest : string) :
  name <> "" -> all_chars is_name_char name = true ->
  match_reference (bare_reference name +:+ rest) = Some (name, "", rest).
Proof.
  intros Hne Hn. unfold bare_reference.
  rewrite !append_assoc, !append_cons, !append_nil_l.
  unfold match_reference.
  rewrite (span_app is_name_char name (String "}" rest) Hn) by reflexivity.
  destruct name as [| n0 name]; [contradiction |].
  reflexivity.
Qed.

(** X19. [substitute_env_vars] leaves a text without dollar sign as it is;
    it replaces the first reference [${NAME:default}] by the value of the
    environment variable [NAME] when it is set (an empty value included) and
    by [default] otherwise, and a reference [${NAME}] by the value or the
    empty string; the text before the reference is kept, the text after it
    is substituted in turn, and the inserted value is not scanned again. *)
Theorem substitute_env_vars_replaces_references (env : gmap string string)
    (pre name post : string) :
  no_dollar pre = true ->
  name <> "" ->
  all_chars is_name_char name = true ->
  substitute_env_vars env pre = pre
  /\ (forall dflt, all_chars is_default_char dflt = true ->
        substitute_env_vars env (pre +:+ reference name dflt +:+ post)
        = pre +:+ default dflt (env !! name)
              +:+ substitute_env_vars env post)
  /\ substitute_env_vars env (pre +:+ bare_reference name +:+ post)
     = pre +:+ default "" (env !! name) +:+ substitute_env_vars env post.
Proof.
  intros Hpre Hne Hn. split; [apply substitute_plain, Hpre |]. split.
  - intros dflt Hd. rewrite substitute_plain_prefix by exact Hpre.
    f_equal.
    pose proof (match_reference_full name dflt post Hne Hn Hd) as Hm.
    destruct (reference name dflt +:+ post) as [| c s] eqn:Hs;
      [discriminate |].
    rewrite substitute_step, Hm. reflexivity.
  - rewrite substitute_plain_prefix by exact Hpre. f_equal.
    pose proof (match_reference_bare name post Hne Hn) as Hm.
    destruct (bare_reference name +:+ post) as [| c s] eqn:Hs;
      [discriminate |].
    rewrite substitute_step, Hm. reflexivity.
Qed.

Lemma substitute_env_vars_replaces_references_witness :
  substitute_env_vars {[ "TMP_DIR" := "/scratch" ]}
    ("dir=" +:+ reference "TMP_DIR" "tmp" +:+ "/work")
  = "dir=" +:+ default "tmp"
                 (({[ "TMP_DIR" := "/scratch" ]} : gmap string string)
                    !! "TMP_DIR")
           +:+ substitute_env_vars {[ "TMP_DIR" := "/scratch" ]} "/work".
Proof.
  refine (proj1 (proj2 (substitute_env_vars_replaces_references
                          {[ "TMP_DIR" := "/scratch" ]} "dir=" "TMP_DIR"
                          "/work" eq_refl _ eq_refl)) "tmp" eq_refl).
  discriminate.
Defined.

Section Config.
Context {Key Scalar : Type} `{EqDecision Key}.
Variable env : gmap string string.

Lemma process_config_plain :
  forall obj : yaml Key Scalar, plain obj -> process_config env obj = obj.
Proof.
  fix IH 1. intros [s | v | items | entries] Hp; simpl in *.
  - rewrite substitute_plain by exact Hp. reflexivity.
  - reflexivity.
  - f_equal. induction items as [| item items IHitems]; [reflexivity |].
    destruct Hp as [Hitem Hp]. simpl. f_equal.
    + apply IH, Hitem.
    + apply IHitems, Hp.
  - f_equal. induction entries as [| [k item] entries IHentries];
      [reflexivity |].
    destruct Hp as [Hitem Hp]. simpl in *. f_equal.
    + f_equal. apply IH, Hitem.
    + apply IHentries, Hp.
Qed.

Lemma assoc_process (k : Key) (entries : list (Key * yaml Key Scalar)) :
  assoc k (map (fun kv => let '(k, v) := kv in (k, process_config env v))
               entries)
  = process_config env <$> assoc k entries.
Proof.
  induction entries as [| [k' v] entries IH]; [reflexivity |].
  simpl. destruct (decide (k' = k)); [reflexivity | exact IH].
Qed.

Lemma lookup_path_process (path : list Key) :
  forall obj : yaml Key Scalar,
    lookup_path path (process_config env obj)
    = process_config env <$> lookup_path path obj.
Proof.
  induction path as [| k path IH]; intros obj; [reflexivity |].
  destruct obj as [s | v | items | entries]; try reflexivity.
  cbn [lookup_path process_config]. rewrite assoc_process.
  destruct (assoc k entries) as [v |]; [| reflexivity].
  cbn. apply IH.
Qed.

End Config.

(** X20. [process_config] (the pass [load_config] makes over the loaded
    YAML) keeps the structure of the configuration: reading a setting by its
    path of keys after the pass gives the processed value of that setting,
    the keys themselves are never substituted, a setting that is not a
    string (a number, a boolean) is returned unchanged, and a configuration
    whose strings hold no dollar sign is returned as it is. *)
Theorem process_config_keeps_structure {Key Scalar : Type}
    `{EqDecision Key} (env : gmap string string) (obj : yaml Key Scalar) :
  (forall path,
     lookup_path path (process_config env obj)
     = process_config env <$> lookup_path path obj)
  /\ (forall path v,
        lookup_path path obj = Some (YScalar v) ->
        lookup_path path (process_config env obj) = Some (YScalar v))
  /\ (forall path s,
        lookup_path path obj = Some (YStr s) ->
        lookup_path path (process_config env obj)
        = Some (YStr (substitute_env_vars env s)))
  /\ (plain obj -> process_config env obj = obj).
Proof.
  split; [| split; [| split]].
  - intros path. apply lookup_path_process.
  - intros path v Hv. rewrite lookup_path_process, Hv. reflexivity.
  - intros path s Hs. rewrite lookup_path_process, Hs. reflexivity.
  - apply process_config_plain.
Qed.

End UtilsFacts.

(* ===================================================================== *)
(** * The byte ranges of the file server *)
(* ===================================================================== *)

Module ServerFacts.
Import Server.

Lemma take_pos_nil {A : Type} (n : nat) (l : list A) :
  (0 < n)%nat -> take n l = [] -> l = [].
Proof. intros Hn. destruct n, l; simpl; (lia || congruence). Qed.

(** With a positive chunk size the loop yields the next [remaining] bytes
    of the file, or what is left of it, in chunks that are not empty; all
    the chunks but the last are [chunk_size] long. *)
Lemma range_loop_spec (data : list Byte.byte) (chunk_size : Z) :
  0 < chunk_size ->
  forall (fuel pos : nat) (remaining : Z),
    remaining <= Z.of_nat fuel ->
    exists chunks,
      range_loop fuel data chunk_size pos remaining = (chunks, None)
      /\ concat chunks = take (Z.to_nat remaining) (drop pos data)
      /\ Forall (fun c => c <> [] /\ Z.of_nat (length c) <= chunk_size) chunks
      /\ forall (i : nat) c, chunks !! i = Some c ->
           (S i < length chunks)%nat -> Z.of_nat (length c) = chunk_size.
Proof.
  intros Hc. induction fuel as [| fuel IH]; intros pos remaining Hfuel.
  { exists []. cbn [range_loop].
    replace (Z.to_nat remaining) with 0%nat by lia.
    repeat split; [constructor | intros i c Hi; discriminate Hi]. }
  cbn [range_loop]. destruct (Z.ltb_spec 0 remaining) as [Hpos | Hneg].
  2: { exists []. replace (Z.to_nat remaining) with 0%nat by lia.
       repeat split; [constructor | intros i c Hi; discriminate Hi]. }
  set (read_size := Z.min chunk_size remaining).
  assert (Hrs : 0 < read_size) by (unfold read_size; lia).
  unfold read.
  destruct (Z.ltb_spec read_size (-1)) as [Hbad | _]; [lia |].
  destruct (Z.eqb_spec read_size (-1)) as [Hbad | _]; [lia |].
  set (rest_of_file := drop pos data).
  destruct (take (Z.to_nat read_size) rest_of_file) as [| b chunk] eqn:Hchunk.
  { apply take_pos_nil in Hchunk; [| lia].
    exists []. rewrite Hchunk, take_nil.
    repeat split; [constructor | intros i c Hi; discriminate Hi]. }
  rewrite <- Hchunk. set (c := take (Z.to_nat read_size) rest_of_file).
  assert (Hlen : length c = Nat.min (Z.to_nat read_size) (length rest_of_file))
    by apply length_take.
  assert (Hne : c <> []) by (unfold c; rewrite Hchunk; discriminate).
  assert (Hk : (0 < length c)%nat)
    by (destruct c; [contradiction | simpl; lia]).
  destruct (IH (pos + length c)%nat (remaining - Z.of_nat (length c)))
    as (chunks & Hrun & Hcat & Hall & Hlast); [lia |].
  exists (c :: chunks). rewrite Hrun. cbn [fst snd].
  split; [reflexivity |]. split; [| split].
  - cbn [concat]. rewrite Hcat.
    replace (drop (pos + length c) data) with (drop (length c) rest_of_file)
      by (unfold rest_of_file; rewrite drop_drop; reflexivity).
    assert (Hc_take : c = take (length c) rest_of_file).
    { unfold c at 1. rewrite Hlen.
      rewrite <- (take_take rest_of_file (Z.to_nat read_size)
                            (length rest_of_file)).
      rewrite (take_ge rest_of_file (length rest_of_file)) by lia.
      reflexivity. }
    rewrite Hc_take at 1. rewrite take_take_drop. f_equal. lia.
  - constructor; [| exact Hall]. split; [exact Hne | lia].
  - intros [| i] c' Hi Hlen'; cbn in Hi, Hlen';
      [injection Hi as <- | apply (Hlast i c' Hi); lia].
    destruct (decide (Z.of_nat (length c) = chunk_size)) as [| Hshort];
      [assumption | exfalso].
    assert (Hrest : chunks <> []) by (destruct chunks; [cbn in Hlen'; lia | discriminate]).
    apply Hrest. clear Hlast Hall Hlen'.
    destruct fuel as [| fuel]; [cbn in Hrun; congruence |].
    cbn [range_loop] in Hrun.
    destruct (Z.ltb_spec 0 (remaining - Z.of_nat (length c)))
      as [Hmore | _]; [| congruence].
    assert (Hend : drop (pos + length c) data = []).
    { replace (drop (pos + length c) data)
        with (drop (length c) rest_of_file)
        by (unfold rest_of_file; rewrite drop_drop; reflexivity).
      apply drop_ge. lia. }
    unfold read in Hrun. rewrite Hend in Hrun.
    destruct (_ <? -1); [discriminate |].
    destruct (_ =? -1); [congruence |].
    rewrite take_nil in Hrun. congruence.
Qed.

(** X21. [iter_file_range] on a readable file, from an offset that is not
    negative and with a positive chunk size: the generator ends without
    exception; the chunks, put end to end, are the bytes [start] to [end]
    of the file, cut at the end of the file; no chunk is empty or longer
    than [chunk_size], and every chunk but the last is [chunk_size] long.
    For a range inside the file the bytes yielded number
    [end - start + 1]. *)
Theorem iter_file_range_yields_the_byte_range (data : list Byte.byte)
    (start end_ chunk_size : Z) :
  0 <= start -> 0 < chunk_size ->
  exists chunks,
    iter_file_range (Some data) start end_ chunk_size = (chunks, None)
    /\ concat chunks
       = take (Z.to_nat (end_ - start + 1)) (drop (Z.to_nat start) data)
    /\ Forall (fun c => c <> [] /\ Z.of_nat (length c) <= chunk_size) chunks
    /\ (forall (i : nat) c, chunks !! i = Some c ->
          (S i < length chunks)%nat -> Z.of_nat (length c) = chunk_size)
    /\ (start <= end_ + 1 -> end_ < Z.of_nat (length data) ->
        Z.of_nat (length (concat chunks)) = end_ - start + 1).
Proof.
  intros Hstart Hc. unfold iter_file_range.
  destruct (Z.ltb_spec start 0) as [Hneg | _]; [lia |].
  destruct (range_loop_spec data chunk_size Hc
              (Z.to_nat (end_ - start + 1)) (Z.to_nat start)
              (end_ - start + 1))
    as (chunks & Hrun & Hcat & Hall & Hlast); [lia |].
  exists chunks. cbv zeta. rewrite Hrun.
  split; [reflexivity |]. split; [exact Hcat |].
  split; [exact Hall |]. split; [exact Hlast |].
  intros Hle Hin. rewrite Hcat, length_take, length_drop. lia.
Qed.

Lemma iter_file_range_yields_the_byte_range_witness :
  exists chunks,
    iter_file_range
      (Some [Byte.x00; Byte.x01; Byte.x02; Byte.x03; Byte.x04; Byte.x05;
             Byte.x06]) 1 5 2
    = (chunks, None)
    /\ concat chunks = [Byte.x01; Byte.x02; Byte.x03; Byte.x04; Byte.x05].
Proof.
  destruct (iter_file_range_yields_the_byte_range
              [Byte.x00; Byte.x01; Byte.x02; Byte.x03; Byte.x04; Byte.x05;
               Byte.x06] 1 5 2)
    as (chunks & Hrun & Hcat & _); [lia | lia |].
  exists chunks. split; [exact Hrun | exact Hcat].
Defined.

End ServerFacts.
